(** * Call-monitoring broadcast: the admin WebSocket manager, the health
      loop, the hidden-listener token, the conversation monitor and the
      shutdown of the agent.

    Shallow embedding of the Python code of [CODE_FLOWS_INTEGRATION.md]
    and [TECHNICAL_ARCHITECTURE.md]: dictionaries are [gmap]s, Python
    sets are [gset]s, an [await] on an external object yields an explicit
    result, and everything a coroutine sends is recorded in a trace. The
    two broadcasts of the manager are given twice: as the call runs
    while no other task changes the manager during its sends, and among
    the steps of other tasks. The conversation registry, of which the
    repository has no code, follows the design document, and so does
    the notification of a shutdown.

    The second half covers the code around these: the speech handler and
    the audio loop of the streaming monitor, the retries of the database
    driver and of the agent, the recording handlers and the storage of
    recordings, the customer tokens, and two functions of the frontend. *)

From stdpp Require Import gmap strings list fin_maps pretty.
From Stdlib Require Import ZArith Lia.

Open Scope Z_scope.
Set Warnings "-clear-no-such-hyp".

(* ===================================================================== *)
(** ** Values and messages *)
(* ===================================================================== *)

(** The values that occur in the JSON messages of the manager. *)
#[warnings="-register-all"]
Inductive value :=
  | VNone
  | VBool (b : bool)
  | VNum (n : Z)
  | VStr (s : string)
  | VList (l : list value)
  | VDict (d : list (string * value)).

(** Python truth value of an object ([if x:]). *)
Definition truthy (v : value) : bool :=
  match v with
  | VNone => false
  | VBool b => b
  | VNum n => negb (n =? 0)
  | VStr s => negb (String.eqb s "")
  | VList l => match l with [] => false | _ => true end
  | VDict d => match d with [] => false | _ => true end
  end.

(** [message: dict], keyed by field name. *)
Abbreviation Message := (gmap string value).

(** [message.get(key)]: [None] when the key is absent. *)
Definition dict_get (message : Message) (key : string) : value :=
  default VNone (message !! key).

(* ===================================================================== *)
(** ** WebSockets, as seen from the sender *)
(* ===================================================================== *)

(** What one [await websocket.send_json(message)] does: it returns, it
    raises one of the two exceptions [broadcast_to_admins] names
    ([ConnectionClosed], [WebSocketDisconnect]), it raises any other
    exception, or it never completes (a peer that stopped reading). *)
Inductive send_result :=
  | Sent
  | Disconnected
  | Failed
  | Stalled.

(** A WebSocket object is known by what a send of a message on it does. *)
Record WebSocket := { send_json : Message → send_result }.

(** How a coroutine call ends for the caller that awaits it. *)
Inductive outcome :=
  | Returned
  | Raised
  | Blocked.

(** One [send_json] call made by the manager: the admin whose connection
    was used, the message, and what the send did. *)
Record attempt := Attempt {
  att_admin : string;
  att_message : Message;
  att_result : send_result }.

(* ===================================================================== *)
(** ** AdminWebSocketManager *)
(* ===================================================================== *)

(** [self.admin_connections = {}], [self.conversation_subscriptions =
    defaultdict(set)]. *)
Record AdminWebSocketManager := {
  admin_connections : gmap string WebSocket;
  conversation_subscriptions : gmap string (gset string) }.

Definition new_manager : AdminWebSocketManager :=
  {| admin_connections := ∅; conversation_subscriptions := ∅ |}.

(** [self.conversation_subscriptions.get(conversation_id, set())]: only
    a string can be equal to a key of the dictionary, and a list or a
    dictionary cannot be looked up at all ([TypeError], here [None]). *)
Definition subscriptions_get (subs : gmap string (gset string))
    (conversation_id : value) : option (gset string) :=
  match conversation_id with
  | VStr c => Some (default ∅ (subs !! c))
  | VList _ | VDict _ => None
  | _ => Some ∅
  end.

(** The body of the loop of [remove_admin] for one key:
    [subs[conversation_id].discard(admin_id)], then [del] of an empty set. *)
Definition discard_admin (admin_id conversation_id : string)
    (subs : gmap string (gset string)) : gmap string (gset string) :=
  let subs1 := <[conversation_id := (default ∅ (subs !! conversation_id)) ∖ {[admin_id]}]> subs in
  if decide (default ∅ (subs1 !! conversation_id) = ∅)
  then delete conversation_id subs1
  else subs1.

(** What [remove_admin] leaves of the entry of one conversation. *)
Definition without (admin_id : string) (entry : option (gset string))
    : option (gset string) :=
  X ← entry; if decide (X ∖ {[admin_id]} = ∅) then None else Some (X ∖ {[admin_id]}).

(** [remove_admin]: the guarded [del] on the connections, then the loop
    over [list(self.conversation_subscriptions.keys())]. *)
Definition remove_admin (s : AdminWebSocketManager) (admin_id : string)
    : AdminWebSocketManager :=
  {| admin_connections :=
       if decide (is_Some (admin_connections s !! admin_id))
       then delete admin_id (admin_connections s)
       else admin_connections s;
     conversation_subscriptions :=
       foldl (λ subs conversation_id, discard_admin admin_id conversation_id subs)
             (conversation_subscriptions s)
             (elements (dom (conversation_subscriptions s))) |}.

(** The first loop of [broadcast_to_admins]: one send per target that has
    a connection; a handled disconnect is remembered, any other exception
    and a send that never completes end the loop. Returns the trace of
    sends, [disconnected_admins] and how the loop ended. This is the
    loop while no other task changes the manager during its sends;
    [live_loop] below is the loop among other tasks. *)
Fixpoint send_loop (conns : gmap string WebSocket) (message : Message)
    (targets : list string) : list attempt * list string * outcome :=
  match targets with
  | [] => ([], [], Returned)
  | admin_id :: rest =>
      match conns !! admin_id with
      | None => send_loop conns message rest
      | Some ws =>
          match send_json ws message with
          | Sent =>
              let '(tr, disc, o) := send_loop conns message rest in
              (Attempt admin_id message Sent :: tr, disc, o)
          | Disconnected =>
              let '(tr, disc, o) := send_loop conns message rest in
              (Attempt admin_id message Disconnected :: tr, admin_id :: disc, o)
          | Failed => ([Attempt admin_id message Failed], [], Raised)
          | Stalled => ([Attempt admin_id message Stalled], [], Blocked)
          end
      end
  end.

(** [target_admins] of [broadcast_to_admins]; [None] when its
    computation raises. *)
Definition target_admins (s : AdminWebSocketManager) (message : Message)
    : option (gset string) :=
  let conversation_id := dict_get message "conversation_id" in
  if truthy conversation_id
  then subscriptions_get (conversation_subscriptions s) conversation_id
  else Some (dom (admin_connections s)).

(** The admins the send loop goes through. *)
Definition targets (s : AdminWebSocketManager) (message : Message) : gset string :=
  default ∅ (target_admins s message).

(** [broadcast_to_admins]: the send loop, then [remove_admin] for every
    collected admin, unless the send loop was left by an exception or
    never finished. Python does not say in which order a set is gone
    through; [elements] is one order, and no property below depends on
    which. *)
Definition broadcast_to_admins (s : AdminWebSocketManager) (message : Message)
    : AdminWebSocketManager * list attempt * outcome :=
  match target_admins s message with
  | None => (s, [], Raised)
  | Some target =>
      let '(tr, disconnected_admins, o) :=
        send_loop (admin_connections s) message (elements target) in
      match o with
      | Returned => (foldl remove_admin s disconnected_admins, tr, Returned)
      | _ => (s, tr, o)
      end
  end.

(** The publisher's calls one after the other: every send is appended to
    the wire; a call that never returns is the last one. *)
Fixpoint publish_all (s : AdminWebSocketManager) (messages : list Message)
    : AdminWebSocketManager * list attempt :=
  match messages with
  | [] => (s, [])
  | message :: rest =>
      let '(s1, tr, o) := broadcast_to_admins s message in
      match o with
      | Blocked => (s1, tr)
      | _ => let '(s2, tr2) := publish_all s1 rest in (s2, tr ++ tr2)
      end
  end.

(** The messages that reached the channel of [admin_id], in order. *)
Definition delivered (admin_id : string) (a : attempt) : bool :=
  bool_decide (att_admin a = admin_id) &&
  match att_result a with Sent => true | _ => false end.

Definition deliveries_to (admin_id : string) (tr : list attempt) : list Message :=
  att_message <$> filter (λ a, delivered admin_id a = true) tr.

(** The sends addressed to [admin_id], whatever they did. *)
Definition attempts_to (admin_id : string) (tr : list attempt) : list attempt :=
  filter (λ a, att_admin a = admin_id) tr.

(** How a send that is not inside a [try] ends for the caller. *)
Definition send_outcome (r : send_result) : outcome :=
  match r with
  | Sent => Returned
  | Disconnected | Failed => Raised
  | Stalled => Blocked
  end.

(** [subscribe_to_conversation]: [history] stands for the result of
    [get_conversation_history], which is not part of the sources. *)
Definition subscribe_to_conversation (s : AdminWebSocketManager)
    (admin_id conversation_id : string) (history : value)
    : AdminWebSocketManager * list attempt * outcome :=
  let subs := conversation_subscriptions s in
  let s1 := {| admin_connections := admin_connections s;
               conversation_subscriptions :=
                 <[conversation_id := default ∅ (subs !! conversation_id) ∪ {[admin_id]}]> subs |} in
  match admin_connections s !! admin_id with
  | Some ws =>
      let message : Message :=
        {[ "type" := VStr "conversation_history";
           "conversation_id" := VStr conversation_id;
           "history" := history ]} in
      let r := send_json ws message in
      (s1, [Attempt admin_id message r], send_outcome r)
  | None => (s1, [], Returned)
  end.

(** [register_admin]: [accepted] is how [websocket.accept()] ends and
    [active_conversations] the result of [get_active_conversations];
    neither is part of the sources. *)
Definition register_admin (s : AdminWebSocketManager) (admin_id : string)
    (websocket : WebSocket) (accepted : outcome) (active_conversations : value)
    : AdminWebSocketManager * list attempt * outcome :=
  match accepted with
  | Returned =>
      let s1 := {| admin_connections := <[admin_id := websocket]> (admin_connections s);
                   conversation_subscriptions := conversation_subscriptions s |} in
      let message : Message :=
        {[ "type" := VStr "initial_state"; "conversations" := active_conversations ]} in
      let r := send_json websocket message in
      (s1, [Attempt admin_id message r], send_outcome r)
  | _ => (s, [], accepted)
  end.

(** The loop of [broadcast_audio_chunk]: the bare [except] skips every
    exception; a send that never completes still holds the loop. As
    [send_loop], this is the loop while no other task changes the
    manager during its sends; the [try] is around the send only, and
    [live_loop] below has the exception the [for] statement itself
    raises among other tasks. *)
Fixpoint audio_loop (conns : gmap string WebSocket) (message : Message)
    (targets : list string) : list attempt * outcome :=
  match targets with
  | [] => ([], Returned)
  | admin_id :: rest =>
      match conns !! admin_id with
      | None => audio_loop conns message rest
      | Some ws =>
          match send_json ws message with
          | Stalled => ([Attempt admin_id message Stalled], Blocked)
          | r =>
              let '(tr, o) := audio_loop conns message rest in
              (Attempt admin_id message r :: tr, o)
          end
      end
  end.

(** [broadcast_audio_chunk]: [encoded_chunk] is the base64 text of the
    chunk and [timestamp] the formatted clock reading. The manager itself
    is not changed. *)
Definition broadcast_audio_chunk (s : AdminWebSocketManager)
    (conversation_id encoded_chunk timestamp : string) : list attempt * outcome :=
  let target := default ∅ (conversation_subscriptions s !! conversation_id) in
  let message : Message :=
    {[ "type" := VStr "audio_chunk";
       "conversation_id" := VStr conversation_id;
       "audio_data" := VStr encoded_chunk;
       "timestamp" := VStr timestamp ]} in
  audio_loop (admin_connections s) message (elements target).

(* ===================================================================== *)
(** ** StreamingConversationMonitor._monitor_conversation_health *)
(* ===================================================================== *)

(** Instants and durations are counted in microseconds, the resolution of
    [datetime]; [total_seconds() > 30] is then a comparison with
    30 000 000. *)
Definition seconds (n : Z) : Z := n * 1000000.

Definition silence_threshold : Z := seconds 30.
Definition sweep_interval : Z := seconds 5.

(** What one iteration of the loop reads: [get_last_activity_time()] and
    the three readings of [datetime.utcnow()], in the order of the code. *)
Record sweep := {
  last_activity : Z;
  now_check : Z;
  now_start : Z;
  now_stamp : Z }.

(** How an iteration ends: with [asyncio.sleep], in the [except] branch
    (logged, no sleep), or never. *)
Inductive sweep_end :=
  | Slept (duration : Z)
  | Logged
  | Hung.

(** What an iteration did: the alert it passed to [broadcast_to_admins],
    the sends this caused, and its end. *)
Record sweep_log := {
  sw_alert : option Message;
  sw_sends : list attempt;
  sw_end : sweep_end }.

Definition silence_alert (conversation_id : string) (silence_duration timestamp : Z)
    : Message :=
  {[ "type" := VStr "silence_alert";
     "conversation_id" := VStr conversation_id;
     "duration" := VNum silence_duration;
     "timestamp" := VNum timestamp ]}.

(** The test [silence_duration > 30] of an iteration. *)
Definition over_threshold (t : sweep) : bool :=
  silence_threshold <? now_check t - last_activity t.

(** One iteration of the [while] loop; the state is the local
    [silence_start] and the monitor's [websocket_manager]. *)
Definition health_sweep (conversation_id : string)
    (silence_start : option Z) (mgr : AdminWebSocketManager) (t : sweep)
    : option Z * AdminWebSocketManager * sweep_log :=
  let silence_duration := now_check t - last_activity t in
  if silence_threshold <? silence_duration then
    match silence_start with
    | None =>
        let message := silence_alert conversation_id silence_duration (now_stamp t) in
        let '(mgr1, tr, o) := broadcast_to_admins mgr message in
        (Some (now_start t), mgr1,
         {| sw_alert := Some message; sw_sends := tr;
            sw_end := match o with
                      | Returned => Slept sweep_interval
                      | Raised => Logged
                      | Blocked => Hung
                      end |})
    | Some _ =>
        (silence_start, mgr,
         {| sw_alert := None; sw_sends := []; sw_end := Slept sweep_interval |})
    end
  else
    (None, mgr, {| sw_alert := None; sw_sends := []; sw_end := Slept sweep_interval |}).

(** The loop, run on the readings of the iterations it gets to execute
    while [is_streaming] holds; an iteration that hangs is the last. *)
Fixpoint health_loop (conversation_id : string) (silence_start : option Z)
    (mgr : AdminWebSocketManager) (ts : list sweep) : list sweep_log :=
  match ts with
  | [] => []
  | t :: rest =>
      let '(silence_start1, mgr1, lg) := health_sweep conversation_id silence_start mgr t in
      match sw_end lg with
      | Hung => [lg]
      | _ => lg :: health_loop conversation_id silence_start1 mgr1 rest
      end
  end.

(** [_monitor_conversation_health]: [silence_start = None], then the loop. *)
Definition monitor_conversation_health (conversation_id : string)
    (mgr : AdminWebSocketManager) (ts : list sweep) : list sweep_log :=
  health_loop conversation_id None mgr ts.

(** Whether the iteration number [i] is the first of a streak of
    iterations that find the silence over the threshold. *)
Definition streak_starts_at (ts : list sweep) (i : nat) : Prop :=
  (over_threshold <$> ts !! i) = Some true ∧
  (i = 0%nat ∨ (over_threshold <$> ts !! pred i) = Some false).

(** Modelled from the spec: [get_last_activity_time], which the sources
    only call: the instant of the most recent activity that is not after
    [now], and [start] as long as there was none. *)
Definition last_activity_time (start : Z) (activity : list Z) (now : Z) : Z :=
  foldr Z.max start (filter (λ a, a ≤ now) activity).

(** The iteration run at the instant [now]. *)
Definition sweep_at (start : Z) (activity : list Z) (now : Z) : sweep :=
  {| last_activity := last_activity_time start activity now;
     now_check := now; now_start := now; now_stamp := now |}.

(** The clock does not go back from one iteration to the next. *)
Definition increasing (l : list Z) : Prop :=
  ∀ i x y, l !! i = Some x → l !! S i = Some y → x ≤ y.

(** Successive iterations are at most [d] apart. *)
Definition gaps_within (d : Z) (l : list Z) : Prop :=
  ∀ i x y, l !! i = Some x → l !! S i = Some y → y - x ≤ d.

(* ===================================================================== *)
(** ** Tokens for hidden listeners *)
(* ===================================================================== *)

Module Auth.

(** The errors of the design's taxonomy. *)
Inductive error :=
  | ConversationNotFound
  | SubscriptionLimitExceeded
  | TransportFailure
  | StaleEvent.

Inductive result (A : Type) :=
  | Ok (a : A)
  | Err (e : error).
Arguments Ok {A} a.
Arguments Err {A} e.

(** [RoomGrants(...)] with the keyword arguments the admin tokens give. *)
Record RoomGrants := {
  room_join : bool;
  room : string;
  can_subscribe : bool;
  can_publish : bool;
  hidden : bool }.

(** An [AccessToken] under construction; [to_jwt] signs exactly these
    fields, the signature itself is not modelled. *)
Record AccessToken := {
  api_key : string;
  api_secret : string;
  identity : string;
  name : option string;
  grants : option RoomGrants;
  metadata : option value }.

Definition new_token (key secret : string) : AccessToken :=
  {| api_key := key; api_secret := secret; identity := "";
     name := None; grants := None; metadata := None |}.

Definition with_identity (t : AccessToken) (i : string) : AccessToken :=
  {| api_key := api_key t; api_secret := api_secret t; identity := i;
     name := name t; grants := grants t; metadata := metadata t |}.

Definition with_name (t : AccessToken) (n : string) : AccessToken :=
  {| api_key := api_key t; api_secret := api_secret t; identity := identity t;
     name := Some n; grants := grants t; metadata := metadata t |}.

Definition with_grants (t : AccessToken) (g : RoomGrants) : AccessToken :=
  {| api_key := api_key t; api_secret := api_secret t; identity := identity t;
     name := name t; grants := Some g; metadata := metadata t |}.

Definition with_metadata (t : AccessToken) (m : value) : AccessToken :=
  {| api_key := api_key t; api_secret := api_secret t; identity := identity t;
     name := name t; grants := grants t; metadata := Some m |}.

(** The signed token, known by its content. *)
Record Jwt := { jwt_claims : AccessToken }.

Definition to_jwt (t : AccessToken) : Jwt := {| jwt_claims := t |}.

Section Keys.
Variables API_KEY API_SECRET : string.

(** [AuthManager.generate_admin_token]: no branch, no [raise]. *)
Definition generate_admin_token (room_name admin_id : string) : result Jwt :=
  let token := new_token API_KEY API_SECRET in
  let token := with_identity token ("admin_" +:+ admin_id) in
  let token := with_grants token
    {| room_join := true; room := room_name; can_subscribe := true;
       can_publish := false; hidden := true |} in
  Ok (to_jwt token).

(** [setup_admin_monitoring]. *)
Definition setup_admin_monitoring (admin_id room_name : string) : result Jwt :=
  let token := new_token API_KEY API_SECRET in
  let token := with_identity token ("admin_" +:+ admin_id) in
  let token := with_name token "System Monitor" in
  let token := with_grants token
    {| room_join := true; room := room_name; can_subscribe := true;
       can_publish := false; hidden := true |} in
  let token := with_metadata token
    (VDict [("role", VStr "admin");
            ("monitor_type", VStr "supervisor");
            ("permissions", VList [VStr "audio_monitor"; VStr "transcript_view"])]) in
  Ok (to_jwt token).
End Keys.

(** What the design asks of a grant for [room_name]. *)
Definition hidden_listener_grant (room_name : string) (j : Jwt) : Prop :=
  ∃ g, grants (jwt_claims j) = Some g ∧
       room_join g = true ∧ room g = room_name ∧ can_subscribe g = true ∧
       can_publish g = false ∧ hidden g = true.

End Auth.

(* ===================================================================== *)
(** ** ConversationMonitor.log_event *)
(* ===================================================================== *)

Module Monitor.

(** The dataclass [ConversationEvent]; the confidence is a number whose
    value no code here inspects. *)
Record ConversationEvent := {
  timestamp : Z;
  speaker : string;
  content : string;
  confidence : Z;
  is_final : bool;
  event_type : string }.

(** [self.metadata]. *)
Record Metadata := {
  start_time : Z;
  participants : list string;
  status : string }.

Record ConversationMonitor := {
  conversation_id : string;
  events : list ConversationEvent;
  metadata : Metadata }.

(** [ConversationMonitor(conversation_id)] created at [now]. *)
Definition new_monitor (cid : string) (now : Z) : ConversationMonitor :=
  {| conversation_id := cid; events := [];
     metadata := {| start_time := now; participants := []; status := "active" |} |}.

Section LogEvent.
(** [self.db.store_event] and [self.broadcast_to_admins] are not part
    of the sources: each is a state change of its own store together
    with the way the call ends. *)
Context {Db Admins : Type}.
Variable store_event : Db → string → ConversationEvent → Db * outcome.
Variable broadcast_event : Admins → ConversationEvent → Admins * outcome.

(** [log_event]: append, store, broadcast; no branch on the status. *)
Definition log_event (m : ConversationMonitor) (db : Db) (admins : Admins)
    (event : ConversationEvent)
    : ConversationMonitor * Db * Admins * outcome :=
  let m1 := {| conversation_id := conversation_id m;
               events := events m ++ [event];
               metadata := metadata m |} in
  let '(db1, o1) := store_event db (conversation_id m) event in
  match o1 with
  | Returned =>
      let '(admins1, o2) := broadcast_event admins event in
      (m1, db1, admins1, o2)
  | _ => (m1, db1, admins, o1)
  end.
End LogEvent.

End Monitor.

(* ===================================================================== *)
(** ** EnhancedAgent.graceful_shutdown *)
(* ===================================================================== *)

Module Agent.

Section Shutdown.
(** The agent and everything it reaches form the world [W]; the four
    awaited calls of the body are state changes of it. *)
Context {W : Type}.
Variable egress_started : W → bool.
Variable has_room : W → bool.
Variable stop_recording : W → W * outcome.
Variable finalize_conversation : W → W * outcome.
Variable broadcast_shutdown_event : W → W * outcome.
Variable room_disconnect : W → W * outcome.

(** The [try] block: each call is made only when the one before
    returned. *)
Definition shutdown_steps (w : W) : W * outcome :=
  let '(w1, o1) := if egress_started w then stop_recording w else (w, Returned) in
  match o1 with
  | Returned =>
      let '(w2, o2) := finalize_conversation w1 in
      match o2 with
      | Returned => broadcast_shutdown_event w2
      | _ => (w2, o2)
      end
  | _ => (w1, o1)
  end.

(** [graceful_shutdown]: an exception of the [try] block is logged, the
    [finally] block runs after it in either case. *)
Definition graceful_shutdown (w : W) : W * outcome :=
  let '(w1, o) := shutdown_steps w in
  match o with
  | Blocked => (w1, Blocked)
  | _ => if has_room w1 then room_disconnect w1 else (w1, Returned)
  end.
End Shutdown.

(** The agent with the monitor state and the admin manager it notifies. *)
Record EnhancedAgent := {
  conversation_id : string;
  _egress_started : bool;
  room_connected : option bool;
  monitor_status : string;
  manager : AdminWebSocketManager;
  wire : list attempt }.

Definition set_manager (a : EnhancedAgent) (mgr : AdminWebSocketManager)
    (tr : list attempt) : EnhancedAgent :=
  {| conversation_id := conversation_id a; _egress_started := _egress_started a;
     room_connected := room_connected a; monitor_status := monitor_status a;
     manager := mgr; wire := wire a ++ tr |}.

(** The terminal event of a conversation, of the type the dashboard
    listens for. *)
Definition conversation_ended (cid : string) : Message :=
  {[ "type" := VStr "conversation_ended"; "conversation_id" := VStr cid ]}.

(** Modelled from the spec: the teardown of a topic, every subscription
    of the conversation at once. The manager of the sources has no such
    method; the subscriptions of a conversation are the entry of its
    identifier. *)
Definition detach_topic (s : AdminWebSocketManager) (conversation_id : string)
    : AdminWebSocketManager :=
  {| admin_connections := admin_connections s;
     conversation_subscriptions := delete conversation_id (conversation_subscriptions s) |}.

(** Modelled from the spec: [broadcast_shutdown_event], which the sources
    only call. The terminal event is published on the conversation's
    topic, hence through [broadcast_to_admins] with the conversation
    identifier, and any subscriber still attached receives it before
    being detached: every subscription of the conversation is torn down
    in the same step, whether the publish returned or raised. A publish
    that never completes is followed by nothing. *)
Definition broadcast_shutdown_event (a : EnhancedAgent) : EnhancedAgent * outcome :=
  let '(mgr, tr, o) := broadcast_to_admins (manager a) (conversation_ended (conversation_id a)) in
  match o with
  | Blocked => (set_manager a mgr tr, Blocked)
  | _ => (set_manager a (detach_topic mgr (conversation_id a)) tr, o)
  end.

(** Modelled from the spec: [stop_recording], [finalize_conversation]
    and [room.disconnect], which the sources only call. Each ends as the
    environment decides ([ends]); finalizing is the transition of the
    conversation to ended, disconnecting leaves the room. None of them
    reaches the admin manager. *)
Definition stop_recording (ends : outcome) (a : EnhancedAgent) : EnhancedAgent * outcome :=
  (a, ends).

Definition finalize_conversation (ends : outcome) (a : EnhancedAgent)
    : EnhancedAgent * outcome :=
  match ends with
  | Returned =>
      ({| conversation_id := conversation_id a; _egress_started := _egress_started a;
          room_connected := room_connected a; monitor_status := "ended";
          manager := manager a; wire := wire a |}, Returned)
  | _ => (a, ends)
  end.

Definition room_disconnect (ends : outcome) (a : EnhancedAgent) : EnhancedAgent * outcome :=
  match ends with
  | Returned =>
      ({| conversation_id := conversation_id a; _egress_started := _egress_started a;
          room_connected := Some false; monitor_status := monitor_status a;
          manager := manager a; wire := wire a |}, Returned)
  | _ => (a, ends)
  end.

(** [graceful_shutdown] of the agent, for given ends of the three calls
    into the platform. *)
Definition agent_shutdown (stop_ends finalize_ends disconnect_ends : outcome)
    (a : EnhancedAgent) : EnhancedAgent * outcome :=
  graceful_shutdown _egress_started (λ a, bool_decide (is_Some (room_connected a)))
    (stop_recording stop_ends) (finalize_conversation finalize_ends)
    broadcast_shutdown_event (room_disconnect disconnect_ends) a.

End Agent.

(* ===================================================================== *)
(** ** The conversation registry of the design *)
(* ===================================================================== *)

Module Registry.

Inductive kind :=
  | ParticipantJoined
  | ParticipantLeft
  | InterimTranscript
  | FinalTranscript
  | SilenceAlert
  | RecordingStateChanged
  | ConversationEnded.

Record ConversationEvent := {
  conversationId : string;
  ev_kind : kind;
  payload : value;
  timestamp : Z }.

Inductive status := Active | Ended.

Record ConversationSession := {
  id : string;
  startedAt : Z;
  session_status : status;
  participantCount : Z;
  publisherCount : Z;
  lastActivityAt : Z }.

Definition is_membership (k : kind) : bool :=
  match k with ParticipantJoined | ParticipantLeft => true | _ => false end.

Section ApplyEvent.
(** The design does not say how a membership event changes the
    publisher counter; the change is left open. *)
Variable publisher_change : ConversationEvent → Z → Z.

(** Modelled from the spec: the update of a session by one event, which
    no source file contains. A join adds one participant, a leave takes
    one away and never goes below zero, the end of the conversation
    changes the status, and a transcript is activity; only membership
    events touch the two counters. *)
Definition update_session (s : ConversationSession) (e : ConversationEvent)
    : ConversationSession :=
  match ev_kind e with
  | ParticipantJoined =>
      {| id := id s; startedAt := startedAt s; session_status := session_status s;
         participantCount := participantCount s + 1;
         publisherCount := publisher_change e (publisherCount s);
         lastActivityAt := lastActivityAt s |}
  | ParticipantLeft =>
      {| id := id s; startedAt := startedAt s; session_status := session_status s;
         participantCount := Z.max 0 (participantCount s - 1);
         publisherCount := publisher_change e (publisherCount s);
         lastActivityAt := lastActivityAt s |}
  | ConversationEnded =>
      {| id := id s; startedAt := startedAt s; session_status := Ended;
         participantCount := participantCount s;
         publisherCount := publisherCount s;
         lastActivityAt := lastActivityAt s |}
  | InterimTranscript | FinalTranscript =>
      {| id := id s; startedAt := startedAt s; session_status := session_status s;
         participantCount := participantCount s;
         publisherCount := publisherCount s;
         lastActivityAt := timestamp e |}
  | SilenceAlert | RecordingStateChanged => s
  end.

(** Modelled from the spec: [applyEvent], which no source file
    contains. A session is created by the first join of an unknown
    identifier; an event on an ended conversation is stale and dropped;
    any other event updates the session it names. *)
Definition applyEvent (r : gmap string ConversationSession) (e : ConversationEvent)
    : gmap string ConversationSession :=
  match r !! conversationId e with
  | Some s =>
      match session_status s with
      | Ended => r
      | Active => <[conversationId e := update_session s e]> r
      end
  | None =>
      match ev_kind e with
      | ParticipantJoined =>
          <[conversationId e :=
              {| id := conversationId e; startedAt := timestamp e;
                 session_status := Active; participantCount := 1;
                 publisherCount := publisher_change e 0;
                 lastActivityAt := timestamp e |}]> r
      | _ => r
      end
  end.

Definition applyEvents (r : gmap string ConversationSession)
    (es : list ConversationEvent) : gmap string ConversationSession :=
  foldl applyEvent r es.
End ApplyEvent.

(** The joins and the leaves of a conversation in a sequence of events. *)
Definition is_event (k : kind) (c : string) (e : ConversationEvent) : bool :=
  bool_decide (conversationId e = c) &&
  match k, ev_kind e with
  | ParticipantJoined, ParticipantJoined => true
  | ParticipantLeft, ParticipantLeft => true
  | _, _ => false
  end.

Definition joins (c : string) (es : list ConversationEvent) : Z :=
  Z.of_nat (length (filter (λ e, is_event ParticipantJoined c e = true) es)).

Definition leaves (c : string) (es : list ConversationEvent) : Z :=
  Z.of_nat (length (filter (λ e, is_event ParticipantLeft c e = true) es)).

(** No participant leaves a conversation that has none: in every prefix
    of the sequence the leaves of [c] do not outnumber its joins. *)
Definition balanced (c : string) (es : list ConversationEvent) : Prop :=
  ∀ n, leaves c (take n es) ≤ joins c (take n es).

End Registry.

(* ===================================================================== *)
(** ** Conditions on the sends of a call *)
(* ===================================================================== *)

(** Every send of the loop on the targets [l] returns or is a handled
    disconnect. *)
Definition completes (conns : gmap string WebSocket) (m : Message) (l : list string) : Prop :=
  ∀ a ws, a ∈ l → conns !! a = Some ws →
    send_json ws m = Sent ∨ send_json ws m = Disconnected.

(** The call [broadcast_to_admins s m] finds its targets, none of its
    sends raises an exception other than the two handled ones, and every
    send completes. *)
Definition contained (s : AdminWebSocketManager) (m : Message) : Prop :=
  is_Some (target_admins s m) ∧
  completes (admin_connections s) m (elements (targets s m)).

(** The states the manager gets into from [AdminWebSocketManager()] by
    its own methods ([broadcast_audio_chunk] changes nothing). *)
Inductive reachable : AdminWebSocketManager → Prop :=
  | reach_new : reachable new_manager
  | reach_register s admin_id ws accepted v :
      reachable s → reachable (register_admin s admin_id ws accepted v).1.1
  | reach_subscribe s admin_id conversation_id history :
      reachable s →
      reachable (subscribe_to_conversation s admin_id conversation_id history).1.1
  | reach_broadcast s m :
      reachable s → reachable (broadcast_to_admins s m).1.1
  | reach_remove s admin_id :
      reachable s → reachable (remove_admin s admin_id).

(* ===================================================================== *)
(** ** Calls that return a value *)
(* ===================================================================== *)

(** How an awaited call that returns a value ends: with the value, with
    an exception, or never. *)
Inductive ending (A : Type) :=
  | Gave (a : A)
  | Threw
  | Stuck.
Arguments Gave {A} a.
Arguments Threw {A}.
Arguments Stuck {A}.

(** The message [broadcast_audio_chunk] builds. *)
Definition audio_chunk_message (conversation_id encoded_chunk timestamp : string) : Message :=
  {[ "type" := VStr "audio_chunk";
     "conversation_id" := VStr conversation_id;
     "audio_data" := VStr encoded_chunk;
     "timestamp" := VStr timestamp ]}.

(* ===================================================================== *)
(** ** The broadcasts among other tasks *)
(* ===================================================================== *)

(** [send_loop] and [audio_loop] go through the targets as they are when
    the call begins. The code iterates the set itself, and for a
    conversation with subscribers that set is the one the dictionary
    holds: while a send is awaited other tasks run, and when one of them
    adds to that set or discards from it, the [for] statement raises
    [RuntimeError] at its next step, outside every [try] of the loop. *)

(** What another task does to the manager in one go: the assignment of
    [register_admin], the [add] of [subscribe_to_conversation], and
    [remove_admin], which has no [await]. *)
Inductive task_step :=
  | Registers (admin_id : string) (websocket : WebSocket)
  | Subscribes (admin_id conversation_id : string)
  | Removes (admin_id : string).

Definition apply_step (s : AdminWebSocketManager) (st : task_step)
    : AdminWebSocketManager :=
  match st with
  | Registers admin_id websocket =>
      (register_admin s admin_id websocket Returned VNone).1.1
  | Subscribes admin_id conversation_id =>
      (subscribe_to_conversation s admin_id conversation_id VNone).1.1
  | Removes admin_id => remove_admin s admin_id
  end.

(** What the steps of other tasks during one await did to the set that
    is iterated: nothing; they changed its size, which the next step of
    the [for] answers with [RuntimeError]; or they changed it and left
    its size, after which the order of the iteration depends on the hash
    table and is not determined by the code. *)
Inductive touched :=
  | Untouched
  | Resized
  | Rearranged.

(** The steps of one await, on the manager and on the iterated set.
    [key] is the conversation whose set is iterated, [None] for a fresh
    set, which no other task reaches. The flags say whether the set is
    still the one the dictionary holds (it is not once [remove_admin]
    has emptied it and deleted the key) and whether a step changed it. *)
Definition during (key : option string)
    (acc : AdminWebSocketManager * bool * bool) (st : task_step)
    : AdminWebSocketManager * bool * bool :=
  let '(s, held, changed) := acc in
  let s1 := apply_step s st in
  match key with
  | Some c =>
      let before := conversation_subscriptions s !! c in
      let after := conversation_subscriptions s1 !! c in
      if held then
        (s1, bool_decide (is_Some after), changed || negb (bool_decide (after = before)))
      else (s1, false, changed)
  | None => (s1, false, changed)
  end.

Definition interference (key : option string) (s : AdminWebSocketManager)
    (steps : list task_step) : AdminWebSocketManager * touched :=
  let '(s1, held, changed) :=
    foldl (during key) (s, bool_decide (is_Some key), false) steps in
  (s1,
   if changed then
     match key with
     | Some c =>
         let size_before := size (default ∅ (conversation_subscriptions s !! c)) in
         let size_after :=
           if held then size (default ∅ (conversation_subscriptions s1 !! c)) else 0%nat in
         if decide (size_after = size_before) then Rearranged else Resized
     | None => Untouched
     end
   else Untouched).

(** The [for] loop of either broadcast among other tasks. [caught] says
    which exceptions of a send the [try] handles; [others] gives, for
    each send that is awaited to its end, the steps other tasks made
    meanwhile. [None] when the code does not determine the run. *)
Fixpoint live_loop (caught : send_result → bool) (key : option string)
    (message : Message) (order : list string) (s : AdminWebSocketManager)
    (others : list (list task_step))
    : option (AdminWebSocketManager * list attempt * outcome) :=
  match order with
  | [] => Some (s, [], Returned)
  | admin_id :: rest =>
      match admin_connections s !! admin_id with
      | None => live_loop caught key message rest s others
      | Some ws =>
          let r := send_json ws message in
          let '(s1, t) := interference key s (hd [] others) in
          match r with
          | Stalled => Some (s, [Attempt admin_id message r], Blocked)
          | _ =>
              if caught r then
                match t with
                | Untouched =>
                    '(s2, tr, o) ← live_loop caught key message rest s1 (tl others);
                    Some (s2, Attempt admin_id message r :: tr, o)
                | Resized => Some (s1, [Attempt admin_id message r], Raised)
                | Rearranged => None
                end
              else Some (s1, [Attempt admin_id message r], Raised)
          end
      end
  end.

(** The sends [broadcast_to_admins] lets pass: those that return and the
    two exceptions it names; [broadcast_audio_chunk] lets every end of a
    send pass. *)
Definition passes (r : send_result) : bool :=
  match r with
  | Sent | Disconnected => true
  | _ => false
  end.

(** The admins a trace shows as disconnected, in the order of the sends. *)
Definition disconnected_in (tr : list attempt) : list string :=
  omap (λ a, match att_result a with Disconnected => Some (att_admin a) | _ => None end) tr.

(** The set [broadcast_to_admins] iterates is the dictionary's own when
    the message names, by a string that is true, a conversation that has
    an entry; [.get] makes a fresh set otherwise, and so does [set(...)]. *)
Definition live_key (s : AdminWebSocketManager) (message : Message) : option string :=
  match dict_get message "conversation_id" with
  | VStr c =>
      if truthy (VStr c) && bool_decide (is_Some (conversation_subscriptions s !! c))
      then Some c else None
  | _ => None
  end.

(** [broadcast_to_admins] among other tasks: the loop, then the cleanup,
    in which nothing is awaited to another task. *)
Definition broadcast_to_admins_live (s : AdminWebSocketManager) (message : Message)
    (others : list (list task_step))
    : option (AdminWebSocketManager * list attempt * outcome) :=
  match target_admins s message with
  | None => Some (s, [], Raised)
  | Some target =>
      '(s1, tr, o) ← live_loop passes (live_key s message) message (elements target) s others;
      match o with
      | Returned => Some (foldl remove_admin s1 (disconnected_in tr), tr, Returned)
      | _ => Some (s1, tr, o)
      end
  end.

(** [broadcast_audio_chunk] among other tasks; the bare [except] covers
    the send only. *)
Definition broadcast_audio_chunk_live (s : AdminWebSocketManager)
    (conversation_id encoded_chunk timestamp : string) (others : list (list task_step))
    : option (AdminWebSocketManager * list attempt * outcome) :=
  let target := default ∅ (conversation_subscriptions s !! conversation_id) in
  let key := if bool_decide (is_Some (conversation_subscriptions s !! conversation_id))
             then Some conversation_id else None in
  live_loop (λ _, true) key (audio_chunk_message conversation_id encoded_chunk timestamp)
    (elements target) s others.

(** No other task makes a step during the sends of a call. *)
Definition quiet (others : list (list task_step)) : Prop :=
  ∀ steps, steps ∈ others → steps = [].

(* ===================================================================== *)
(** ** StreamingConversationMonitor.handle_speech_event *)
(* ===================================================================== *)

Module Speech.

(** [SpeechEventType]: the two members the handler tests for, and any
    other member. *)
Inductive SpeechEventType :=
  | INTERIM_TRANSCRIPT
  | FINAL_TRANSCRIPT
  | OTHER_EVENT.

(** One element of [event.alternatives]. *)
Record Alternative := {
  text : string;
  confidence : Z }.

Record SpeechEvent := {
  type : SpeechEventType;
  speaker : string;
  alternatives : list Alternative }.

(** The dictionary of the interim branch. *)
Definition interim_message (conversation_id speaker : string) (a : Alternative)
    (now : Z) : Message :=
  {[ "type" := VStr "interim_transcript";
     "conversation_id" := VStr conversation_id;
     "speaker" := VStr speaker;
     "text" := VStr (text a);
     "confidence" := VNum (confidence a);
     "timestamp" := VNum now ]}.

(** [ConversationEvent(...)] of the final branch. *)
Definition transcript_event (speaker : string) (a : Alternative) (now : Z)
    : Monitor.ConversationEvent :=
  {| Monitor.timestamp := now;
     Monitor.speaker := speaker;
     Monitor.content := text a;
     Monitor.confidence := confidence a;
     Monitor.is_final := true;
     Monitor.event_type := "speech" |}.

(** The dictionary of the final branch, given [transcript_event.to_dict()]. *)
Definition final_message (conversation_id : string) (event : value) : Message :=
  {[ "type" := VStr "final_transcript";
     "conversation_id" := VStr conversation_id;
     "event" := event ]}.

(** What a call of the handler leaves: the monitor, the two stores of
    [log_event], the [websocket_manager], the sends the manager made and
    the way the call ends. *)
Record handled {Db Admins : Type} := Handled {
  h_monitor : Monitor.ConversationMonitor;
  h_db : Db;
  h_admins : Admins;
  h_manager : AdminWebSocketManager;
  h_sends : list attempt;
  h_end : outcome }.
Arguments handled : clear implicits.

Section HandleSpeechEvent.
(** [self.db.store_event] and the [self.broadcast_to_admins] of the base
    class are the parameters of [log_event]; [to_dict] is a method of
    [ConversationEvent] the sources only call. *)
Context {Db Admins : Type}.
Variable store_event : Db → string → Monitor.ConversationEvent → Db * outcome.
Variable broadcast_event : Admins → Monitor.ConversationEvent → Admins * outcome.
Variable to_dict : Monitor.ConversationEvent → value.

(** [handle_speech_event]; [now] is the reading of [datetime.utcnow()]
    of the branch taken. [event.alternatives[0]] raises [IndexError] on
    an empty list, before the first awaited call of either branch. *)
Definition handle_speech_event (m : Monitor.ConversationMonitor) (db : Db)
    (admins : Admins) (mgr : AdminWebSocketManager) (event : SpeechEvent) (now : Z)
    : handled Db Admins :=
  match type event with
  | INTERIM_TRANSCRIPT =>
      match alternatives event with
      | [] => Handled _ _ m db admins mgr [] Raised
      | a :: _ =>
          let '(mgr1, tr, o) :=
            broadcast_to_admins mgr
              (interim_message (Monitor.conversation_id m) (speaker event) a now) in
          Handled _ _ m db admins mgr1 tr o
      end
  | FINAL_TRANSCRIPT =>
      match alternatives event with
      | [] => Handled _ _ m db admins mgr [] Raised
      | a :: _ =>
          let transcript_event := transcript_event (speaker event) a now in
          let '(m1, db1, admins1, o1) :=
            Monitor.log_event store_event broadcast_event m db admins transcript_event in
          match o1 with
          | Returned =>
              let '(mgr1, tr, o) :=
                broadcast_to_admins mgr
                  (final_message (Monitor.conversation_id m) (to_dict transcript_event)) in
              Handled _ _ m1 db1 admins1 mgr1 tr o
          | _ => Handled _ _ m1 db1 admins1 mgr [] o1
          end
      end
  | OTHER_EVENT => Handled _ _ m db admins mgr [] Returned
  end.
End HandleSpeechEvent.

End Speech.

(* ===================================================================== *)
(** ** DatabaseDriver: transactions and the retried insert *)
(* ===================================================================== *)

Module Database.

(** What [store_conversation_event] does, in order: the queries it
    awaits (numbered by [attempt]) and its sleeps (in microseconds). *)
Inductive db_step :=
  | Query (attempt : nat)
  | Sleep (duration : Z).

Definition max_retries : nat := 3.

(** [0.5 * (2 ** attempt)] seconds. *)
Definition backoff (attempt : nat) : Z := 500000 * 2 ^ Z.of_nat attempt.

(** The [for] loop over [range(max_retries)]; [execute_query attempt] is
    how the body of the [try] of that iteration ends. *)
Fixpoint store_loop (execute_query : nat → outcome) (attempts : list nat)
    : list db_step * outcome :=
  match attempts with
  | [] => ([], Returned)
  | attempt :: rest =>
      match execute_query attempt with
      | Returned => ([Query attempt], Returned)
      | Blocked => ([Query attempt], Blocked)
      | Raised =>
          if decide (attempt = (max_retries - 1)%nat)
          then ([Query attempt], Raised)
          else
            let '(tr, o) := store_loop execute_query rest in
            (Query attempt :: Sleep (backoff attempt) :: tr, o)
      end
  end.

Definition store_conversation_event (execute_query : nat → outcome)
    : list db_step * outcome :=
  store_loop execute_query (seq 0 max_retries).

(** The queries of a trace and the time slept in it. *)
Definition queries (tr : list db_step) : list nat :=
  omap (λ s, match s with Query k => Some k | Sleep _ => None end) tr.

Definition slept (tr : list db_step) : Z :=
  foldr (λ s acc, match s with Sleep d => d + acc | Query _ => acc end) 0 tr.

(** The calls [safe_transaction] makes on the connection and on the
    transaction, and the operations it awaits (numbered from 0). *)
Inductive tx_step :=
  | Begin
  | Operation (index : nat)
  | Commit
  | Rollback
  | Exit.

(** How the exit of an [async with] ends: it returns a value, whose
    truth decides whether an exception of the body is swallowed, it
    raises, or it never returns. *)
Inductive exit_end :=
  | ExitReturned (suppress : bool)
  | ExitRaised
  | ExitBlocked.

Section SafeTransaction.
(** The database is the state [D]. [begin] and [leave] are the two ends
    of [async with self.connection.begin()]; [leave] is told whether the
    body raised. None of the four is part of the sources. *)
Context {D : Type}.
Variable begin : D → D * outcome.
Variable commit : D → D * outcome.
Variable rollback : D → D * outcome.
Variable leave : bool → D → D * exit_end.

(** The [for] loop: an operation is awaited only when the one before it
    returned. *)
Fixpoint run_operations (index : nat) (operations : list (D → D * outcome)) (d : D)
    : D * list tx_step * outcome :=
  match operations with
  | [] => (d, [], Returned)
  | operation :: rest =>
      let '(d1, o) := operation d in
      match o with
      | Returned =>
          let '(d2, tr, o2) := run_operations (S index) rest d1 in
          (d2, Operation index :: tr, o2)
      | _ => (d1, [Operation index], o)
      end
  end.

(** The [try] statement: the loop and the commit; on an exception the
    rollback, after which the exception is raised again. *)
Definition transaction_body (operations : list (D → D * outcome)) (d : D)
    : D * list tx_step * outcome :=
  let '(d1, tr, o) := run_operations 0 operations d in
  let '(d2, tr2, o2) :=
    match o with
    | Returned => let '(d2, oc) := commit d1 in (d2, tr ++ [Commit], oc)
    | _ => (d1, tr, o)
    end in
  match o2 with
  | Raised =>
      let '(d3, o3) := rollback d2 in
      (d3, tr2 ++ [Rollback],
       match o3 with Blocked => Blocked | _ => Raised end)
  | _ => (d2, tr2, o2)
  end.

(** [safe_transaction]: the body between the two ends of the
    [async with]. *)
Definition safe_transaction (operations : list (D → D * outcome)) (d : D)
    : D * list tx_step * outcome :=
  let '(d0, ob) := begin d in
  match ob with
  | Returned =>
      let '(d1, tr, o) := transaction_body operations d0 in
      match o with
      | Blocked => (d1, Begin :: tr, Blocked)
      | Returned =>
          let '(d2, e) := leave false d1 in
          (d2, Begin :: tr ++ [Exit],
           match e with
           | ExitReturned _ => Returned
           | ExitRaised => Raised
           | ExitBlocked => Blocked
           end)
      | Raised =>
          let '(d2, e) := leave true d1 in
          (d2, Begin :: tr ++ [Exit],
           match e with
           | ExitReturned suppress => if suppress then Returned else Raised
           | ExitRaised => Raised
           | ExitBlocked => Blocked
           end)
      end
  | _ => (d0, [Begin], ob)
  end.
End SafeTransaction.

End Database.

(* ===================================================================== *)
(** ** EnhancedAgent.handle_connection_error *)
(* ===================================================================== *)

Module Recovery.

Section HandleConnectionError.
(** As for [graceful_shutdown], the agent and what it reaches are the
    world [W]; [reconnect], [is_connected] and the six parameters of
    [graceful_shutdown] are not part of the sources. *)
Context {W : Type}.
Variable reconnect : W → W * outcome.
Variable is_connected : W → bool.
Variable egress_started : W → bool.
Variable has_room : W → bool.
Variable stop_recording : W → W * outcome.
Variable finalize_conversation : W → W * outcome.
Variable broadcast_shutdown_event : W → W * outcome.
Variable room_disconnect : W → W * outcome.

(** The [for] loop over [range(3)]: sleep [2 ** attempt] seconds, then
    [reconnect]; [break] when it returns, log and go on when it raises.
    Returns, for every iteration, the sleep (in microseconds) and how
    the reconnect after it ended. *)
Fixpoint reconnect_loop (attempts : list nat) (w : W)
    : W * list (Z * outcome) * outcome :=
  match attempts with
  | [] => (w, [], Returned)
  | attempt :: rest =>
      let '(w1, o) := reconnect w in
      let step := (seconds (2 ^ Z.of_nat attempt), o) in
      match o with
      | Returned => (w1, [step], Returned)
      | Raised =>
          let '(w2, steps, o2) := reconnect_loop rest w1 in
          (w2, step :: steps, o2)
      | Blocked => (w1, [step], Blocked)
      end
  end.

(** [handle_connection_error]: the loop, then the shutdown when
    [is_connected()] is false. *)
Definition handle_connection_error (w : W) : W * list (Z * outcome) * outcome :=
  let '(w1, steps, o) := reconnect_loop (seq 0 3) w in
  match o with
  | Blocked => (w1, steps, Blocked)
  | _ =>
      if is_connected w1 then (w1, steps, Returned)
      else
        let '(w2, o2) :=
          Agent.graceful_shutdown egress_started has_room stop_recording
            finalize_conversation broadcast_shutdown_event room_disconnect w1 in
        (w2, steps, o2)
  end.
End HandleConnectionError.

End Recovery.

(* ===================================================================== *)
(** ** WebSocketManager of the frontend: reconnection *)
(* ===================================================================== *)

Module Reconnect.

Definition maxReconnectAttempts : nat := 5.

(** [this.reconnectDelay], in milliseconds. *)
Definition reconnectDelay : Z := 1000.

(** The life of one [WebSocket] created by [connect()]: whether [onopen]
    fired, and the [wasClean] of its close event. *)
Record socket := {
  opened : bool;
  wasClean : bool }.

(** [connect()] with the counter [reconnectAttempts], on the sockets
    that get created one after the other; returns the delays given to
    [setTimeout]. The timer callback increments the counter and calls
    [connect()] again. *)
Fixpoint connect (reconnectAttempts : nat) (sockets : list socket) : list Z :=
  match sockets with
  | [] => []
  | ws :: rest =>
      let attempts := if opened ws then 0%nat else reconnectAttempts in
      if negb (wasClean ws) && bool_decide (attempts < maxReconnectAttempts)%nat
      then reconnectDelay * 2 ^ Z.of_nat attempts :: connect (S attempts) rest
      else []
  end.

End Reconnect.

(* ===================================================================== *)
(** ** The manager of conversation updates *)
(* ===================================================================== *)

Module Updates.

(** What [await websocket.send(json.dumps(message))] does: it returns,
    it raises [ConnectionClosed], it raises anything else (the
    serialization included), or it never completes. *)
Inductive send_end :=
  | Sent
  | Closed
  | OtherError
  | Stalled.

Record Socket := { send : Message → send_end }.

Definition conversation_update (conversation_id : string) (update : value)
    (timestamp : string) : Message :=
  {[ "type" := VStr "conversation_update";
     "conversation_id" := VStr conversation_id;
     "data" := update;
     "timestamp" := VStr timestamp ]}.

(** The first loop, over [self.connections.items()]: only
    [ConnectionClosed] is handled. Returns the sends made, the list
    [disconnected] and how the loop ended. The items are those of the
    dictionary when the call begins: this is the loop while no other
    task connects or disconnects an admin during its sends. *)
Fixpoint update_loop (message : Message) (items : list (string * Socket))
    : list (string * send_end) * list string * outcome :=
  match items with
  | [] => ([], [], Returned)
  | (admin_id, websocket) :: rest =>
      match send websocket message with
      | Sent =>
          let '(tr, disconnected, o) := update_loop message rest in
          ((admin_id, Sent) :: tr, disconnected, o)
      | Closed =>
          let '(tr, disconnected, o) := update_loop message rest in
          ((admin_id, Closed) :: tr, admin_id :: disconnected, o)
      | OtherError => ([(admin_id, OtherError)], [], Raised)
      | Stalled => ([(admin_id, Stalled)], [], Blocked)
      end
  end.

(** [broadcast_conversation_update]: the loop, then the [del] of every
    collected admin. As for the other manager, [map_to_list] is one
    order of the dictionary and no property below depends on it. *)
Definition broadcast_conversation_update (connections : gmap string Socket)
    (conversation_id : string) (update : value) (timestamp : string)
    : gmap string Socket * list (string * send_end) * outcome :=
  let message := conversation_update conversation_id update timestamp in
  let '(tr, disconnected, o) := update_loop message (map_to_list connections) in
  match o with
  | Returned =>
      (foldl (λ conns admin_id, delete admin_id conns) connections disconnected,
       tr, Returned)
  | _ => (connections, tr, o)
  end.

End Updates.

(* ===================================================================== *)
(** ** Recording: the track handler of the agent and EgressRecordingManager *)
(* ===================================================================== *)

Module Egress.

(** [publication.kind]: [TrackKind.AUDIO] or another kind. *)
Inductive TrackKind :=
  | AUDIO
  | OTHER_KIND.

Record RemoteTrackPublication := {
  kind : TrackKind;
  sid : string }.

(** How [egress_client.start_room_composite_egress(request)] ends; the
    construction of the client and of the request count with it. *)
Inductive start_end :=
  | Started (egress_id : string)
  | StartRaised
  | StartBlocked.

(** The calls the handler awaits on other objects. *)
Inductive agent_call :=
  | StartRoomCompositeEgress (room_name filepath : string)
  | UpdateRecordingStatus (status egress_id : string)
  | StartAudioMonitoring (sid : string)
  | NotifyAdminCallStarted (identity : string).

(** The attributes of the agent the handler reads and writes;
    [room] is the name of [self.room], if there is one. *)
Record AgentRecording := {
  conversation_id : string;
  room : option string;
  _egress_started : bool;
  _egress_id : option string;
  _recording_track_sid : option string }.

(** How the awaited calls of one run of the handler end. *)
Record track_env := {
  start_ends : start_end;
  update_ends : outcome;
  monitoring_ends : outcome;
  notify_ends : outcome }.

(** [_start_egress_recording]: the whole body is in a [try] whose
    handler logs; [self.room.name] raises when there is no room. *)
Definition _start_egress_recording (env : track_env) (a : AgentRecording)
    : AgentRecording * list agent_call * outcome :=
  if _egress_started a then (a, [], Returned)
  else
    match room a with
    | None => (a, [], Returned)
    | Some room_name =>
        let call := StartRoomCompositeEgress room_name
                      ("recordings/" +:+ conversation_id a +:+ ".mp4") in
        match start_ends env with
        | Started egress_id =>
            let a1 := {| conversation_id := conversation_id a; room := room a;
                         _egress_started := true; _egress_id := Some egress_id;
                         _recording_track_sid := _recording_track_sid a |} in
            (a1, [call; UpdateRecordingStatus "recording" egress_id],
             match update_ends env with Blocked => Blocked | _ => Returned end)
        | StartRaised => (a, [call], Returned)
        | StartBlocked => (a, [call], Blocked)
        end
    end.

(** [on_track_published]. *)
Definition on_track_published (env : track_env) (a : AgentRecording)
    (publication : RemoteTrackPublication) (identity : string)
    : AgentRecording * list agent_call * outcome :=
  match kind publication, _egress_started a with
  | AUDIO, false =>
      let a1 := {| conversation_id := conversation_id a; room := room a;
                   _egress_started := _egress_started a; _egress_id := _egress_id a;
                   _recording_track_sid := Some (sid publication) |} in
      let '(a2, tr, o) := _start_egress_recording env a1 in
      match o with
      | Returned =>
          match monitoring_ends env with
          | Returned =>
              (a2, tr ++ [StartAudioMonitoring (sid publication);
                          NotifyAdminCallStarted identity], notify_ends env)
          | o1 => (a2, tr ++ [StartAudioMonitoring (sid publication)], o1)
          end
      | _ => (a2, tr, o)
      end
  | _, _ => (a, [], Returned)
  end.

(** The handler run for one publication after the other, each run
    ending before the next begins; a run that never ends is the last. *)
Fixpoint publish_tracks (a : AgentRecording)
    (tracks : list (track_env * RemoteTrackPublication * string))
    : AgentRecording * list agent_call :=
  match tracks with
  | [] => (a, [])
  | (env, publication, identity) :: rest =>
      let '(a1, tr, o) := on_track_published env a publication identity in
      match o with
      | Blocked => (a1, tr)
      | _ => let '(a2, tr2) := publish_tracks a1 rest in (a2, tr ++ tr2)
      end
  end.

(** The egresses a trace shows as started: the identifiers passed to
    [update_recording_status]. *)
Definition egress_ids (tr : list agent_call) : list string :=
  omap (λ c, match c with UpdateRecordingStatus _ egress_id => Some egress_id | _ => None end) tr.

(** The requests to start an egress in a trace, by room. *)
Definition start_requests (tr : list agent_call) : list string :=
  omap (λ c, match c with StartRoomCompositeEgress room_name _ => Some room_name | _ => None end) tr.

(** *** EgressRecordingManager *)

(** How [egress_client.stop_egress(egress_id)] ends, with the
    [download_url] of its response. *)
Inductive stop_end :=
  | Stopped (download_url : option string)
  | StopRaised
  | StopBlocked.

Inductive client_call :=
  | StartEgress (room_name filepath : string)
  | StopEgress (egress_id : string).

Record EgressRecordingManager := {
  m_conversation_id : string;
  egress_id : option string;
  recording_status : string }.

(** [EgressRecordingManager(conversation_id)]. *)
Definition new_recording (conversation_id : string) : EgressRecordingManager :=
  {| m_conversation_id := conversation_id; egress_id := None;
     recording_status := "pending" |}.

(** [start_recording]. *)
Definition start_recording (response : start_end) (m : EgressRecordingManager)
    (room_name : string)
    : EgressRecordingManager * list client_call * ending string :=
  let call := StartEgress room_name ("conversations/" +:+ m_conversation_id m +:+ ".mp4") in
  match response with
  | Started id =>
      ({| m_conversation_id := m_conversation_id m; egress_id := Some id;
          recording_status := "recording" |}, [call], Gave id)
  | StartRaised =>
      ({| m_conversation_id := m_conversation_id m; egress_id := egress_id m;
          recording_status := "failed" |}, [call], Threw)
  | StartBlocked => (m, [call], Stuck)
  end.

(** [stop_recording]; [not self.egress_id] holds of [None] and of the
    empty string. *)
Definition stop_recording (response : stop_end) (m : EgressRecordingManager)
    : EgressRecordingManager * list client_call * ending (option string) :=
  match egress_id m with
  | None => (m, [], Gave None)
  | Some id =>
      if String.eqb id "" then (m, [], Gave None)
      else
        match response with
        | Stopped download_url =>
            ({| m_conversation_id := m_conversation_id m; egress_id := egress_id m;
                recording_status := "stopped" |}, [StopEgress id],
             Gave (match download_url with
                   | Some url => if String.eqb url "" then None else Some url
                   | None => None
                   end))
        | StopRaised =>
            ({| m_conversation_id := m_conversation_id m; egress_id := egress_id m;
                recording_status := "error" |}, [StopEgress id], Threw)
        | StopBlocked => (m, [StopEgress id], Stuck)
        end
  end.

(** The states a manager gets into by its two methods. *)
Inductive reachable_recording : EgressRecordingManager → Prop :=
  | reach_new_recording conversation_id :
      reachable_recording (new_recording conversation_id)
  | reach_start response m room_name :
      reachable_recording m →
      reachable_recording (start_recording response m room_name).1.1
  | reach_stop response m :
      reachable_recording m →
      reachable_recording (stop_recording response m).1.1.

End Egress.

(* ===================================================================== *)
(** ** Customer tokens and the routing of participants *)
(* ===================================================================== *)

Module Participants.
Import Auth.

(** The two coroutines [on_participant_connected] hands a participant to. *)
Inductive handler :=
  | SetupAdminMonitoring
  | StartConversationTracking.

(** [on_participant_connected]: the test is
    [participant.identity.startswith("admin_")]. *)
Definition on_participant_connected (identity : string) : handler :=
  if String.prefix "admin_" identity
  then SetupAdminMonitoring
  else StartConversationTracking.

(** [x or default] on an optional string: [None] and the empty string
    are false. *)
Definition or_default (x : option string) (fallback : string) : string :=
  match x with
  | Some s => if String.eqb s "" then fallback else s
  | None => fallback
  end.

Record TokenRequest := {
  room_name : option string;
  participant_name : option string }.

(** The dictionary [get_token] returns. *)
Record TokenResponse := {
  token : Jwt;
  response_room_name : string;
  participant_identity : string }.

(** How the endpoint ends: with its dictionary, with an
    [HTTPException], or never. *)
Inductive http_end :=
  | Response (r : TokenResponse)
  | HTTPException (status_code : Z) (detail : string)
  | NoResponse.

Section CustomerTokens.
(** The two keys, and the value [RoomGrants] gives to [hidden] when the
    keyword is not passed. *)
Variables API_KEY API_SECRET : string.
Variable hidden_default : bool.

Definition customer_grants (room_name : string) : RoomGrants :=
  {| room_join := true; room := room_name; can_subscribe := true;
     can_publish := true; hidden := hidden_default |}.

(** [AuthManager.generate_customer_token]. *)
Definition generate_customer_token (room_name customer_id : string) : Jwt :=
  let token := new_token API_KEY API_SECRET in
  let token := with_identity token customer_id in
  let token := with_grants token (customer_grants room_name) in
  to_jwt token.

(** [generate_room_token]. *)
Definition generate_room_token (room_name participant_identity : string) : Jwt :=
  let token := new_token API_KEY API_SECRET in
  let token := with_identity token participant_identity in
  let token := with_name token ("Customer " +:+ participant_identity) in
  let token := with_grants token (customer_grants room_name) in
  to_jwt token.

(** [get_token]: [uuid_room] and [uuid_identity] are the texts of the
    two [uuid.uuid4()], [stored] is how [store_room_info] ends. Every
    exception of the body becomes an [HTTPException] with status 500. *)
Definition get_token (request : TokenRequest) (uuid_room uuid_identity : string)
    (stored : outcome) : http_end :=
  let room_name := or_default (room_name request) ("room_" +:+ uuid_room) in
  let participant_name := or_default (participant_name request) "Customer" in
  let token := new_token API_KEY API_SECRET in
  let token := with_identity token ("customer_" +:+ uuid_identity) in
  let token := with_name token participant_name in
  let token := with_grants token (customer_grants room_name) in
  match stored with
  | Returned =>
      Response {| token := to_jwt token;
                  response_room_name := room_name;
                  participant_identity := identity token |}
  | Raised => HTTPException 500 "Token generation failed"
  | Blocked => NoResponse
  end.
End CustomerTokens.

End Participants.

(* ===================================================================== *)
(** ** StreamingConversationMonitor._stream_audio_to_admins *)
(* ===================================================================== *)

Module Streaming.

(** How [audio_streamer.get_next_chunk()] ends in an iteration: with a
    chunk that is true, given by its base64 text and the clock reading
    [broadcast_audio_chunk] formats; with [None] or an empty chunk; with
    an exception; or never. *)
Inductive chunk_end :=
  | Chunk (encoded_chunk timestamp : string)
  | NoChunk
  | ChunkRaised
  | ChunkBlocked.

(** What an iteration of the loop meets: the chunk, the manager as the
    other tasks have left it when the iteration begins, and the steps
    other tasks make during the sends of the iteration. *)
Record tick := {
  chunk : chunk_end;
  manager : AdminWebSocketManager;
  others : list (list task_step) }.

(** One iteration of the [while] loop: the sends made and the end of
    the iteration, a sleep of 0.1 s, of 1 s in the [except] branch, or
    none. An exception of [broadcast_audio_chunk] is caught like one of
    [get_next_chunk]. [None] when the code does not determine the run
    of the broadcast. *)
Definition stream_step (conversation_id : string) (t : tick)
    : option (list attempt * sweep_end) :=
  match chunk t with
  | Chunk encoded_chunk timestamp =>
      '(_, tr, o) ← broadcast_audio_chunk_live (manager t) conversation_id
                      encoded_chunk timestamp (others t);
      Some (tr, match o with
                | Returned => Slept 100000
                | Raised => Slept (seconds 1)
                | Blocked => Hung
                end)
  | NoChunk => Some ([], Slept 100000)
  | ChunkRaised => Some ([], Slept (seconds 1))
  | ChunkBlocked => Some ([], Hung)
  end.

(** The loop on the iterations it executes while [is_streaming] holds;
    an iteration that never ends is the last. *)
Fixpoint _stream_audio_to_admins (conversation_id : string) (ticks : list tick)
    : option (list (list attempt * sweep_end)) :=
  match ticks with
  | [] => Some []
  | t :: rest =>
      step ← stream_step conversation_id t;
      match step.2 with
      | Hung => Some [step]
      | _ => steps ← _stream_audio_to_admins conversation_id rest; Some (step :: steps)
      end
  end.

End Streaming.

(* ===================================================================== *)
(** ** formatDuration of the frontend *)
(* ===================================================================== *)

Module Duration.

(** [s.padStart(2, '0')]. *)
Definition padStart2 (s : string) : string :=
  match String.length s with
  | 0%nat => "00"
  | 1%nat => "0" +:+ s
  | _ => s
  end.

(** [Number.MAX_SAFE_INTEGER], [2 ** 53 - 1]. The numbers of the code
    are IEEE doubles: on whole numbers of milliseconds from 0 to this
    one the difference is exact and the two quotients, each rounded and
    then floored, are the quotients of the integers; beyond, the doubles
    round and the code is not followed. [Date.now()] is in this range. *)
Definition MAX_SAFE_INTEGER : Z := 9007199254740991.

Definition safe (t : Z) : bool := (0 <=? t) && (t <=? MAX_SAFE_INTEGER).

(** The three numbers of the body, for a start time that is true:
    [Math.floor] of a quotient by a positive number is [Z.div], [%] is
    the remainder with the sign of the dividend, [Z.rem]. Times are
    whole milliseconds; [None] outside the range in which the numbers of
    the code are these integers. *)
Definition duration (now startTime : Z) : option Z :=
  if safe now && safe startTime then Some ((now - startTime) `div` 1000) else None.
Definition minutes (now startTime : Z) : option Z :=
  (λ duration, duration `div` 60) <$> duration now startTime.
Definition seconds (now startTime : Z) : option Z :=
  (λ duration, duration `rem` 60) <$> duration now startTime.

(** [formatDuration(startTime)] when [Date.now()] gives [now]; the
    [startTime] [None] stands for [undefined] and [null], which are
    false as 0 is. *)
Definition formatDuration (now : Z) (startTime : option Z) : option string :=
  match startTime with
  | None => Some "00m 00s"
  | Some t =>
      if t =? 0 then Some "00m 00s"
      else
        minutes ← minutes now t;
        seconds ← seconds now t;
        Some (padStart2 (pretty minutes) +:+ "m " +:+ padStart2 (pretty seconds) +:+ "s")
  end.

End Duration.

(* ===================================================================== *)
(** ** Storing recordings: RecordingStorageManager and the egress webhook *)
(* ===================================================================== *)

Module Storage.

(** An object of a bucket: its bytes, its content type and its
    metadata. *)
Record StoredObject := {
  data : list Byte.byte;
  content_type : string;
  object_metadata : gmap string value }.

(** The objects of the bucket [call-recordings], by name. *)
Abbreviation Bucket := (gmap string StoredObject).

Definition bucket_name : string := "call-recordings".

(** [f"conversations/{conversation_id}.mp4"]. *)
Definition object_name (conversation_id : string) : string :=
  "conversations/" +:+ conversation_id +:+ ".mp4".

Section RecordingStorageManager.
(** [self.client.presigned_get_object(bucket, object, expires)], with
    the lifetime in hours. *)
Variable presigned_get_object : string → string → Z → string.

(** [store_recording]: [timestamp] is the formatted clock reading,
    [put_ends] how [put_object] ends; an object is written only when it
    returns. [metadata] is the optional dictionary: [None] and the empty
    dictionary are false; [update] lets its entries win. *)
Definition store_recording (bucket : Bucket) (file_data : list Byte.byte)
    (conversation_id : string) (metadata : option (gmap string value))
    (timestamp : string) (put_ends : outcome) : Bucket * ending string :=
  let object_name := object_name conversation_id in
  let storage_metadata : gmap string value :=
    {[ "conversation-id" := VStr conversation_id;
       "upload-timestamp" := VStr timestamp;
       "content-type" := VStr "audio/mp4" ]} in
  let storage_metadata :=
    match metadata with
    | Some m => if decide (m = ∅) then storage_metadata else m ∪ storage_metadata
    | None => storage_metadata
    end in
  match put_ends with
  | Returned =>
      (<[object_name := {| data := file_data; content_type := "video/mp4";
                           object_metadata := storage_metadata |}]> bucket,
       Gave (presigned_get_object bucket_name object_name 24))
  | Raised => (bucket, Threw)
  | Blocked => (bucket, Stuck)
  end.

(** [get_recording_url]; the default of [expires_hours] is 24. *)
Definition get_recording_url (conversation_id : string) (expires_hours : option Z)
    : string :=
  presigned_get_object bucket_name (object_name conversation_id)
    (default 24 expires_hours).
End RecordingStorageManager.

(** *** The webhook *)

(** One element of [file_results], with the two keys the code reads,
    each a value or absent. *)
Record FileResult := {
  download_url : option string;
  size : option Z }.

(** [egress_info], with the three keys the code reads. *)
Record EgressInfo := {
  egress_id : option string;
  room_name : option string;
  file_results : list FileResult }.

(** The text an f-string and [str] make of an optional value, and the
    value itself. *)
Definition text_of (x : option string) : string := default "None" x.
Definition text_of_size (x : option Z) : string := from_option pretty "None" x.
Definition value_of (x : option string) : value := from_option VStr VNone x.

(** How the download of a URL ends: with a status and a body, with an
    exception, or never. *)
Inductive download_end :=
  | Downloaded (status : Z) (file_content : list Byte.byte)
  | DownloadRaised
  | DownloadBlocked.

Section Webhook.
Variable download : string → download_end.
(** How [put_object] and [update_conversation_recording] end for an
    object name, and the formatted clock reading at the upload of the
    file of a URL. *)
Variable put_ends : string → outcome.
Variable update_ends : string → outcome.
Variable upload_timestamp : string → string.

(** [download_and_store_recording]: the whole body is in a [try] whose
    handler logs. Returns the bucket, the arguments of the calls of
    [update_conversation_recording] and the end of the call. *)
Definition download_and_store_recording (bucket : Bucket) (download_url : string)
    (egress_id room_name : option string) (file_size : option Z)
    : Bucket * list (option string * string) * outcome :=
  match download download_url with
  | Downloaded status file_content =>
      if status =? 200 then
        let object_name := "conversations/" +:+ text_of egress_id +:+ ".mp4" in
        match put_ends object_name with
        | Returned =>
            let bucket1 :=
              <[object_name :=
                  {| data := file_content; content_type := "video/mp4";
                     object_metadata :=
                       {[ "egress-id" := value_of egress_id;
                          "room-name" := value_of room_name;
                          "original-size" := VStr (text_of_size file_size);
                          "upload-timestamp" := VStr (upload_timestamp download_url) ]} |}]>
                bucket in
            (bucket1, [(egress_id, object_name)],
             match update_ends object_name with
             | Blocked => Blocked
             | _ => Returned
             end)
        | Raised => (bucket, [], Returned)
        | Blocked => (bucket, [], Blocked)
        end
      else (bucket, [], Returned)
  | DownloadRaised => (bucket, [], Returned)
  | DownloadBlocked => (bucket, [], Blocked)
  end.

(** The loop of [process_recording_completion]: a file result whose
    [download_url] is absent or empty is passed over. *)
Fixpoint store_files (bucket : Bucket) (egress_id room_name : option string)
    (files : list FileResult) : Bucket * list (option string * string) * outcome :=
  match files with
  | [] => (bucket, [], Returned)
  | file_result :: rest =>
      match download_url file_result with
      | Some url =>
          if String.eqb url "" then store_files bucket egress_id room_name rest
          else
            let '(bucket1, ups, o) :=
              download_and_store_recording bucket url egress_id room_name
                (size file_result) in
            match o with
            | Returned =>
                let '(bucket2, ups2, o2) := store_files bucket1 egress_id room_name rest in
                (bucket2, ups ++ ups2, o2)
            | _ => (bucket1, ups, o)
            end
      | None => store_files bucket egress_id room_name rest
      end
  end.

(** [process_recording_completion]; an empty [file_results] is only
    logged. *)
Definition process_recording_completion (bucket : Bucket) (egress_info : EgressInfo)
    : Bucket * list (option string * string) * outcome :=
  store_files bucket (egress_id egress_info) (room_name egress_info)
    (file_results egress_info).
End Webhook.

End Storage.

(* ===================================================================== *)
(** ** RecordingStorageManager._ensure_bucket *)
(* ===================================================================== *)

Module Buckets.

(** The one rule of [lifecycle_config]. *)
Record LifecycleRule := {
  rule_id : string;
  rule_status : string;
  expiration_days : Z;
  filter_prefix : string }.

Definition lifecycle_config : list LifecycleRule :=
  [ {| rule_id := "DeleteOldRecordings"; rule_status := "Enabled";
       expiration_days := 365; filter_prefix := "conversations/" |} ].

(** What the storage server knows of the bucket [call-recordings]:
    whether it exists, and its lifecycle rules if any were set. *)
Record BucketState := {
  bucket_exists : bool;
  bucket_lifecycle : option (list LifecycleRule) }.

(** How the three calls on the client end in one run. *)
Record bucket_env := {
  exists_ends : outcome;
  make_ends : outcome;
  lifecycle_ends : outcome }.

Inductive bucket_call :=
  | BucketExists
  | MakeBucket
  | SetBucketLifecycle.

(** [_ensure_bucket]: the whole body is in a [try] whose handler logs.
    A call that returns has its effect on the server. *)
Definition _ensure_bucket (env : bucket_env) (st : BucketState)
    : BucketState * list bucket_call * outcome :=
  match exists_ends env with
  | Returned =>
      if bucket_exists st then (st, [BucketExists], Returned)
      else
        match make_ends env with
        | Returned =>
            let st1 := {| bucket_exists := true; bucket_lifecycle := bucket_lifecycle st |} in
            match lifecycle_ends env with
            | Returned =>
                ({| bucket_exists := true; bucket_lifecycle := Some lifecycle_config |},
                 [BucketExists; MakeBucket; SetBucketLifecycle], Returned)
            | Raised => (st1, [BucketExists; MakeBucket; SetBucketLifecycle], Returned)
            | Blocked => (st1, [BucketExists; MakeBucket; SetBucketLifecycle], Blocked)
            end
        | Raised => (st, [BucketExists; MakeBucket], Returned)
        | Blocked => (st, [BucketExists; MakeBucket], Blocked)
        end
  | Raised => (st, [BucketExists], Returned)
  | Blocked => (st, [BucketExists], Blocked)
  end.

(** [RecordingStorageManager()] created several times, one after the
    other, against the same server. *)
Fixpoint ensure_all (envs : list bucket_env) (st : BucketState)
    : BucketState * list bucket_call :=
  match envs with
  | [] => (st, [])
  | env :: rest =>
      let '(st1, tr, o) := _ensure_bucket env st in
      match o with
      | Blocked => (st1, tr)
      | _ => let '(st2, tr2) := ensure_all rest st1 in (st2, tr ++ tr2)
      end
  end.

End Buckets.

(* ===================================================================== *)
(** ** States and inputs used in the examples *)
(* ===================================================================== *)

Definition ws_open : WebSocket := {| send_json := λ _, Sent |}.
Definition ws_closed : WebSocket := {| send_json := λ _, Disconnected |}.
Definition ws_broken : WebSocket := {| send_json := λ _, Failed |}.
Definition ws_stalled : WebSocket := {| send_json := λ _, Stalled |}.

Definition transcript (kind conversation_id text : string) : Message :=
  {[ "type" := VStr kind;
     "conversation_id" := VStr conversation_id;
     "text" := VStr text ]}.

Definition hello : Message := transcript "final_transcript" "room-42" "hello".
Definition interim : Message := transcript "interim_transcript" "room-42" "hel".

(** One admin, subscribed to [room-42], with the given connection. *)
Definition one_admin (ws : WebSocket) : AdminWebSocketManager :=
  {| admin_connections := {[ "admin-1" := ws ]};
     conversation_subscriptions := {[ "room-42" := {[ "admin-1" ]} ]} |}.

(** Two admins subscribed to [room-42]: the send of [admin-1] raises an
    exception that is neither [ConnectionClosed] nor
    [WebSocketDisconnect], the connection of [admin-2] is sound. *)
Definition two_admins : AdminWebSocketManager :=
  {| admin_connections := {[ "admin-1" := ws_broken; "admin-2" := ws_open ]};
     conversation_subscriptions := {[ "room-42" := {[ "admin-1"; "admin-2" ]} ]} |}.

(** Two connected admins; only [admin-1] is subscribed, to the
    conversation named by the empty string. *)
Definition empty_topic : AdminWebSocketManager :=
  {| admin_connections := {[ "admin-1" := ws_open; "admin-2" := ws_open ]};
     conversation_subscriptions := {[ "" := {[ "admin-1" ]} ]} |}.

(** Thirty-one seconds without activity, activity again, then thirty-one
    seconds of silence once more: sweeps number 0 and 3 alert. *)
Definition two_streaks : list sweep :=
  [ {| last_activity := 0; now_check := seconds 31; now_start := seconds 31; now_stamp := seconds 31 |};
    {| last_activity := 0; now_check := seconds 36; now_start := seconds 36; now_stamp := seconds 36 |};
    {| last_activity := seconds 40; now_check := seconds 41; now_start := seconds 41; now_stamp := seconds 41 |};
    {| last_activity := seconds 40; now_check := seconds 71; now_start := seconds 71; now_stamp := seconds 71 |};
    {| last_activity := seconds 40; now_check := seconds 76; now_start := seconds 76; now_stamp := seconds 76 |} ].

Definition ended_monitor : Monitor.ConversationMonitor :=
  {| Monitor.conversation_id := "room-42";
     Monitor.events := [];
     Monitor.metadata := {| Monitor.start_time := 0; Monitor.participants := [];
                            Monitor.status := "ended" |} |}.

Definition late_event : Monitor.ConversationEvent :=
  {| Monitor.timestamp := seconds 90; Monitor.speaker := "customer";
     Monitor.content := "hello"; Monitor.confidence := 1;
     Monitor.is_final := true; Monitor.event_type := "speech" |}.

(** A store and a fan-out that keep what they are given and return. *)
Definition keep_event (db : list (string * Monitor.ConversationEvent)) (cid : string)
    (e : Monitor.ConversationEvent) : list (string * Monitor.ConversationEvent) * outcome :=
  (db ++ [(cid, e)], Returned).

Definition show_event (seen : list Monitor.ConversationEvent)
    (e : Monitor.ConversationEvent) : list Monitor.ConversationEvent * outcome :=
  (seen ++ [e], Returned).

(** A store that raises. *)
Definition failing_store (db : list (string * Monitor.ConversationEvent)) (cid : string)
    (e : Monitor.ConversationEvent) : list (string * Monitor.ConversationEvent) * outcome :=
  (db, Raised).

(** An agent whose conversation [room-42] is watched by [admin-1]. *)
Definition watched_agent : Agent.EnhancedAgent :=
  {| Agent.conversation_id := "room-42"; Agent._egress_started := false;
     Agent.room_connected := Some true; Agent.monitor_status := "active";
     Agent.manager := one_admin ws_open; Agent.wire := [] |}.

Definition membership (k : Registry.kind) (c : string) (t : Z) : Registry.ConversationEvent :=
  {| Registry.conversationId := c; Registry.ev_kind := k;
     Registry.payload := VNone; Registry.timestamp := t |}.

Definition unchanged_publishers (e : Registry.ConversationEvent) (n : Z) : Z := n.

(** A speech event of the given type with one alternative, a monitor of
    [room-42] with an empty log, and the fields of an event as a dictionary. *)
Definition heard (kind : Speech.SpeechEventType) : Speech.SpeechEvent :=
  {| Speech.type := kind; Speech.speaker := "customer";
     Speech.alternatives := [ {| Speech.text := "hello"; Speech.confidence := 1 |} ] |}.

Definition fresh_monitor : Monitor.ConversationMonitor := Monitor.new_monitor "room-42" 0.

Definition fields_of (e : Monitor.ConversationEvent) : value :=
  VDict [("speaker", VStr (Monitor.speaker e)); ("content", VStr (Monitor.content e))].

(** A database that counts the operations applied to it, an operation
    that returns and one that raises; a commit that returns and an exit
    that lets an exception pass. *)
Definition op_ok (d : nat) : nat * outcome := (S d, Returned).
Definition op_fails (d : nat) : nat * outcome := (d, Raised).
Definition call_ok (d : nat) : nat * outcome := (d, Returned).
Definition exit_plain (raised : bool) (d : nat) : nat * Database.exit_end :=
  (d, Database.ExitReturned false).

(** A connection that comes back at the given reconnect: the world is
    the number of reconnects made so far. *)
Definition reconnect_at (k : nat) (w : nat) : nat * outcome :=
  (S w, if decide (w = k) then Returned else Raised).

(** Two admins of the update manager; the connection of [admin-1] is
    closed. *)
Definition update_listeners : gmap string Updates.Socket :=
  {[ "admin-1" := {| Updates.send := λ _, Updates.Closed |};
     "admin-2" := {| Updates.send := λ _, Updates.Sent |} ]}.

(** The same two admins when the send of [admin-2] raises something
    other than [ConnectionClosed]. *)
Definition update_listeners_failing : gmap string Updates.Socket :=
  {[ "admin-1" := {| Updates.send := λ _, Updates.Closed |};
     "admin-2" := {| Updates.send := λ _, Updates.OtherError |} ]}.

(** Three iterations of the audio loop: a chunk sent to an admin whose
    send raises, a fetch that raises, and no chunk. *)
Definition stream_ticks : list Streaming.tick :=
  [ {| Streaming.chunk := Streaming.Chunk "AAAA" "12:00";
       Streaming.manager := one_admin ws_broken; Streaming.others := [] |};
    {| Streaming.chunk := Streaming.ChunkRaised;
       Streaming.manager := one_admin ws_broken; Streaming.others := [] |};
    {| Streaming.chunk := Streaming.NoChunk;
       Streaming.manager := one_admin ws_broken; Streaming.others := [] |} ].

(** An agent in [room-42] that records nothing yet, an audio
    publication, and runs of the handler in which the egress starts
    with the given identifier, or fails to start. *)
Definition idle_agent : Egress.AgentRecording :=
  {| Egress.conversation_id := "room-42"; Egress.room := Some "room-42";
     Egress._egress_started := false; Egress._egress_id := None;
     Egress._recording_track_sid := None |}.

Definition audio_track (sid : string) : Egress.RemoteTrackPublication :=
  {| Egress.kind := Egress.AUDIO; Egress.sid := sid |}.

Definition egress_starts (egress_id : string) : Egress.track_env :=
  {| Egress.start_ends := Egress.Started egress_id; Egress.update_ends := Returned;
     Egress.monitoring_ends := Returned; Egress.notify_ends := Returned |}.

Definition egress_fails : Egress.track_env :=
  {| Egress.start_ends := Egress.StartRaised; Egress.update_ends := Returned;
     Egress.monitoring_ends := Returned; Egress.notify_ends := Returned |}.

(** A download that always answers 200 with an empty body, and the
    completion of the egress [EG_1] with two files. *)
Definition answers_200 (url : string) : Storage.download_end := Storage.Downloaded 200 [].

Definition two_files : Storage.EgressInfo :=
  {| Storage.egress_id := Some "EG_1"; Storage.room_name := Some "room-42";
     Storage.file_results :=
       [ {| Storage.download_url := Some "https://files/a.mp4"; Storage.size := Some 10 |};
         {| Storage.download_url := Some "https://files/b.mp4"; Storage.size := None |} ] |}.

(** A run in which every call on the storage client returns, and one in
    which setting the lifecycle raises. *)
Definition bucket_ok : Buckets.bucket_env :=
  {| Buckets.exists_ends := Returned; Buckets.make_ends := Returned;
     Buckets.lifecycle_ends := Returned |}.

Definition rule_fails : Buckets.bucket_env :=
  {| Buckets.exists_ends := Returned; Buckets.make_ends := Returned;
     Buckets.lifecycle_ends := Raised |}.

(* ===================================================================== *)
(** * Properties *)
(* ===================================================================== *)

(** ** remove_admin *)

Lemma without_idemp a o : without a (without a o) = without a o.
Proof.
  destruct o as [X|]; simpl; [|done].
  case_decide as H; simpl; [done|].
  case_decide as H'; [exfalso; apply H; set_solver|].
  f_equal. set_solver.
Qed.

Lemma discard_admin_lookup a k (subs : gmap string (gset string)) c :
  discard_admin a k subs !! c = if decide (c = k) then without a (subs !! k) else subs !! c.
Proof.
  unfold discard_admin, without. rewrite lookup_insert_eq. simpl.
  destruct (subs !! k) as [X|] eqn:Hk; simpl.
  - destruct (decide (X ∖ {[a]} = ∅)) as [He|He];
      destruct (decide (c = k)) as [->|Hne];
      rewrite ?lookup_delete_eq, ?lookup_insert_eq; try done.
    + by rewrite lookup_delete_ne, lookup_insert_ne.
    + by rewrite lookup_insert_ne.
  - destruct (decide (∅ ∖ {[a]} = (∅ : gset string))) as [He|He]; [|set_solver].
    destruct (decide (c = k)) as [->|Hne]; [by rewrite lookup_delete_eq|].
    by rewrite lookup_delete_ne, lookup_insert_ne.
Qed.

Lemma discard_all_lookup a ks (subs : gmap string (gset string)) c :
  foldl (λ subs k, discard_admin a k subs) subs ks !! c =
  if decide (c ∈ ks) then without a (subs !! c) else subs !! c.
Proof.
  revert subs. induction ks as [|k ks IH]; intros subs; simpl.
  - destruct (decide (c ∈ [])) as [H|H]; [by apply elem_of_nil in H|done].
  - rewrite IH, !discard_admin_lookup.
    destruct (decide (c ∈ ks)) as [Hin|Hin];
      destruct (decide (c ∈ k :: ks)) as [Hin'|Hin'];
      destruct (decide (c = k)) as [->|Hne];
      try done; try (exfalso; set_solver).
    apply without_idemp.
Qed.

Lemma remove_admin_subscriptions s a c :
  conversation_subscriptions (remove_admin s a) !! c =
  without a (conversation_subscriptions s !! c).
Proof.
  unfold remove_admin; simpl. rewrite discard_all_lookup.
  case_decide as H; [done|].
  rewrite elem_of_elements, elem_of_dom in H.
  destruct (conversation_subscriptions s !! c) eqn:E; [|done].
  exfalso; apply H; eauto.
Qed.

Lemma remove_admin_connections s a :
  admin_connections (remove_admin s a) = delete a (admin_connections s).
Proof.
  unfold remove_admin; simpl. case_decide as H; [done|].
  symmetry. apply delete_id.
  destruct (admin_connections s !! a) eqn:E; [|done].
  exfalso; apply H; eauto.
Qed.

Lemma manager_eq s1 s2 :
  admin_connections s1 = admin_connections s2 →
  conversation_subscriptions s1 = conversation_subscriptions s2 → s1 = s2.
Proof. destruct s1, s2; simpl; intros; by subst. Qed.

(** After [remove_admin] for every admin of [l]: the connections and the
    members of every subscription set. *)
Lemma remove_all_connections l s b :
  admin_connections (foldl remove_admin s l) !! b =
  if decide (b ∈ l) then None else admin_connections s !! b.
Proof.
  revert s. induction l as [|a l IH]; intros s; simpl.
  - destruct (decide (b ∈ [])) as [H|H]; [by apply elem_of_nil in H|done].
  - rewrite IH, remove_admin_connections.
    destruct (decide (b ∈ l)) as [Hin|Hin];
      destruct (decide (b ∈ a :: l)) as [Hin'|Hin'];
      try done; try (exfalso; set_solver).
    + destruct (decide (b = a)) as [->|Hne]; [by rewrite lookup_delete_eq|].
      exfalso; set_solver.
    + rewrite lookup_delete_ne; [done|]. set_solver.
Qed.

Lemma elem_of_without a b o :
  b ∈ default ∅ (without a o) ↔ b ∈ default ∅ o ∧ b ≠ a.
Proof.
  destruct o as [X|]; simpl; [|set_solver].
  case_decide; simpl; set_solver.
Qed.

Lemma remove_all_subscriptions l s c b :
  b ∈ default ∅ (conversation_subscriptions (foldl remove_admin s l) !! c) ↔
  b ∈ default ∅ (conversation_subscriptions s !! c) ∧ b ∉ l.
Proof.
  revert s. induction l as [|a l IH]; intros s; simpl.
  - set_solver.
  - rewrite IH, remove_admin_subscriptions, elem_of_without. set_solver.
Qed.

(** [remove_admin] leaves no empty subscription set behind. *)
Lemma remove_admin_no_empty s a c :
  conversation_subscriptions (remove_admin s a) !! c ≠ Some ∅.
Proof.
  rewrite remove_admin_subscriptions.
  destruct (conversation_subscriptions s !! c) as [X|]; simpl; [|done].
  case_decide; congruence.
Qed.

(** ** The send loop *)

Lemma completes_tail conns m b l : completes conns m (b :: l) → completes conns m l.
Proof. intros H a ws Hin. apply H. by right. Qed.

Lemma deliveries_to_cons a x tr :
  deliveries_to a (x :: tr) =
  if delivered a x then att_message x :: deliveries_to a tr else deliveries_to a tr.
Proof.
  unfold deliveries_to. rewrite filter_cons.
  destruct (delivered a x); case_decide; try done.
Qed.

Lemma deliveries_to_app a tr1 tr2 :
  deliveries_to a (tr1 ++ tr2) = deliveries_to a tr1 ++ deliveries_to a tr2.
Proof. unfold deliveries_to. by rewrite filter_app, fmap_app. Qed.

Lemma deliveries_to_none a tr :
  (∀ x, x ∈ tr → delivered a x = true → False) → deliveries_to a tr = [].
Proof.
  induction tr as [|y tr IH]; intros H; [done|].
  rewrite deliveries_to_cons.
  destruct (delivered a y) eqn:E; [exfalso; eapply H; [by left|done]|].
  apply IH. intros x Hx. apply H. by right.
Qed.

Lemma delivered_true a b m r :
  delivered a (Attempt b m r) = true ↔ b = a ∧ r = Sent.
Proof.
  unfold delivered; simpl. rewrite andb_true_iff, bool_decide_eq_true.
  destruct r; naive_solver.
Qed.

Lemma send_loop_completes conns m l :
  (send_loop conns m l).2 = Returned ↔ completes conns m l.
Proof.
  unfold completes. induction l as [|b l IH]; simpl.
  - split; [intros _ a ws H; by apply elem_of_nil in H|done].
  - destruct (conns !! b) as [ws|] eqn:Hb.
    + destruct (send_json ws m) eqn:Hs;
        try destruct (send_loop conns m l) as [[tr disc] o] eqn:E; simpl in *.
      * rewrite IH. split.
        -- intros H a ws' [->|Hin]%elem_of_cons Ha; [|by eauto].
           rewrite Hb in Ha. injection Ha as <-. by left.
        -- intros H a ws' Hin. apply H. by right.
      * rewrite IH. split.
        -- intros H a ws' [->|Hin]%elem_of_cons Ha; [|by eauto].
           rewrite Hb in Ha. injection Ha as <-. by right.
        -- intros H a ws' Hin. apply H. by right.
      * split; [done|]. intros H.
        destruct (H b ws) as [H'|H']; [by left|done|congruence..].
      * split; [done|]. intros H.
        destruct (H b ws) as [H'|H']; [by left|done|congruence..].
    + rewrite IH. split.
      * intros H a ws' [->|Hin]%elem_of_cons Ha; [congruence|by eauto].
      * intros H a ws' Hin. apply H. by right.
Qed.

(** The loop only uses connections of its targets, with the message it
    was given. *)
Lemma send_loop_attempt conns m l x :
  x ∈ (send_loop conns m l).1.1 →
  att_admin x ∈ l ∧ att_message x = m ∧
  ∃ ws, conns !! att_admin x = Some ws ∧ send_json ws m = att_result x.
Proof.
  induction l as [|b l IH]; simpl.
  - intros H; by apply elem_of_nil in H.
  - destruct (conns !! b) as [ws|] eqn:Hb.
    + destruct (send_json ws m) eqn:Hs;
        try destruct (send_loop conns m l) as [[tr disc] o] eqn:E; simpl in *;
        intros [->|Hin]%elem_of_cons; simpl;
        try (split; [by left|split; [done|by exists ws]]);
        try (destruct (IH Hin) as (?&?&?); split; [by right|done]);
        try (by apply elem_of_nil in Hin).
    + intros Hin. destruct (IH Hin) as (?&?&?); split; [by right|done].
Qed.

Lemma send_loop_not_target conns m l a :
  a ∉ l → deliveries_to a (send_loop conns m l).1.1 = [].
Proof.
  intros Hn. apply deliveries_to_none.
  intros [b m' r] Hx Hd.
  apply delivered_true in Hd as [-> ->].
  apply send_loop_attempt in Hx as [Hx _]. done.
Qed.

(** At most once, whatever the sends do. *)
Lemma send_loop_at_most_once conns m l a :
  NoDup l →
  deliveries_to a (send_loop conns m l).1.1 = [] ∨
  deliveries_to a (send_loop conns m l).1.1 = [m].
Proof.
  induction 1 as [|b l Hb Hnd IH]; simpl; [by left|].
  destruct (conns !! b) as [ws|] eqn:Hc; [|done].
  destruct (send_json ws m) eqn:Hs;
    try destruct (send_loop conns m l) as [[tr disc] o] eqn:E; simpl in *;
    rewrite ?deliveries_to_cons; unfold delivered; simpl;
    try (by destruct (bool_decide (b = a)); simpl; auto).
  destruct (bool_decide (b = a)) eqn:Hba; simpl; [|done].
  apply bool_decide_eq_true in Hba as ->.
  right. f_equal.
  pose proof (send_loop_not_target conns m l a Hb) as H'. by rewrite E in H'.
Qed.

(** The admins collected for cleanup are those whose send was a handled
    disconnect. *)
Lemma send_loop_disconnected conns m l b :
  b ∈ (send_loop conns m l).1.2 →
  b ∈ l ∧ ∃ ws, conns !! b = Some ws ∧ send_json ws m = Disconnected.
Proof.
  induction l as [|a l IH]; simpl.
  - intros H; by apply elem_of_nil in H.
  - destruct (conns !! a) as [ws|] eqn:Ha.
    + destruct (send_json ws m) eqn:Hs;
        try destruct (send_loop conns m l) as [[tr disc] o] eqn:E; simpl in *.
      * intros Hin. destruct (IH Hin) as [? ?]. split; [by right|done].
      * intros [->|Hin]%elem_of_cons; [split; [by left|by exists ws]|].
        destruct (IH Hin) as [? ?]. split; [by right|done].
      * intros H; by apply elem_of_nil in H.
      * intros H; by apply elem_of_nil in H.
    + intros Hin. destruct (IH Hin) as [? ?]. split; [by right|done].
Qed.

Lemma send_loop_collects conns m l b ws :
  completes conns m l →
  b ∈ l → conns !! b = Some ws → send_json ws m = Disconnected →
  b ∈ (send_loop conns m l).1.2.
Proof.
  induction l as [|a l IH]; intros Hc Hin Hb Hs.
  { by apply elem_of_nil in Hin. }
  pose proof (completes_tail _ _ _ _ Hc) as Hc'.
  simpl. destruct (decide (a = b)) as [->|Hne].
  - rewrite Hb, Hs.
    destruct (send_loop conns m l) as [[tr disc] o] eqn:E; simpl. by left.
  - apply elem_of_cons in Hin as [->|Hin]; [done|].
    specialize (IH Hc' Hin Hb Hs).
    destruct (conns !! a) as [wa|] eqn:Hca; [|done].
    destruct (Hc a wa) as [Hr|Hr]; [by left|done|..]; rewrite Hr;
      destruct (send_loop conns m l) as [[tr disc] o] eqn:E; simpl in *;
      [done|by right].
Qed.

(** ** broadcast_to_admins *)

Lemma broadcast_trace s m :
  (broadcast_to_admins s m).1.2 =
  (send_loop (admin_connections s) m (elements (targets s m))).1.1.
Proof.
  unfold broadcast_to_admins, targets.
  destruct (target_admins s m) as [T|]; simpl; [|by rewrite elements_empty].
  destruct (send_loop _ _ _) as [[tr disc] o]. by destruct o.
Qed.

Lemma broadcast_outcome s m :
  (broadcast_to_admins s m).2 =
  match target_admins s m with
  | Some _ => (send_loop (admin_connections s) m (elements (targets s m))).2
  | None => Raised
  end.
Proof.
  unfold broadcast_to_admins, targets.
  destruct (target_admins s m) as [T|]; simpl; [|done].
  destruct (send_loop _ _ _) as [[tr disc] o]. by destruct o.
Qed.

Lemma broadcast_state s m :
  (broadcast_to_admins s m).1.1 =
  match (send_loop (admin_connections s) m (elements (targets s m))).2 with
  | Returned =>
      foldl remove_admin s
        (send_loop (admin_connections s) m (elements (targets s m))).1.2
  | _ => s
  end.
Proof.
  unfold broadcast_to_admins, targets.
  destruct (target_admins s m) as [T|]; simpl; [|by rewrite elements_empty].
  destruct (send_loop _ _ _) as [[tr disc] o]. by destruct o.
Qed.

Lemma broadcast_returns s m :
  (broadcast_to_admins s m).2 = Returned ↔ contained s m.
Proof.
  rewrite broadcast_outcome. unfold contained.
  destruct (target_admins s m) as [T|] eqn:E.
  - rewrite send_loop_completes. split; [by split|by intros [_ ?]].
  - split; [done|]. by intros [[? ?] _].
Qed.

(** A subscriber of the conversation a message names is a target, and so
    is, whatever the message, a connected subscriber. *)
Lemma subscriber_is_target s m c a :
  dict_get m "conversation_id" = VStr c →
  a ∈ default ∅ (conversation_subscriptions s !! c) →
  is_Some (admin_connections s !! a) →
  a ∈ targets s m.
Proof.
  intros Hc Hsub Hconn. unfold targets, target_admins. rewrite Hc.
  destruct (truthy (VStr c)); simpl; [done|]. by apply elem_of_dom.
Qed.

Lemma broadcast_connections_sub s m a ws :
  admin_connections (broadcast_to_admins s m).1.1 !! a = Some ws →
  admin_connections s !! a = Some ws.
Proof.
  rewrite broadcast_state.
  destruct (send_loop _ _ _) as [[tr disc] o]; simpl.
  destruct o; try done.
  rewrite remove_all_connections. by case_decide.
Qed.

Lemma broadcast_at_most_once s m a :
  deliveries_to a (broadcast_to_admins s m).1.2 = [] ∨
  deliveries_to a (broadcast_to_admins s m).1.2 = [m].
Proof. rewrite broadcast_trace. apply send_loop_at_most_once, NoDup_elements. Qed.

(** ** Sequences of publish calls *)

Lemma publish_all_sublist s a es :
  deliveries_to a (publish_all s es).2 `sublist_of` es.
Proof.
  revert s. induction es as [|m es IH]; intros s; simpl; [done|].
  destruct (broadcast_to_admins s m) as [[s1 tr] o] eqn:E.
  pose proof (broadcast_at_most_once s m a) as H. rewrite E in H; simpl in H.
  assert (deliveries_to a tr ++ deliveries_to a (publish_all s1 es).2
            `sublist_of` m :: es) as Hgen.
  { destruct H as [-> | ->]; simpl.
    - apply sublist_cons, IH.
    - apply sublist_skip, IH. }
  destruct o; simpl.
  - destruct (publish_all s1 es) as [s2 tr2]; simpl in *.
    by rewrite deliveries_to_app.
  - destruct (publish_all s1 es) as [s2 tr2]; simpl in *.
    by rewrite deliveries_to_app.
  - destruct H as [-> | ->]; [apply sublist_nil_l|].
    apply sublist_skip, sublist_nil_l.
Qed.

(** ** Every reachable target is handed the message *)

Lemma attempts_to_cons a x tr :
  attempts_to a (x :: tr) =
  if decide (att_admin x = a) then x :: attempts_to a tr else attempts_to a tr.
Proof. unfold attempts_to. by rewrite filter_cons. Qed.

Lemma send_loop_no_attempt conns m l a :
  a ∉ l → attempts_to a (send_loop conns m l).1.1 = [].
Proof.
  intros Hn.
  assert (∀ tr, (∀ x, x ∈ tr → att_admin x ≠ a) → attempts_to a tr = []) as Hgen.
  { induction tr as [|y tr IH]; intros H; [done|].
    rewrite attempts_to_cons, decide_False by (apply H; by left).
    apply IH. intros x Hx. apply H. by right. }
  apply Hgen. intros x Hx <-.
  apply send_loop_attempt in Hx as [Hx _]. done.
Qed.

Lemma send_loop_attempts conns m l a ws :
  NoDup l → completes conns m l →
  a ∈ l → conns !! a = Some ws →
  attempts_to a (send_loop conns m l).1.1 = [Attempt a m (send_json ws m)].
Proof.
  intros Hnd. induction Hnd as [|b l Hb Hnd IH]; intros Hc Hin Ha.
  { by apply elem_of_nil in Hin. }
  pose proof (completes_tail _ _ _ _ Hc) as Hc'.
  simpl. destruct (decide (b = a)) as [->|Hne].
  - rewrite Ha.
    pose proof (send_loop_no_attempt conns m l a Hb) as H'.
    destruct (Hc a ws) as [Hr|Hr]; [by left|done|..]; rewrite Hr;
      destruct (send_loop conns m l) as [[tr disc] o] eqn:E; simpl in *;
      rewrite attempts_to_cons; simpl; rewrite decide_True by done;
      by rewrite H'.
  - apply elem_of_cons in Hin as [->|Hin]; [done|].
    specialize (IH Hc' Hin Ha).
    destruct (conns !! b) as [wb|] eqn:Hcb; [|done].
    destruct (Hc b wb) as [Hr|Hr]; [by left|done|..]; rewrite Hr;
      destruct (send_loop conns m l) as [[tr disc] o] eqn:E; simpl in *;
      rewrite attempts_to_cons; simpl; by rewrite decide_False.
Qed.

(** When the call returns, every target with a connection was sent the
    message once. *)
Lemma broadcast_attempts s m a ws :
  (broadcast_to_admins s m).2 = Returned →
  a ∈ targets s m → admin_connections s !! a = Some ws →
  attempts_to a (broadcast_to_admins s m).1.2 = [Attempt a m (send_json ws m)].
Proof.
  intros Hret Hin Ha. rewrite broadcast_trace.
  apply send_loop_attempts; try done.
  - apply NoDup_elements.
  - by apply broadcast_returns.
  - by apply elem_of_elements.
Qed.

(** ** broadcast_audio_chunk *)

Lemma audio_loop_never_raises conns m l : (audio_loop conns m l).2 ≠ Raised.
Proof.
  induction l as [|b l IH]; simpl; [done|].
  destruct (conns !! b) as [ws|]; [|done].
  destruct (send_json ws m); try done;
    by destruct (audio_loop conns m l) as [tr o].
Qed.

Lemma audio_loop_returns conns m l :
  (audio_loop conns m l).2 = Returned ↔
  ∀ a ws, a ∈ l → conns !! a = Some ws → send_json ws m ≠ Stalled.
Proof.
  induction l as [|b l IH]; simpl.
  - split; [intros _ a ws H; by apply elem_of_nil in H|done].
  - destruct (conns !! b) as [ws|] eqn:Hb.
    + destruct (send_json ws m) eqn:Hs;
        try destruct (audio_loop conns m l) as [tr o] eqn:E; simpl in *;
        try (rewrite IH; split;
             [intros H a ws' [->|Hin]%elem_of_cons Ha; [|by eauto];
              rewrite Hb in Ha; injection Ha as <-; congruence
             |intros H a ws' Hin; apply H; by right]).
      split; [done|]. intros H. exfalso. by apply (H b ws); [left|..].
    + rewrite IH. split.
      * intros H a ws' [->|Hin]%elem_of_cons Ha; [congruence|by eauto].
      * intros H a ws' Hin. apply H. by right.
Qed.

(** ** Reachable states *)

Lemma remove_all_no_empty l s :
  (∀ c, conversation_subscriptions s !! c ≠ Some ∅) →
  ∀ c, conversation_subscriptions (foldl remove_admin s l) !! c ≠ Some ∅.
Proof.
  revert s. induction l as [|a l IH]; intros s H; [done|].
  simpl. apply IH. intros c. apply remove_admin_no_empty.
Qed.

(** No method leaves an empty subscription set in the manager. *)
Lemma reachable_no_empty s :
  reachable s → ∀ c, conversation_subscriptions s !! c ≠ Some ∅.
Proof.
  induction 1 as [|s a ws acc v _ IH|s a c h _ IH|s m _ IH|s a _ IH]; intros c'.
  - simpl. by rewrite lookup_empty.
  - unfold register_admin. by destruct acc; simpl.
  - assert (conversation_subscriptions (subscribe_to_conversation s a c h).1.1 =
            <[c := default ∅ (conversation_subscriptions s !! c) ∪ {[a]}]>
              (conversation_subscriptions s)) as ->.
    { unfold subscribe_to_conversation. by destruct (admin_connections s !! a). }
    destruct (decide (c = c')) as [<-|Hne].
    + rewrite lookup_insert_eq. intros [= H]; set_solver.
    + by rewrite lookup_insert_ne.
  - rewrite broadcast_state.
    destruct (send_loop _ _ _) as [[tr disc] o]; simpl.
    destruct o; try done. by apply remove_all_no_empty.
  - apply remove_admin_no_empty.
Qed.

Lemma one_admin_reachable ws : reachable (one_admin ws).
Proof.
  assert ((subscribe_to_conversation
             (register_admin new_manager "admin-1" ws Returned VNone).1.1
             "admin-1" "room-42" VNone).1.1 = one_admin ws) as <-.
  { unfold subscribe_to_conversation, register_admin; simpl.
    rewrite lookup_insert_eq; simpl. apply manager_eq; simpl.
    - by rewrite insert_empty.
    - rewrite lookup_empty; simpl. rewrite insert_empty. f_equal; set_solver. }
  apply reach_subscribe, reach_register, reach_new.
Qed.

(** ** C1: delivery of one event, and order of several *)


(** ** C10: who is targeted *)




(** ** C5: a failing connection *)

(** C5 is not what the code does when the send on an admin's channel
    raises an exception that is neither [ConnectionClosed] nor
    [WebSocketDisconnect]. With [admin-1], whose send raises such an
    exception, and [admin-2], whose connection is sound, both subscribed
    to [room-42], a publish on [room-42] raises to the publisher and
    leaves the manager as it was: [admin-1] keeps its connection and its
    subscription. When the loop comes to [admin-1] first, [admin-2] is
    not sent the event at all; when it comes to [admin-2] first, the
    publisher gets the exception all the same. [broadcast_audio_chunk],
    in the same state, returns and [admin-2] is sent the chunk: its
    [except] handles every exception. *)
Theorem unhandled_send_error_reaches_publisher :
  (broadcast_to_admins two_admins hello).2 = Raised ∧
  (broadcast_to_admins two_admins hello).1.1 = two_admins ∧
  admin_connections (broadcast_to_admins two_admins hello).1.1 !! "admin-1" = Some ws_broken ∧
  "admin-1" ∈ default ∅ (conversation_subscriptions
                            (broadcast_to_admins two_admins hello).1.1 !! "room-42") ∧
  send_loop (admin_connections two_admins) hello ["admin-1"; "admin-2"]
  = ([Attempt "admin-1" hello Failed], [], Raised) ∧
  send_loop (admin_connections two_admins) hello ["admin-2"; "admin-1"]
  = ([Attempt "admin-2" hello Sent; Attempt "admin-1" hello Failed], [], Raised) ∧
  (broadcast_audio_chunk two_admins "room-42" "AAAA" "12:00").2 = Returned ∧
  deliveries_to "admin-2" (broadcast_audio_chunk two_admins "room-42" "AAAA" "12:00").1
  = [audio_chunk_message "room-42" "AAAA" "12:00"].
Proof.
  split; [vm_compute; reflexivity|]. split; [vm_compute; reflexivity|].
  split; [vm_compute; reflexivity|]. split; [vm_compute; reflexivity|].
  split; [vm_compute; reflexivity|]. split; [vm_compute; reflexivity|].
  split; vm_compute; reflexivity.
Qed.

(** ** C6: no buffer between the publisher and a subscriber *)




(** ** C8: removing an admin twice *)

(** C8: [remove_admin] is the only removal of subscriptions the manager
    has and takes the admin as its handle. It is a total function (no
    exception: the [del] is guarded and [discard] accepts a missing
    element); removing the same admin a second time leaves the state of
    the first removal unchanged; and in every state the manager can get
    into, removing an admin that has no connection and no subscription
    (one already removed) changes nothing. *)
Theorem remove_admin_idempotent (s : AdminWebSocketManager) (a : string) :
  remove_admin (remove_admin s a) a = remove_admin s a ∧
  (reachable s →
   admin_connections s !! a = None →
   (∀ c, a ∉ default ∅ (conversation_subscriptions s !! c)) →
   remove_admin s a = s).
Proof.
  split.
  - apply manager_eq.
    + rewrite !remove_admin_connections. apply delete_id, lookup_delete_eq.
    + apply map_eq; intros c.
      rewrite !remove_admin_subscriptions. apply without_idemp.
  - intros Hreach Hconn Hsub. apply manager_eq.
    + rewrite remove_admin_connections. by apply delete_id.
    + apply map_eq; intros c. rewrite remove_admin_subscriptions.
      specialize (Hsub c). pose proof (reachable_no_empty s Hreach c) as Hne.
      destruct (conversation_subscriptions s !! c) as [X|]; simpl in *; [|done].
      assert (X ∖ {[a]} = X) as -> by set_solver.
      case_decide; [congruence|done].
Qed.

Lemma remove_admin_idempotent_witness :
  reachable (one_admin ws_open) ∧
  admin_connections (one_admin ws_open) !! "admin-9" = None ∧
  remove_admin (one_admin ws_open) "admin-9" = one_admin ws_open.
Proof.
  split; [apply one_admin_reachable|]. split; [reflexivity|].
  apply (remove_admin_idempotent (one_admin ws_open) "admin-9");
    [apply one_admin_reachable|reflexivity|].
  intros c. unfold one_admin; simpl.
  destruct (decide (c = "room-42")) as [->|Hne].
  - rewrite lookup_singleton_eq; simpl. set_solver.
  - rewrite lookup_singleton_ne by done. set_solver.
Defined.

(** ** C3: the silence alert of the health loop *)

Lemma health_sweep_flag cid ss mgr t :
  is_Some (health_sweep cid ss mgr t).1.1 ↔ over_threshold t = true.
Proof.
  unfold health_sweep, over_threshold.
  destruct (silence_threshold <? now_check t - last_activity t) eqn:E.
  - destruct ss as [z|]; simpl.
    + split; [done|]. by eexists.
    + destruct (broadcast_to_admins mgr _) as [[mgr1 tr] o]; simpl.
      split; [done|]. by eexists.
  - simpl. split; [by intros [? ?]|done].
Qed.

Lemma health_sweep_alert cid ss mgr t :
  sw_alert (health_sweep cid ss mgr t).2 =
  if over_threshold t
  then match ss with
       | None => Some (silence_alert cid (now_check t - last_activity t) (now_stamp t))
       | Some _ => None
       end
  else None.
Proof.
  unfold health_sweep, over_threshold.
  destruct (silence_threshold <? now_check t - last_activity t) eqn:E; [|done].
  destruct ss as [z|]; simpl; [done|].
  by destruct (broadcast_to_admins mgr _) as [[mgr1 tr] o].
Qed.

Lemma health_sweep_end cid ss mgr t :
  match sw_end (health_sweep cid ss mgr t).2 with
  | Slept d => d = sweep_interval
  | _ => is_Some (sw_alert (health_sweep cid ss mgr t).2)
  end.
Proof.
  unfold health_sweep.
  destruct (silence_threshold <? now_check t - last_activity t) eqn:E; [|done].
  destruct ss as [z|]; simpl; [done|].
  destruct (broadcast_to_admins mgr _) as [[mgr1 tr] o]; simpl.
  destruct o; simpl; try done; by eexists.
Qed.

Lemma health_loop_cons cid ss mgr t ts :
  health_loop cid ss mgr (t :: ts) =
  (health_sweep cid ss mgr t).2 ::
  match sw_end (health_sweep cid ss mgr t).2 with
  | Hung => []
  | _ => health_loop cid (health_sweep cid ss mgr t).1.1 (health_sweep cid ss mgr t).1.2 ts
  end.
Proof.
  simpl. destruct (health_sweep cid ss mgr t) as [[ss1 mgr1] lg]; simpl.
  by destruct (sw_end lg).
Qed.

Lemma health_loop_lookup_succ cid ss mgr t ts i lg :
  health_loop cid ss mgr (t :: ts) !! S i = Some lg →
  health_loop cid (health_sweep cid ss mgr t).1.1 (health_sweep cid ss mgr t).1.2 ts !! i
    = Some lg.
Proof.
  rewrite health_loop_cons; simpl.
  by destruct (sw_end (health_sweep cid ss mgr t).2).
Qed.

(** The iteration [i] publishes an alert exactly when it finds the
    silence over the threshold and the iteration before it did not (for
    the first iteration: the flag was not set). *)
Lemma health_loop_alert cid ss mgr ts i lg :
  health_loop cid ss mgr ts !! i = Some lg →
  (∃ t, ts !! i = Some t ∧
        sw_alert lg =
        if over_threshold t &&
           match i with
           | O => bool_decide (ss = None)
           | S j => bool_decide ((over_threshold <$> ts !! j) = Some false)
           end
        then Some (silence_alert cid (now_check t - last_activity t) (now_stamp t))
        else None) ∧
  match sw_end lg with
  | Slept d => d = sweep_interval
  | _ => is_Some (sw_alert lg)
  end.
Proof.
  revert ss mgr i. induction ts as [|t ts IH]; intros ss mgr i Hi; [done|].
  destruct i as [|i].
  - rewrite health_loop_cons in Hi. injection Hi as <-.
    split; [|apply health_sweep_end].
    exists t. split; [done|]. rewrite health_sweep_alert.
    destruct (over_threshold t); [|done]. by destruct ss.
  - apply health_loop_lookup_succ in Hi.
    pose proof (health_sweep_flag cid ss mgr t) as Hflag.
    destruct (IH _ _ _ Hi) as [(t' & Ht' & Ha) Hend].
    split; [|done]. exists t'. split; [done|]. rewrite Ha.
    destruct (over_threshold t'); [|done]. simpl.
    destruct i as [|i]; [|done]. simpl.
    destruct (health_sweep cid ss mgr t).1.1 as [z|].
    + assert (over_threshold t = true) as -> by (apply Hflag; by eexists).
      by rewrite !bool_decide_eq_false_2.
    + destruct (over_threshold t) eqn:Eo.
      * destruct (proj2 Hflag eq_refl) as [? ?]; done.
      * by rewrite !bool_decide_eq_true_2.
Qed.

Lemma health_loop_length cid ss mgr ts :
  (∀ lg, lg ∈ health_loop cid ss mgr ts → sw_end lg ≠ Hung) →
  length (health_loop cid ss mgr ts) = length ts.
Proof.
  revert ss mgr. induction ts as [|t ts IH]; intros ss mgr H; [done|].
  rewrite health_loop_cons in *. simpl. f_equal.
  destruct (sw_end (health_sweep cid ss mgr t).2) eqn:E.
  - apply IH. intros lg Hlg. apply H. by right.
  - apply IH. intros lg Hlg. apply H. by right.
  - exfalso. by apply (H (health_sweep cid ss mgr t).2); [left|].
Qed.

(** What the loop does at each iteration, on any readings. *)
Lemma alert_at_streak_start (cid : string) (mgr : AdminWebSocketManager)
    (ts : list sweep) (i : nat) (lg : sweep_log) :
  monitor_conversation_health cid mgr ts !! i = Some lg →
  (is_Some (sw_alert lg) ↔ streak_starts_at ts i) ∧
  (∀ m, sw_alert lg = Some m →
        ∃ t, ts !! i = Some t ∧
             m = silence_alert cid (now_check t - last_activity t) (now_stamp t) ∧
             silence_threshold < now_check t - last_activity t) ∧
  (sw_alert lg = None → sw_end lg = Slept sweep_interval) ∧
  (∀ d, sw_end lg = Slept d → d = seconds 5) ∧
  (∀ ss mgr' t, is_Some (health_sweep cid ss mgr' t).1.1 ↔
                seconds 30 < now_check t - last_activity t) ∧
  ((∀ lg', lg' ∈ monitor_conversation_health cid mgr ts → sw_end lg' ≠ Hung) →
   length (monitor_conversation_health cid mgr ts) = length ts).
Proof.
  unfold monitor_conversation_health. intros Hi.
  destruct (health_loop_alert _ _ _ _ _ _ Hi) as [(t & Ht & Ha) Hend].
  assert ((if over_threshold t &&
              match i with
              | O => bool_decide (@None Z = None)
              | S j => bool_decide ((over_threshold <$> ts !! j) = Some false)
              end then true else false) = true ↔ streak_starts_at ts i) as Hs.
  { unfold streak_starts_at. rewrite Ht; simpl.
    destruct (over_threshold t); simpl; [|split; [done|by intros [[=] _]]].
    destruct i as [|i]; simpl.
    - split; [by intros _; split; [|left]|done].
    - case_bool_decide as Hb; split; try done.
      + intros _. split; [done|by right].
      + intros [_ [?|?]]; done. }
  split; [|split; [|split; [|split; [|split]]]].
  - rewrite <- Hs, Ha.
    destruct (over_threshold t && _); split; try done; by intros [? ?].
  - intros m Hm. exists t. split; [done|]. rewrite Ha in Hm.
    destruct (over_threshold t) eqn:Eo; simpl in Hm; [|done].
    split; [by destruct (match i with O => _ | S _ => _ end); simplify_eq|].
    unfold over_threshold in Eo. by apply Z.ltb_lt in Eo.
  - intros Hn. destruct (sw_end lg); [by subst|..]; rewrite Hn in Hend;
      by destruct Hend.
  - intros d Hd. by rewrite Hd in Hend.
  - intros ss mgr' t'. rewrite health_sweep_flag. unfold over_threshold.
    apply Z.ltb_lt.
  - apply health_loop_length.
Qed.

(** *** Silences in real time *)

Lemma increasing_le l i j x y :
  increasing l → (i ≤ j)%nat → l !! i = Some x → l !! j = Some y → x ≤ y.
Proof.
  intros Hinc Hij Hx. revert y. induction Hij as [|j Hij IH]; intros y Hy.
  - rewrite Hx in Hy. injection Hy as ->. lia.
  - destruct (l !! j) as [z|] eqn:Hz.
    + specialize (IH z eq_refl). pose proof (Hinc j z y Hz Hy). lia.
    + apply lookup_ge_None in Hz. apply lookup_lt_Some in Hy. lia.
Qed.

Lemma last_activity_time_ge start acts now a :
  a ∈ acts → a ≤ now → a ≤ last_activity_time start acts now.
Proof.
  unfold last_activity_time. induction acts as [|b acts IH]; intros Hin Ha.
  { by apply elem_of_nil in Hin. }
  rewrite filter_cons. apply elem_of_cons in Hin as [->|Hin].
  - rewrite decide_True by done. simpl. lia.
  - specialize (IH Hin Ha). case_decide; simpl; lia.
Qed.

Lemma last_activity_time_start start acts now :
  start ≤ last_activity_time start acts now.
Proof.
  unfold last_activity_time. induction acts as [|b acts IH]; [simpl; lia|].
  rewrite filter_cons. case_decide; simpl; lia.
Qed.

Lemma last_activity_time_is start acts now :
  last_activity_time start acts now = start ∨
  (last_activity_time start acts now ∈ acts ∧ last_activity_time start acts now ≤ now).
Proof.
  unfold last_activity_time. induction acts as [|b acts IH]; [by left|].
  rewrite filter_cons. case_decide as Hb; simpl.
  - destruct (Z.max_spec b (foldr Z.max start (filter (λ a, a ≤ now) acts)))
      as [[_ ->]|[_ ->]].
    + destruct IH as [IH|[IH1 IH2]]; [by left|right]. split; [by right|done].
    + right. split; [by left|done].
  - destruct IH as [IH|[IH1 IH2]]; [by left|right]. split; [by right|done].
Qed.

Lemma last_activity_time_mono start acts now now' :
  now ≤ now' → last_activity_time start acts now ≤ last_activity_time start acts now'.
Proof.
  intros H. destruct (last_activity_time_is start acts now) as [->|[Hin Hle]].
  - apply last_activity_time_start.
  - apply last_activity_time_ge; [done|lia].
Qed.

(** No activity between two instants: the same last activity at both. *)
Lemma last_activity_time_same start acts now now' :
  now ≤ now' → last_activity_time start acts now' ≤ now →
  last_activity_time start acts now = last_activity_time start acts now'.
Proof.
  intros H Hle. pose proof (last_activity_time_mono start acts now now' H) as Hm.
  destruct (last_activity_time_is start acts now') as [Hs|[Hin _]].
  - pose proof (last_activity_time_start start acts now). lia.
  - pose proof (last_activity_time_ge start acts now _ Hin Hle). lia.
Qed.

Lemma sweeps_lookup start acts (nows : list Z) (i : nat) :
  (sweep_at start acts <$> nows) !! i = sweep_at start acts <$> nows !! i.
Proof. apply list_lookup_fmap. Qed.

Lemma over_threshold_at start acts now :
  over_threshold (sweep_at start acts now) = true ↔
  silence_threshold < now - last_activity_time start acts now.
Proof. unfold over_threshold; simpl. apply Z.ltb_lt. Qed.

Lemma under_threshold_at start acts now :
  over_threshold (sweep_at start acts now) = false ↔
  now - last_activity_time start acts now ≤ silence_threshold.
Proof. unfold over_threshold; simpl. rewrite Z.ltb_ge. done. Qed.

(** Two iterations that start a streak of iterations belong to different
    silences: the activity before the later one is more recent. *)
Lemma streak_starts_differ start acts nows i j x y :
  increasing nows → (i < j)%nat →
  nows !! i = Some x → nows !! j = Some y →
  streak_starts_at (sweep_at start acts <$> nows) i →
  streak_starts_at (sweep_at start acts <$> nows) j →
  last_activity_time start acts x < last_activity_time start acts y.
Proof.
  intros Hinc Hij Hx Hy [Hi _] [_ Hj].
  destruct Hj as [->|Hj]; [lia|].
  rewrite sweeps_lookup in Hi, Hj. rewrite Hx in Hi. simpl in Hi.
  destruct (nows !! pred j) as [z|] eqn:Hz; [|done]. simpl in Hj.
  injection Hi as Hi. injection Hj as Hj.
  apply over_threshold_at in Hi. apply under_threshold_at in Hj.
  pose proof (increasing_le nows i (pred j) x z Hinc ltac:(lia) Hx Hz).
  pose proof (increasing_le nows (pred j) j z y Hinc ltac:(lia) Hz Hy).
  pose proof (last_activity_time_mono start acts z y ltac:(lia)).
  lia.
Qed.

(** With iterations at most the threshold apart, an iteration that finds
    the silence over the threshold is in the streak of iterations that
    started for this same silence. *)
Lemma streak_start_exists start acts nows k y :
  increasing nows → gaps_within silence_threshold nows →
  nows !! k = Some y → over_threshold (sweep_at start acts y) = true →
  ∃ i x, (i ≤ k)%nat ∧ nows !! i = Some x ∧
         streak_starts_at (sweep_at start acts <$> nows) i ∧
         last_activity_time start acts x = last_activity_time start acts y.
Proof.
  intros Hinc Hgap. revert y. induction k as [|k IH]; intros y Hy Ho.
  - exists 0%nat, y. split; [done|]. split; [done|]. split; [|done].
    split; [|by left]. by rewrite sweeps_lookup, Hy; simpl; rewrite Ho.
  - destruct (nows !! k) as [z|] eqn:Hz.
    2:{ apply lookup_ge_None in Hz. apply lookup_lt_Some in Hy. lia. }
    destruct (over_threshold (sweep_at start acts z)) eqn:Hoz.
    + destruct (IH z eq_refl Hoz) as (i & x & Hik & Hx & Hst & Hl).
      exists i, x. split; [lia|]. split; [done|]. split; [done|].
      rewrite Hl. apply last_activity_time_same.
      * by apply (Hinc k).
      * apply over_threshold_at in Ho. pose proof (Hgap k z y Hz Hy). lia.
    + exists (S k), y. split; [done|]. split; [done|]. split; [|done].
      split; [by rewrite sweeps_lookup, Hy; simpl; rewrite Ho|].
      right. simpl. by rewrite sweeps_lookup, Hz; simpl; rewrite Hoz.
Qed.




Example two_streaks_two_alerts :
  (λ lg, bool_decide (is_Some (sw_alert lg))) <$>
    monitor_conversation_health "room-42" (one_admin ws_open) two_streaks
  = [true; false; false; true; false].
Proof. vm_compute; reflexivity. Qed.

(** ** C4: the admin token *)

(** C4, as stated, fails: for the conversation of a monitor whose status
    is [ended] the token is issued all the same; no call ends with
    [ConversationNotFound]. *)
Lemma token_issued_without_active_conversation :
  Monitor.status (Monitor.metadata ended_monitor) = "ended" ∧
  Auth.generate_admin_token "key" "secret" (Monitor.conversation_id ended_monitor) "7" =
    Auth.Ok (Auth.to_jwt
      {| Auth.api_key := "key"; Auth.api_secret := "secret";
         Auth.identity := "admin_7"; Auth.name := None;
         Auth.grants := Some {| Auth.room_join := true; Auth.room := "room-42";
                                Auth.can_subscribe := true; Auth.can_publish := false;
                                Auth.hidden := true |};
         Auth.metadata := None |}) ∧
  Auth.setup_admin_monitoring "key" "secret" "7" (Monitor.conversation_id ended_monitor)
    ≠ Auth.Err Auth.ConversationNotFound.
Proof. split; [done|]. split; [reflexivity|discriminate]. Qed.

(** C4 (amended): every call of [generate_admin_token] and of
    [setup_admin_monitoring] returns a token, whatever the state of the
    conversation (neither consults it, neither raises
    [ConversationNotFound]); the token carries the identity
    ["admin_" + admin_id] and a grant that allows joining exactly the
    named room and subscribing, forbids publishing, and is hidden. *)
Theorem admin_token_is_hidden_listener (API_KEY API_SECRET room_name admin_id : string) :
  (∃ j, Auth.generate_admin_token API_KEY API_SECRET room_name admin_id = Auth.Ok j ∧
        Auth.hidden_listener_grant room_name j ∧
        Auth.identity (Auth.jwt_claims j) = "admin_" +:+ admin_id) ∧
  (∃ j, Auth.setup_admin_monitoring API_KEY API_SECRET admin_id room_name = Auth.Ok j ∧
        Auth.hidden_listener_grant room_name j ∧
        Auth.identity (Auth.jwt_claims j) = "admin_" +:+ admin_id).
Proof.
  split.
  - eexists. split; [reflexivity|]. split; [|reflexivity].
    eexists. split; [reflexivity|]. by repeat split.
  - eexists. split; [reflexivity|]. split; [|reflexivity].
    eexists. split; [reflexivity|]. by repeat split.
Qed.

(** ** C7: log_event and the status of the conversation *)

(** C7, as stated, fails: an event logged on a monitor whose status is
    [ended] is appended, stored and broadcast like any other; and when the
    store raises, the caller of [log_event] gets the exception. *)
Lemma event_on_ended_conversation_is_logged :
  Monitor.status (Monitor.metadata ended_monitor) = "ended" ∧
  Monitor.log_event keep_event show_event ended_monitor [] [] late_event =
    ({| Monitor.conversation_id := "room-42";
        Monitor.events := [late_event];
        Monitor.metadata := Monitor.metadata ended_monitor |},
     [("room-42", late_event)], [late_event], Returned) ∧
  (Monitor.log_event failing_store show_event ended_monitor [] [] late_event).2 = Raised.
Proof. by repeat split. Qed.

(** C7 (amended): [log_event] does not look at the status of the
    conversation. For every event and every monitor, also one whose
    status is [ended], the event is appended to the event list and handed
    to the store, and, when the store returns, to the broadcast; the
    metadata are unchanged; and the call ends for its caller as the store
    does when that raised or hung, else as the broadcast does. *)
Theorem log_event_ignores_status {Db Admins : Type}
    (store_event : Db → string → Monitor.ConversationEvent → Db * outcome)
    (broadcast_event : Admins → Monitor.ConversationEvent → Admins * outcome)
    (m : Monitor.ConversationMonitor) (db : Db) (admins : Admins)
    (event : Monitor.ConversationEvent) :
  let r := Monitor.log_event store_event broadcast_event m db admins event in
  let stored := store_event db (Monitor.conversation_id m) event in
  Monitor.events r.1.1.1 = Monitor.events m ++ [event] ∧
  Monitor.metadata r.1.1.1 = Monitor.metadata m ∧
  Monitor.conversation_id r.1.1.1 = Monitor.conversation_id m ∧
  r.1.1.2 = stored.1 ∧
  (stored.2 = Returned →
   r.1.2 = (broadcast_event admins event).1 ∧ r.2 = (broadcast_event admins event).2) ∧
  (stored.2 ≠ Returned → r.1.2 = admins ∧ r.2 = stored.2).
Proof.
  unfold Monitor.log_event; simpl.
  destruct (store_event db (Monitor.conversation_id m) event) as [db1 o1]; simpl.
  destruct o1; simpl;
    try destruct (broadcast_event admins event) as [admins1 o2]; simpl;
    repeat split; try done.
Qed.

Lemma log_event_ignores_status_witness :
  (keep_event [] "room-42" late_event).2 = Returned ∧
  Monitor.events
    (Monitor.log_event keep_event show_event ended_monitor [] [] late_event).1.1.1
    = [late_event] ∧
  (Monitor.log_event keep_event show_event ended_monitor [] [] late_event).2 = Returned.
Proof.
  destruct (log_event_ignores_status keep_event show_event ended_monitor [] [] late_event)
    as (H1 & _ & _ & _ & H5 & _).
  split; [reflexivity|]. split; [exact H1|].
  destruct (H5 eq_refl) as [_ H]. exact H.
Defined.

(** ** C2: the shutdown of a conversation *)

(** The [finally] block and the calls into the platform leave the admin
    manager and the wire alone: after the shutdown they are what the
    notification, if it was reached, made of them. *)
Lemma agent_shutdown_skipped (a : Agent.EnhancedAgent) (stop fin disc : outcome) :
  (Agent._egress_started a = true ∧ stop ≠ Returned) ∨ fin ≠ Returned →
  Agent.wire (Agent.agent_shutdown stop fin disc a).1 = Agent.wire a ∧
  Agent.manager (Agent.agent_shutdown stop fin disc a).1 = Agent.manager a ∧
  Agent.conversation_id (Agent.agent_shutdown stop fin disc a).1 = Agent.conversation_id a.
Proof.
  unfold Agent.agent_shutdown, Agent.graceful_shutdown, Agent.shutdown_steps,
    Agent.stop_recording, Agent.finalize_conversation, Agent.room_disconnect.
  intros H. destruct a as [cid eg rc ms mgr w]; simpl in *.
  destruct eg, stop, fin; simpl; try (destruct H as [[? ?]|?]; done);
    destruct rc as [[]|]; destruct disc; done.
Qed.

Lemma agent_shutdown_notified (a : Agent.EnhancedAgent) (stop fin disc : outcome) :
  Agent._egress_started a = false ∨ stop = Returned → fin = Returned →
  Agent.wire (Agent.agent_shutdown stop fin disc a).1 =
    Agent.wire a ++ (broadcast_to_admins (Agent.manager a)
                       (Agent.conversation_ended (Agent.conversation_id a))).1.2 ∧
  Agent.manager (Agent.agent_shutdown stop fin disc a).1 =
    match (broadcast_to_admins (Agent.manager a)
             (Agent.conversation_ended (Agent.conversation_id a))).2 with
    | Blocked =>
        (broadcast_to_admins (Agent.manager a)
           (Agent.conversation_ended (Agent.conversation_id a))).1.1
    | _ =>
        Agent.detach_topic
          (broadcast_to_admins (Agent.manager a)
             (Agent.conversation_ended (Agent.conversation_id a))).1.1
          (Agent.conversation_id a)
    end ∧
  Agent.conversation_id (Agent.agent_shutdown stop fin disc a).1 = Agent.conversation_id a ∧
  Agent.monitor_status (Agent.agent_shutdown stop fin disc a).1 = "ended".
Proof.
  unfold Agent.agent_shutdown, Agent.graceful_shutdown, Agent.shutdown_steps,
    Agent.stop_recording, Agent.finalize_conversation, Agent.room_disconnect,
    Agent.broadcast_shutdown_event.
  intros Hs ->.
  assert ((if Agent._egress_started a then (a, stop) else (a, Returned)) = (a, Returned)) as ->.
  { destruct Hs as [-> | ->]; [done|]. by destruct (Agent._egress_started a). }
  simpl.
  destruct (broadcast_to_admins (Agent.manager a) _) as [[mgr tr] o]; simpl.
  destruct a as [cid eg rc ms mgr0 w]; simpl in *.
  destruct o; simpl; destruct rc as [[]|]; destruct disc; done.
Qed.

(** A publish on a conversation without an entry reaches no one and
    changes nothing. *)
Lemma publish_on_missing_topic (s : AdminWebSocketManager) (m : Message) (c : string) :
  conversation_subscriptions s !! c = None → c ≠ "" →
  dict_get m "conversation_id" = VStr c →
  broadcast_to_admins s m = (s, [], Returned).
Proof.
  intros Hnone Hne Hc. unfold broadcast_to_admins, target_admins. rewrite Hc. simpl.
  destruct (String.eqb c "") eqn:E; [by apply String.eqb_eq in E|]. simpl.
  rewrite Hnone. simpl. by rewrite elements_empty.
Qed.

Lemma publish_all_on_missing_topic (s : AdminWebSocketManager) (es : list Message)
    (c : string) :
  conversation_subscriptions s !! c = None → c ≠ "" →
  (∀ e, e ∈ es → dict_get e "conversation_id" = VStr c) →
  publish_all s es = (s, []).
Proof.
  intros Hnone Hne. induction es as [|e es IH]; intros Hall; simpl; [done|].
  rewrite (publish_on_missing_topic s e c Hnone Hne) by (apply Hall; by left).
  rewrite IH; [done|]. intros e' He'. apply Hall. by right.
Qed.

(** A send to an admin that returned is a delivery to it. *)
Lemma sent_attempt_is_delivered (a : string) (m : Message) (tr : list attempt) :
  Attempt a m Sent ∈ attempts_to a tr → m ∈ deliveries_to a tr.
Proof.
  intros [_ Hin]%list_elem_of_filter. unfold deliveries_to.
  apply list_elem_of_fmap. exists (Attempt a m Sent). split; [done|].
  apply list_elem_of_filter. split; [|done].
  unfold delivered. simpl. by rewrite bool_decide_eq_true_2.
Qed.



(** ** C9: the participant counter of the registry *)

Section RegistryProofs.
Import Registry.
Variable publisher_change : ConversationEvent → Z → Z.

Lemma joins_snoc c es e :
  joins c (es ++ [e]) = joins c es + (if is_event ParticipantJoined c e then 1 else 0).
Proof.
  unfold joins. rewrite filter_app, length_app, filter_cons, filter_nil.
  destruct (is_event ParticipantJoined c e); case_decide; simpl; try done; lia.
Qed.

Lemma leaves_snoc c es e :
  leaves c (es ++ [e]) = leaves c es + (if is_event ParticipantLeft c e then 1 else 0).
Proof.
  unfold leaves. rewrite filter_app, length_app, filter_cons, filter_nil.
  destruct (is_event ParticipantLeft c e); case_decide; simpl; try done; lia.
Qed.

Lemma balanced_snoc c es e :
  balanced c (es ++ [e]) → balanced c es ∧ leaves c (es ++ [e]) ≤ joins c (es ++ [e]).
Proof.
  intros H. split.
  - intros n. destruct (decide (n ≤ length es)%nat) as [Hn|Hn].
    + specialize (H n). by rewrite take_app_le in H.
    + specialize (H (length es)). rewrite take_app_le in H by done.
      rewrite firstn_all in H. by rewrite take_ge by lia.
  - specialize (H (length (es ++ [e]))). by rewrite firstn_all in H.
Qed.

Lemma applyEvent_other r e c :
  conversationId e ≠ c → applyEvent publisher_change r e !! c = r !! c.
Proof.
  intros Hne. unfold applyEvent.
  destruct (r !! conversationId e) as [s|].
  - destruct (session_status s); [by rewrite lookup_insert_ne|done].
  - destruct (ev_kind e); try done. by rewrite lookup_insert_ne.
Qed.

Lemma is_event_other k c e : conversationId e ≠ c → is_event k c e = false.
Proof. intros H. unfold is_event. by rewrite bool_decide_eq_false_2. Qed.

Lemma is_event_same k e :
  is_event k (conversationId e) e =
  match k, ev_kind e with
  | ParticipantJoined, ParticipantJoined => true
  | ParticipantLeft, ParticipantLeft => true
  | _, _ => false
  end.
Proof. unfold is_event. by rewrite bool_decide_eq_true_2. Qed.

(** The counter follows the joins and leaves as long as no participant
    leaves an empty conversation and the conversation has not ended. *)
Lemma count_invariant c es :
  (∀ e, e ∈ es → ev_kind e ≠ ConversationEnded) → balanced c es →
  match applyEvents publisher_change ∅ es !! c with
  | Some s => session_status s = Active ∧ participantCount s = joins c es - leaves c es
  | None => joins c es = 0 ∧ leaves c es = 0
  end.
Proof.
  induction es as [|e es IH] using rev_ind; intros Hk Hb.
  { unfold applyEvents; simpl. by rewrite lookup_empty. }
  apply balanced_snoc in Hb as [Hb Hle].
  specialize (IH (λ e' He', Hk e' (proj2 (elem_of_app _ _ _) (or_introl He'))) Hb).
  assert (ev_kind e ≠ ConversationEnded) as Hne.
  { apply Hk, elem_of_app. right. by left. }
  unfold applyEvents in *. rewrite foldl_app; simpl.
  rewrite joins_snoc, leaves_snoc in *.
  generalize dependent (foldl (applyEvent publisher_change) ∅ es). intros r IH.
  destruct (decide (conversationId e = c)) as [<-|Hc].
  - rewrite !is_event_same in *. unfold applyEvent.
    destruct (r !! conversationId e) as [s|] eqn:Es.
    + simpl in IH. destruct IH as [Hst IH].
      rewrite Hst. rewrite lookup_insert_eq. unfold update_session.
      destruct (ev_kind e); simpl; try done; split; try done; lia.
    + simpl in IH. destruct IH as [IH1 IH2].
      destruct (ev_kind e); simpl; rewrite ?lookup_insert_eq, ?Es; simpl;
        try done; try lia. split; [done|lia].
  - rewrite applyEvent_other by done. rewrite !is_event_other by done.
    rewrite !Z.add_0_r. apply IH.
Qed.

(** Whatever the events, no counter becomes negative. *)
Lemma count_never_negative r es :
  (∀ c s, r !! c = Some s → 0 ≤ participantCount s) →
  ∀ c s, applyEvents publisher_change r es !! c = Some s → 0 ≤ participantCount s.
Proof.
  revert r. induction es as [|e es IH]; intros r Hr; [done|].
  unfold applyEvents; simpl. apply IH.
  intros c s. unfold applyEvent.
  destruct (r !! conversationId e) as [s0|] eqn:E0.
  - destruct (session_status s0); [|by apply Hr].
    destruct (decide (conversationId e = c)) as [<-|Hc].
    + rewrite lookup_insert_eq. intros [= <-]. specialize (Hr _ _ E0).
      unfold update_session. destruct (ev_kind e); simpl; lia.
    + rewrite lookup_insert_ne by done. by apply Hr.
  - destruct (ev_kind e); try by apply Hr.
    destruct (decide (conversationId e = c)) as [<-|Hc].
    + rewrite lookup_insert_eq. by intros [= <-].
    + rewrite lookup_insert_ne by done. by apply Hr.
Qed.

(** Only a join or a leave touches the counters. *)
Lemma counters_only_membership r e c :
  is_membership (ev_kind e) = false →
  match r !! c, applyEvent publisher_change r e !! c with
  | Some s, Some s' =>
      participantCount s' = participantCount s ∧ publisherCount s' = publisherCount s
  | None, None => True
  | _, _ => False
  end.
Proof.
  intros Hm.
  destruct (decide (conversationId e = c)) as [<-|Hc].
  - unfold applyEvent.
    destruct (r !! conversationId e) as [s|] eqn:Es.
    + destruct (session_status s); [|by rewrite Es].
      rewrite lookup_insert_eq. unfold update_session.
      by destruct (ev_kind e).
    + destruct (ev_kind e); try done; by rewrite Es.
  - rewrite applyEvent_other by done. by destruct (r !! c).
Qed.
End RegistryProofs.

(** C9, as stated, fails: after one join and two leaves the counter is
    zero, while the joins minus the leaves are minus one; no counter can
    be both. *)
Lemma second_leave_breaks_net_count :
  let es := [membership Registry.ParticipantJoined "room-42" 1;
             membership Registry.ParticipantLeft "room-42" 2;
             membership Registry.ParticipantLeft "room-42" 3] in
  Registry.participantCount <$> (Registry.applyEvents unchanged_publishers ∅ es !! "room-42")
    = Some 0 ∧
  Registry.joins "room-42" es - Registry.leaves "room-42" es = -1.
Proof. split; vm_compute; reflexivity. Qed.

(** C9 (amended): for every sequence of events without an end of the
    conversation, applied to the empty registry, in which no prefix has
    more leaves than joins of a conversation, the session of that
    conversation has a participant count equal to its joins minus its
    leaves (and there is no session exactly when there were none); the
    count is never negative, whatever the events; and an event that is
    neither a join nor a leave changes neither counter and creates no
    session. *)
Theorem participant_count_is_net_of_joins_and_leaves
    (publisher_change : Registry.ConversationEvent → Z → Z)
    (es : list Registry.ConversationEvent) (c : string) :
  ((∀ e, e ∈ es → Registry.ev_kind e ≠ Registry.ConversationEnded) →
   Registry.balanced c es →
   match Registry.applyEvents publisher_change ∅ es !! c with
   | Some s => Registry.participantCount s = Registry.joins c es - Registry.leaves c es
   | None => Registry.joins c es = 0 ∧ Registry.leaves c es = 0
   end) ∧
  (∀ s, Registry.applyEvents publisher_change ∅ es !! c = Some s →
        0 ≤ Registry.participantCount s) ∧
  (∀ r e, Registry.is_membership (Registry.ev_kind e) = false →
          match r !! c, Registry.applyEvent publisher_change r e !! c with
          | Some s, Some s' =>
              Registry.participantCount s' = Registry.participantCount s ∧
              Registry.publisherCount s' = Registry.publisherCount s
          | None, None => True
          | _, _ => False
          end).
Proof.
  split; [|split].
  - intros Hk Hb. pose proof (count_invariant publisher_change c es Hk Hb) as H.
    destruct (Registry.applyEvents publisher_change ∅ es !! c); [by destruct H|done].
  - intros s. apply count_never_negative. intros c' s'. by rewrite lookup_empty.
  - intros r e. apply counters_only_membership.
Qed.

Lemma participant_count_is_net_of_joins_and_leaves_witness :
  let es := [membership Registry.ParticipantJoined "room-42" 1;
             membership Registry.ParticipantJoined "room-42" 2;
             membership Registry.ParticipantLeft "room-42" 3] in
  Registry.balanced "room-42" es ∧
  Registry.participantCount <$> (Registry.applyEvents unchanged_publishers ∅ es !! "room-42")
    = Some 1.
Proof.
  intros es.
  assert (Registry.balanced "room-42" es) as Hb.
  { intros n. do 4 (destruct n as [|n]; [vm_compute; discriminate|]).
    vm_compute; discriminate. }
  split; [exact Hb|].
  destruct (participant_count_is_net_of_joins_and_leaves unchanged_publishers es "room-42")
    as (H & _).
  assert (∀ e, e ∈ es → Registry.ev_kind e ≠ Registry.ConversationEnded) as Hk.
  { intros e He. unfold es in He.
    repeat (apply elem_of_cons in He as [->|He]; [discriminate|]).
    apply elem_of_nil in He. destruct He. }
  specialize (H Hk Hb).
  destruct (Registry.applyEvents unchanged_publishers ∅ es !! "room-42") as [s|] eqn:E.
  - simpl. f_equal. rewrite H. vm_compute; reflexivity.
  - exfalso. destruct H as [H _]. revert H. vm_compute; discriminate.
Defined.

(* ===================================================================== *)
(** * Further properties of the code *)
(* ===================================================================== *)

(** ** The manager's other methods *)

(** X1: [remove_admin] removes the connection of that admin and takes it
    out of every subscriber set; every other admin keeps its connection
    and its memberships; no empty set is left behind. *)
Theorem remove_admin_removes_only_that_admin (s : AdminWebSocketManager) (a : string) :
  admin_connections (remove_admin s a) !! a = None ∧
  (∀ c, a ∉ default ∅ (conversation_subscriptions (remove_admin s a) !! c)) ∧
  (∀ b, b ≠ a →
        admin_connections (remove_admin s a) !! b = admin_connections s !! b ∧
        ∀ c, b ∈ default ∅ (conversation_subscriptions (remove_admin s a) !! c) ↔
             b ∈ default ∅ (conversation_subscriptions s !! c)) ∧
  (∀ c, conversation_subscriptions (remove_admin s a) !! c ≠ Some ∅).
Proof.
  split; [|split; [|split]].
  - rewrite remove_admin_connections. apply lookup_delete_eq.
  - intros c. rewrite remove_admin_subscriptions, elem_of_without. tauto.
  - intros b Hne. split.
    + rewrite remove_admin_connections. by apply lookup_delete_ne.
    + intros c. rewrite remove_admin_subscriptions, elem_of_without. tauto.
  - apply remove_admin_no_empty.
Qed.

Lemma remove_admin_removes_only_that_admin_witness :
  "admin-2" ≠ "admin-1" ∧
  admin_connections (remove_admin empty_topic "admin-1") !! "admin-2" = Some ws_open.
Proof.
  assert ("admin-2" ≠ "admin-1") as Hne by discriminate.
  split; [exact Hne|].
  destruct (remove_admin_removes_only_that_admin empty_topic "admin-1") as (_ & _ & H & _).
  destruct (H "admin-2" Hne) as [-> _]. vm_compute; reflexivity.
Defined.

(** X2: whatever methods were called on a manager since it was created,
    it holds no empty subscriber set: a conversation is a key of
    [conversation_subscriptions] only while somebody is subscribed. *)
Theorem manager_holds_no_empty_set (s : AdminWebSocketManager) (c : string) (X : gset string) :
  reachable s → conversation_subscriptions s !! c = Some X → ∃ a, a ∈ X.
Proof.
  intros Hr HX. apply set_choose_L. intros ->.
  by apply (reachable_no_empty s Hr c).
Qed.

Lemma manager_holds_no_empty_set_witness :
  reachable (one_admin ws_closed) ∧
  ∃ a, a ∈ ({[ "admin-1" ]} : gset string).
Proof.
  split; [apply one_admin_reachable|].
  apply (manager_holds_no_empty_set (one_admin ws_closed) "room-42");
    [apply one_admin_reachable|vm_compute; reflexivity].
Defined.

(** X3: [broadcast_to_admins] never adds a connection or a subscription.
    When it does not return it leaves the manager as it was; when it
    returns, the connections it removed are exactly those of the targets
    whose send raised a handled disconnect. *)
Theorem broadcast_only_removes_disconnected (s : AdminWebSocketManager) (m : Message) :
  (∀ a ws, admin_connections (broadcast_to_admins s m).1.1 !! a = Some ws →
           admin_connections s !! a = Some ws) ∧
  (∀ c a, a ∈ default ∅ (conversation_subscriptions (broadcast_to_admins s m).1.1 !! c) →
          a ∈ default ∅ (conversation_subscriptions s !! c)) ∧
  ((broadcast_to_admins s m).2 ≠ Returned → (broadcast_to_admins s m).1.1 = s) ∧
  ((broadcast_to_admins s m).2 = Returned →
   ∀ a ws, admin_connections s !! a = Some ws →
           (admin_connections (broadcast_to_admins s m).1.1 !! a = None ↔
            a ∈ targets s m ∧ send_json ws m = Disconnected)).
Proof.
  split; [apply broadcast_connections_sub|]. split; [|split].
  - intros c a. rewrite broadcast_state.
    destruct (send_loop _ _ _) as [[tr disc] o]; simpl.
    destruct o; try done. rewrite remove_all_subscriptions. tauto.
  - intros Hne. rewrite broadcast_state.
    rewrite broadcast_outcome in Hne.
    destruct (target_admins s m) as [T|] eqn:ET.
    + destruct (send_loop _ _ _) as [[tr disc] o]; simpl in *. by destruct o.
    + unfold targets. rewrite ET; simpl. by rewrite elements_empty.
  - intros Hret a ws Ha. pose proof Hret as Hc. apply broadcast_returns in Hc as [_ Hc].
    rewrite broadcast_state, (proj2 (send_loop_completes _ _ _) Hc).
    rewrite remove_all_connections. split.
    + case_decide as Hin; [intros _|by rewrite Ha].
      apply send_loop_disconnected in Hin as (Hin & ws' & Ha' & Hs).
      rewrite Ha in Ha'. injection Ha' as <-. split; [|done].
      by apply elem_of_elements.
    + intros [Hin Hs]. rewrite decide_True; [done|].
      apply (send_loop_collects _ _ _ _ ws); try done. by apply elem_of_elements.
Qed.

Lemma broadcast_only_removes_disconnected_witness :
  (broadcast_to_admins (one_admin ws_closed) hello).2 = Returned ∧
  admin_connections (broadcast_to_admins (one_admin ws_closed) hello).1.1 !! "admin-1" = None.
Proof.
  assert ((broadcast_to_admins (one_admin ws_closed) hello).2 = Returned) as Hret
    by (vm_compute; reflexivity).
  split; [exact Hret|].
  destruct (broadcast_only_removes_disconnected (one_admin ws_closed) hello) as (_ & _ & _ & H).
  apply (H Hret "admin-1" ws_closed); [reflexivity|].
  split; [vm_compute; reflexivity|reflexivity].
Defined.

Lemma audio_loop_attempt conns m l x :
  x ∈ (audio_loop conns m l).1 →
  att_admin x ∈ l ∧ att_message x = m ∧
  ∃ ws, conns !! att_admin x = Some ws ∧ send_json ws m = att_result x.
Proof.
  induction l as [|b l IH]; simpl.
  - intros H; by apply elem_of_nil in H.
  - destruct (conns !! b) as [ws|] eqn:Hb.
    + destruct (send_json ws m) eqn:Hs;
        try destruct (audio_loop conns m l) as [tr o] eqn:E; simpl in *;
        intros [->|Hin]%elem_of_cons; simpl;
        try (split; [by left|split; [done|by exists ws]]);
        try (destruct (IH Hin) as (? & ? & ?); split; [by right|done]).
      by apply elem_of_nil in Hin.
    + intros Hin. destruct (IH Hin) as (? & ? & ?). split; [by right|done].
Qed.

Lemma attempts_to_none a tr :
  (∀ x, x ∈ tr → att_admin x ≠ a) → attempts_to a tr = [].
Proof.
  induction tr as [|y tr IH]; intros H; [done|].
  rewrite attempts_to_cons, decide_False by (apply H; by left).
  apply IH. intros x Hx. apply H. by right.
Qed.

Lemma audio_loop_attempts conns m l a ws :
  NoDup l → (audio_loop conns m l).2 = Returned →
  a ∈ l → conns !! a = Some ws →
  attempts_to a (audio_loop conns m l).1 = [Attempt a m (send_json ws m)].
Proof.
  intros Hnd. induction Hnd as [|b l Hb Hnd IH]; intros Hret Hin Ha.
  { by apply elem_of_nil in Hin. }
  simpl in *. destruct (decide (b = a)) as [->|Hne].
  - rewrite Ha in *.
    assert (attempts_to a (audio_loop conns m l).1 = []) as H'.
    { apply attempts_to_none. intros x Hx <-.
      apply audio_loop_attempt in Hx as [Hx _]. done. }
    destruct (send_json ws m) eqn:Hs;
      try destruct (audio_loop conns m l) as [tr o] eqn:E; simpl in *;
      try discriminate Hret;
      rewrite attempts_to_cons; simpl; rewrite decide_True by done;
      by rewrite H'.
  - apply elem_of_cons in Hin as [->|Hin]; [done|].
    destruct (conns !! b) as [wb|] eqn:Hcb; [|by apply IH].
    destruct (send_json wb m) eqn:Hs;
      try destruct (audio_loop conns m l) as [tr o] eqn:E; simpl in *;
      try discriminate Hret;
      rewrite attempts_to_cons; simpl; rewrite decide_False by done;
      by apply IH.
Qed.

Lemma falsy_id_targets s m :
  truthy (dict_get m "conversation_id") = false →
  target_admins s m = Some (dom (admin_connections s)).
Proof. intros H. unfold target_admins. by rewrite H. Qed.

(** X4: once [websocket.accept()] has returned, [register_admin] has
    stored the connection, whatever the send of the initial state did: a
    later broadcast of a message without conversation that returns makes
    exactly one send to that admin, on the new websocket, also when the
    admin was registered before with another one. *)
Theorem registered_admin_gets_general_broadcasts
    (s : AdminWebSocketManager) (a : string) (ws : WebSocket) (v : value) (m : Message) :
  truthy (dict_get m "conversation_id") = false →
  (broadcast_to_admins (register_admin s a ws Returned v).1.1 m).2 = Returned →
  attempts_to a (broadcast_to_admins (register_admin s a ws Returned v).1.1 m).1.2
  = [Attempt a m (send_json ws m)].
Proof.
  intros Hf Hret. apply broadcast_attempts; [done| |simpl; apply lookup_insert_eq].
  unfold targets. rewrite falsy_id_targets by done. simpl.
  apply elem_of_dom. rewrite lookup_insert_eq. by eexists.
Qed.

Lemma registered_admin_gets_general_broadcasts_witness :
  attempts_to "admin-1"
    (broadcast_to_admins (register_admin (one_admin ws_broken) "admin-1" ws_open Returned (VList [])).1.1
       (∅ : Message)).1.2
  = [Attempt "admin-1" ∅ Sent].
Proof.
  apply (registered_admin_gets_general_broadcasts (one_admin ws_broken) "admin-1" ws_open (VList []) ∅);
    vm_compute; reflexivity.
Defined.



(** X6: [remove_admin] undoes whatever [register_admin] and
    [subscribe_to_conversation] stored for that admin: removing the admin
    after either call leaves the manager that removing it before the
    call would have left. *)
Theorem remove_admin_undoes_register_and_subscribe
    (s : AdminWebSocketManager) (a c : string) (h v : value) (ws : WebSocket) (accepted : outcome) :
  remove_admin (register_admin s a ws accepted v).1.1 a = remove_admin s a ∧
  remove_admin (subscribe_to_conversation s a c h).1.1 a = remove_admin s a.
Proof.
  split.
  - apply manager_eq.
    + rewrite !remove_admin_connections.
      destruct accepted; simpl; try done. apply delete_insert_eq.
    + apply map_eq. intros k. rewrite !remove_admin_subscriptions.
      by destruct accepted.
  - apply manager_eq.
    + rewrite !remove_admin_connections.
      unfold subscribe_to_conversation. by destruct (admin_connections s !! a).
    + apply map_eq. intros k. rewrite !remove_admin_subscriptions.
      assert (conversation_subscriptions (subscribe_to_conversation s a c h).1.1
              = <[c := default ∅ (conversation_subscriptions s !! c) ∪ {[a]}]>
                  (conversation_subscriptions s)) as ->.
      { unfold subscribe_to_conversation. by destruct (admin_connections s !! a). }
      destruct (decide (k = c)) as [->|Hne].
      * rewrite lookup_insert_eq. unfold without. simpl.
        destruct (conversation_subscriptions s !! c) as [X|]; simpl.
        -- assert ((X ∪ {[a]}) ∖ {[a]} = X ∖ {[a]}) as -> by set_solver. done.
        -- rewrite decide_True by set_solver. done.
      * by rewrite lookup_insert_ne.
Qed.

(** ** The broadcasts among other tasks *)

Lemma quiet_hd (others : list (list task_step)) : quiet others → hd [] others = [].
Proof. destruct others as [|steps l]; [done|]. intros H. apply H. by left. Qed.

Lemma quiet_tl (others : list (list task_step)) : quiet others → quiet (tl others).
Proof.
  destruct others as [|steps l]; [done|]. intros H steps' Hin. apply H. by right.
Qed.

Lemma interference_nil (key : option string) (s : AdminWebSocketManager) :
  interference key s [] = (s, Untouched).
Proof. reflexivity. Qed.

(** Without steps of other tasks the loop among other tasks is the loop
    on the targets as they are when the call begins. *)
Lemma live_loop_quiet_passes (key : option string) (m : Message) (order : list string)
    (s : AdminWebSocketManager) (others : list (list task_step)) :
  quiet others →
  ∃ tr, live_loop passes key m order s others
        = Some (s, tr, (send_loop (admin_connections s) m order).2) ∧
        tr = (send_loop (admin_connections s) m order).1.1 ∧
        disconnected_in tr = (send_loop (admin_connections s) m order).1.2.
Proof.
  revert others. induction order as [|a l IH]; intros others Hq; simpl.
  { by exists []. }
  destruct (admin_connections s !! a) as [ws|]; [|by apply IH].
  rewrite (quiet_hd others Hq), interference_nil.
  destruct (IH (tl others) (quiet_tl others Hq)) as (tr & -> & Htr & Hd).
  destruct (send_loop (admin_connections s) m l) as [[tr' disc] o]; simpl in *. subst tr'.
  unfold disconnected_in in *.
  destruct (send_json ws m) eqn:Es; simpl.
  - exists (Attempt a m Sent :: tr). split; [done|]. split; [done|]. exact Hd.
  - exists (Attempt a m Disconnected :: tr). split; [done|]. split; [done|].
    change (a :: omap (λ a : attempt, match att_result a with
                                     | Disconnected => Some (att_admin a)
                                     | _ => None
                                     end) tr = a :: disc).
    by rewrite Hd.
  - by eexists.
  - by eexists.
Qed.

Lemma live_loop_quiet_all (key : option string) (m : Message) (order : list string)
    (s : AdminWebSocketManager) (others : list (list task_step)) :
  quiet others →
  live_loop (λ _, true) key m order s others
  = Some (s, (audio_loop (admin_connections s) m order).1,
          (audio_loop (admin_connections s) m order).2).
Proof.
  revert others. induction order as [|a l IH]; intros others Hq; simpl; [done|].
  destruct (admin_connections s !! a) as [ws|]; [|by apply IH].
  rewrite (quiet_hd others Hq), interference_nil.
  rewrite (IH (tl others) (quiet_tl others Hq)).
  destruct (audio_loop (admin_connections s) m l) as [tr o]; simpl.
  by destruct (send_json ws m).
Qed.

(** Every send of the loop goes to an admin of the order the loop was
    given, with the message of the call. *)
Lemma live_loop_attempt (caught : send_result → bool) (key : option string) (m : Message)
    (order : list string) (s : AdminWebSocketManager) (others : list (list task_step))
    (r : AdminWebSocketManager * list attempt * outcome) (x : attempt) :
  live_loop caught key m order s others = Some r → x ∈ r.1.2 →
  att_admin x ∈ order ∧ att_message x = m.
Proof.
  revert s others r. induction order as [|a l IH]; intros s others r; simpl.
  { intros [= <-] H. by apply elem_of_nil in H. }
  destruct (admin_connections s !! a) as [ws|].
  2:{ intros H Hx. destruct (IH _ _ _ H Hx). split; [by right|done]. }
  destruct (interference key s (hd [] others)) as [s1 t].
  assert (∀ res, x ∈ [Attempt a m res] → att_admin x ∈ a :: l ∧ att_message x = m) as Hone.
  { intros res [->|H]%elem_of_cons; [split; [by left|done]|by apply elem_of_nil in H]. }
  assert (∀ res r', live_loop caught key m l s1 (tl others) = Some r' →
                    x ∈ Attempt a m res :: r'.1.2 →
                    att_admin x ∈ a :: l ∧ att_message x = m) as Hmore.
  { intros res r' E [->|Hx]%elem_of_cons; [split; [by left|done]|].
    destruct (IH _ _ _ E Hx). split; [by right|done]. }
  destruct (send_json ws m) eqn:Es; simpl.
  - destruct (caught Sent); [|intros [= <-]; apply Hone].
    destruct t; [|intros [= <-]; apply Hone|done].
    destruct (live_loop caught key m l s1 (tl others)) as [[[s2 tr] o]|] eqn:E; [|done].
    simpl. intros [= <-]. by apply (Hmore Sent (s2, tr, o)).
  - destruct (caught Disconnected); [|intros [= <-]; apply Hone].
    destruct t; [|intros [= <-]; apply Hone|done].
    destruct (live_loop caught key m l s1 (tl others)) as [[[s2 tr] o]|] eqn:E; [|done].
    simpl. intros [= <-]. by apply (Hmore Disconnected (s2, tr, o)).
  - destruct (caught Failed); [|intros [= <-]; apply Hone].
    destruct t; [|intros [= <-]; apply Hone|done].
    destruct (live_loop caught key m l s1 (tl others)) as [[[s2 tr] o]|] eqn:E; [|done].
    simpl. intros [= <-]. by apply (Hmore Failed (s2, tr, o)).
  - intros [= <-]. apply Hone.
Qed.

(** A new subscriber of the iterated conversation changes the size of
    the set. *)
Lemma subscribe_resizes (s : AdminWebSocketManager) (c b : string) (X : gset string) :
  conversation_subscriptions s !! c = Some X → b ∉ X →
  interference (Some c) s [Subscribes b c] = (apply_step s (Subscribes b c), Resized).
Proof.
  intros HX Hb. unfold interference. simpl.
  assert (conversation_subscriptions (subscribe_to_conversation s b c VNone).1.1 !! c
          = Some (X ∪ {[b]})) as Hafter.
  { unfold subscribe_to_conversation.
    destruct (admin_connections s !! b); simpl; by rewrite lookup_insert_eq, HX. }
  rewrite !Hafter, !HX. simpl.
  case_bool_decide as H1.
  { exfalso. injection H1 as H1. apply Hb. rewrite <- H1. set_solver. }
  simpl. rewrite decide_False; [done|].
  rewrite size_union by set_solver. rewrite size_singleton. lia.
Qed.

(** A send that is let pass, during which other tasks change the size
    of the iterated set, is the last of the loop. *)
Lemma live_loop_resized (caught : send_result → bool) (key : option string) (m : Message)
    (a : string) (rest : list string) (s s1 : AdminWebSocketManager) (ws : WebSocket)
    (steps : list task_step) (others : list (list task_step)) :
  admin_connections s !! a = Some ws → send_json ws m ≠ Stalled →
  caught (send_json ws m) = true → interference key s steps = (s1, Resized) →
  live_loop caught key m (a :: rest) s (steps :: others)
  = Some (s1, [Attempt a m (send_json ws m)], Raised).
Proof.
  intros Ha Hs Hc Hi. cbn [live_loop hd]. rewrite Ha, Hi.
  destruct (send_json ws m); try done; by rewrite Hc.
Qed.

(** [broadcast_to_admins] among other tasks that make no step is
    [broadcast_to_admins]. *)
Lemma broadcast_live_quiet (s : AdminWebSocketManager) (m : Message)
    (others : list (list task_step)) :
  quiet others → broadcast_to_admins_live s m others = Some (broadcast_to_admins s m).
Proof.
  intros Hq. unfold broadcast_to_admins_live, broadcast_to_admins.
  destruct (target_admins s m) as [T|]; [|done].
  destruct (live_loop_quiet_passes (live_key s m) m (elements T) s others Hq)
    as (tr & -> & Htr & Hd).
  simpl.
  destruct (send_loop (admin_connections s) m (elements T)) as [[tr' disc] o]; simpl in *.
  subst tr' disc. by destruct o.
Qed.

Lemma audio_live_quiet (s : AdminWebSocketManager) (c chunk ts : string)
    (others : list (list task_step)) :
  quiet others →
  broadcast_audio_chunk_live s c chunk ts others
  = Some (s, (broadcast_audio_chunk s c chunk ts).1, (broadcast_audio_chunk s c chunk ts).2).
Proof. intros Hq. unfold broadcast_audio_chunk_live. by apply live_loop_quiet_all. Qed.

(** Whatever other tasks do, the sends of a call carry its audio
    message to admins subscribed when it began, and the call raises
    only if another task made a step. *)
Lemma audio_live_sends (s : AdminWebSocketManager) (c chunk ts : string)
    (others : list (list task_step))
    (r : AdminWebSocketManager * list attempt * outcome) :
  broadcast_audio_chunk_live s c chunk ts others = Some r →
  (∀ x, x ∈ r.1.2 →
        att_admin x ∈ default ∅ (conversation_subscriptions s !! c) ∧
        att_message x = audio_chunk_message c chunk ts) ∧
  (r.2 = Raised → ¬ quiet others).
Proof.
  intros Hr. split.
  - intros x Hx. unfold broadcast_audio_chunk_live in Hr.
    destruct (live_loop_attempt _ _ _ _ _ _ _ x Hr Hx) as [Hin Hm].
    split; [by apply elem_of_elements in Hin|done].
  - intros Hraised Hq. rewrite (audio_live_quiet s c chunk ts others Hq) in Hr.
    injection Hr as <-. simpl in Hraised.
    by apply (audio_loop_never_raises (admin_connections s) (audio_chunk_message c chunk ts)
                (elements (default ∅ (conversation_subscriptions s !! c)))).
Qed.





(** ** handle_speech_event *)

(** Every send of a call is made to a target, with the message of the
    call, on the connection the manager holds for that target. *)
Lemma broadcast_attempt s m x :
  x ∈ (broadcast_to_admins s m).1.2 →
  att_admin x ∈ targets s m ∧ att_message x = m ∧
  ∃ ws, admin_connections s !! att_admin x = Some ws ∧ send_json ws m = att_result x.
Proof.
  rewrite broadcast_trace. intros Hx.
  apply send_loop_attempt in Hx as (Hin & Hm & Hws).
  split; [by apply elem_of_elements in Hin|done].
Qed.

(** The targets of a message that names a conversation by a non-empty
    string are the subscribers of that conversation. *)
Lemma targets_of_conversation s m c :
  dict_get m "conversation_id" = VStr c → c ≠ "" →
  targets s m = default ∅ (conversation_subscriptions s !! c).
Proof.
  intros Hc Hne. unfold targets, target_admins. rewrite Hc. simpl.
  destruct (String.eqb c "") eqn:E; [by apply String.eqb_eq in E|done].
Qed.

Section SpeechProofs.
Context {Db Admins : Type}.
Variable store_event : Db → string → Monitor.ConversationEvent → Db * outcome.
Variable broadcast_event : Admins → Monitor.ConversationEvent → Admins * outcome.
Variable to_dict : Monitor.ConversationEvent → value.



(** X10: an interim or final event without alternatives raises
    ([IndexError]) before anything is logged, stored or sent; an event
    of any other type returns at once. In both cases the monitor, the
    stores and the manager are as before. *)
Theorem speech_event_without_transcript_changes_nothing
    (m : Monitor.ConversationMonitor) (db : Db) (admins : Admins)
    (mgr : AdminWebSocketManager) (event : Speech.SpeechEvent) (now : Z) :
  Speech.alternatives event = [] ∨ Speech.type event = Speech.OTHER_EVENT →
  let r := Speech.handle_speech_event store_event broadcast_event to_dict
             m db admins mgr event now in
  Speech.h_monitor r = m ∧ Speech.h_db r = db ∧ Speech.h_admins r = admins ∧
  Speech.h_manager r = mgr ∧ Speech.h_sends r = [] ∧
  Speech.h_end r = match Speech.type event with
                   | Speech.OTHER_EVENT => Returned
                   | _ => Raised
                   end.
Proof.
  intros H r. subst r. unfold Speech.handle_speech_event.
  destruct (Speech.type event) eqn:Et; destruct H as [H|H]; try discriminate H;
    try rewrite H; simpl; repeat split; try done.
Qed.

End SpeechProofs.



Lemma speech_event_without_transcript_changes_nothing_witness :
  Speech.h_end (Speech.handle_speech_event keep_event show_event fields_of
                  fresh_monitor [] [] (one_admin ws_open)
                  {| Speech.type := Speech.FINAL_TRANSCRIPT; Speech.speaker := "customer";
                     Speech.alternatives := [] |} 0) = Raised.
Proof.
  destruct (speech_event_without_transcript_changes_nothing keep_event show_event fields_of
              fresh_monitor [] [] (one_admin ws_open)
              {| Speech.type := Speech.FINAL_TRANSCRIPT; Speech.speaker := "customer";
                 Speech.alternatives := [] |} 0) as (_ & _ & _ & _ & _ & H);
    [left; reflexivity|].
  exact H.
Defined.

(** ** The retried insert *)

(** X11: [store_conversation_event] makes at most three queries, one
    after the other, and stops at the first that does not raise. It
    raises exactly when all three queries raised, and returns exactly
    when one of them returned after the earlier ones had raised. It
    sleeps at most 1.5 s in all, and never after its last query. *)
Theorem store_event_gives_up_after_three_queries (execute_query : nat → outcome) :
  let r := Database.store_conversation_event execute_query in
  Database.queries r.1 `prefix_of` [0; 1; 2]%nat ∧
  (r.2 = Raised ↔
   execute_query 0%nat = Raised ∧ execute_query 1%nat = Raised ∧ execute_query 2%nat = Raised) ∧
  (r.2 = Returned ↔
   ∃ k, (k < 3)%nat ∧ execute_query k = Returned ∧ ∀ j, (j < k)%nat → execute_query j = Raised) ∧
  Database.slept r.1 ≤ 1500000 ∧
  ∃ k, last r.1 = Some (Database.Query k) ∧ (r.2 = Returned → execute_query k = Returned).
Proof.
  cbv zeta. unfold Database.store_conversation_event. simpl.
  assert (∀ k : nat, (k < 3)%nat → k = 0%nat ∨ k = 1%nat ∨ k = 2%nat) as H3 by lia.
  destruct (execute_query 0%nat) eqn:E0; simpl.
  - split; [by exists [1; 2]%nat|]. split; [split; [done|by intros (? & _)]|].
    split; [|split; [done|by exists 0%nat]].
    split; [intros _|done]. exists 0%nat. split; [lia|]. split; [done|]. intros j Hj. lia.
  - destruct (execute_query 1%nat) eqn:E1; simpl.
    + split; [by exists [2]%nat|]. split; [split; [done|by intros (_ & ? & _)]|].
      split; [|split; [done|by exists 1%nat]].
      split; [intros _|done]. exists 1%nat. split; [lia|]. split; [done|].
      intros j Hj. assert (j = 0%nat) as -> by lia. done.
    + destruct (execute_query 2%nat) eqn:E2; simpl.
      * split; [by exists []|]. split; [split; [done|by intros (_ & _ & ?)]|].
        split; [|split; [done|by exists 2%nat]].
        split; [intros _|done]. exists 2%nat. split; [lia|]. split; [done|].
        intros j Hj. assert (j = 0%nat ∨ j = 1%nat) as [-> | ->] by lia; done.
      * split; [by exists []|]. split; [done|].
        split; [|split; [done|by exists 2%nat]].
        split; [done|]. intros (k & Hk & Hr & _).
        destruct (H3 k Hk) as [-> | [-> | ->]]; congruence.
      * split; [by exists []|]. split; [split; [done|by intros (_ & _ & ?)]|].
        split; [|split; [done|by exists 2%nat]].
        split; [done|]. intros (k & Hk & Hr & _).
        destruct (H3 k Hk) as [-> | [-> | ->]]; congruence.
    + split; [by exists [2]%nat|]. split; [split; [done|by intros (_ & ? & _)]|].
      split; [|split; [done|by exists 1%nat]].
      split; [done|]. intros (k & Hk & Hr & Hb).
      destruct (H3 k Hk) as [-> | [-> | ->]]; try congruence.
      specialize (Hb 1%nat ltac:(lia)). congruence.
  - split; [by exists [1; 2]%nat|]. split; [split; [done|by intros (? & _)]|].
    split; [|split; [done|by exists 0%nat]].
    split; [done|]. intros (k & Hk & Hr & Hb).
    destruct (H3 k Hk) as [-> | [-> | ->]]; try congruence;
      specialize (Hb 0%nat ltac:(lia)); congruence.
Qed.

Lemma store_event_gives_up_after_three_queries_witness :
  (Database.store_conversation_event (λ _, Raised)).2 = Raised ∧
  (Database.store_conversation_event (λ k, if decide (k = 2%nat) then Returned else Raised)).2
  = Returned.
Proof.
  split.
  - apply (store_event_gives_up_after_three_queries (λ _, Raised)). done.
  - apply (store_event_gives_up_after_three_queries
             (λ k, if decide (k = 2%nat) then Returned else Raised)).
    exists 2%nat. split; [lia|]. split; [reflexivity|].
    intros j Hj. destruct (decide (j = 2%nat)); [lia|reflexivity].
Defined.

(** ** safe_transaction *)

Section TransactionProofs.
Context {D : Type}.
Variable begin : D → D * outcome.
Variable commit : D → D * outcome.
Variable rollback : D → D * outcome.
Variable leave : bool → D → D * Database.exit_end.

Lemma run_operations_trace (index : nat) (operations : list (D → D * outcome)) (d : D) :
  ∃ n, (n ≤ length operations)%nat ∧
       (Database.run_operations index operations d).1.2
       = Database.Operation <$> seq index n ∧
       ((Database.run_operations index operations d).2 = Returned → n = length operations).
Proof.
  revert index d. induction operations as [|op ops IH]; intros index d; simpl.
  - exists 0%nat. done.
  - destruct (op d) as [d1 o] eqn:E. destruct o; simpl.
    + destruct (IH (S index) d1) as (n & Hn & Htr & Hret).
      destruct (Database.run_operations (S index) ops d1) as [[d2 tr] o2]; simpl in *.
      exists (S n). split; [lia|]. split; [by rewrite Htr|]. intros H. by rewrite Hret.
    + exists 1%nat. split; [lia|]. done.
    + exists 1%nat. split; [lia|]. done.
Qed.

Lemma operations_only (index n : nat) (x : Database.tx_step) :
  x ∈ Database.Operation <$> seq index n →
  ∃ i, x = Database.Operation i ∧ (index ≤ i < index + n)%nat.
Proof.
  intros (i & -> & Hi)%list_elem_of_fmap. exists i. split; [done|].
  by apply elem_of_seq in Hi.
Qed.

(** Which operations the loop awaits: the one at place [i] exactly when
    the [i] operations before it all returned. *)
Lemma run_operations_awaited (index : nat) (operations : list (D → D * outcome))
    (d : D) (i : nat) :
  Database.Operation (index + i) ∈ (Database.run_operations index operations d).1.2 ↔
  (i < length operations)%nat ∧
  (Database.run_operations index (take i operations) d).2 = Returned.
Proof.
  revert index d i. induction operations as [|op ops IH]; intros index d i.
  - simpl. rewrite elem_of_nil. split; [done|]. intros [H _]. lia.
  - destruct i as [|j].
    + simpl. destruct (op d) as [d1 o] eqn:E. rewrite Nat.add_0_r.
      destruct o; simpl.
      * destruct (Database.run_operations (S index) ops d1) as [[d2 tr] o2]; simpl.
        rewrite elem_of_cons. split; [intros _; split; [lia|done]|by left].
      * rewrite elem_of_cons. split; [intros _; split; [lia|done]|by left].
      * rewrite elem_of_cons. split; [intros _; split; [lia|done]|by left].
    + specialize (IH (S index) (op d).1 j).
      replace (S index + j)%nat with (index + S j)%nat in IH by lia.
      simpl. destruct (op d) as [d1 o] eqn:E. simpl in IH.
      destruct o; simpl.
      * destruct (Database.run_operations (S index) ops d1) as [[d2 tr] o2]; simpl in *.
        destruct (Database.run_operations (S index) (take j ops) d1) as [[d3 tr3] o3];
          simpl in *.
        rewrite elem_of_cons, IH.
        split.
        -- intros [[= H]|[H1 H2]]; [lia|]. split; [lia|done].
        -- intros [H1 H2]. right. split; [lia|done].
      * rewrite elem_of_cons, elem_of_nil.
        split; [intros [[= H]|[]]; lia|]. by intros [_ H].
      * rewrite elem_of_cons, elem_of_nil.
        split; [intros [[= H]|[]]; lia|]. by intros [_ H].
Qed.

(** The steps of a transaction in their order: the begin, the operations
    from the first on, then of commit, rollback and exit those that are
    taken. *)
Lemma safe_transaction_steps (operations : list (D → D * outcome)) (d : D) :
  ∃ n tail,
    (Database.safe_transaction begin commit rollback leave operations d).1.2
    = Database.Begin :: (Database.Operation <$> seq 0 n) ++ tail ∧
    tail `sublist_of` [Database.Commit; Database.Rollback; Database.Exit].
Proof.
  unfold Database.safe_transaction, Database.transaction_body.
  destruct (begin d) as [d0 ob]; simpl.
  destruct (run_operations_trace 0 operations d0) as (n & _ & Htr & _).
  destruct (Database.run_operations 0 operations d0) as [[d1 tr] o]; simpl in *.
  subst tr.
  destruct ob; simpl.
  - exists n. destruct o; simpl.
    + destruct (commit d1) as [d2 oc]; simpl. destruct oc; simpl.
      * destruct (leave false d2) as [d3 e]; simpl.
        exists [Database.Commit; Database.Exit]. rewrite <- app_assoc.
        split; [done|]. repeat constructor.
      * destruct (rollback d2) as [d3 o3]; simpl.
        destruct o3; simpl; try destruct (leave true d3) as [d4 e]; simpl.
        -- exists [Database.Commit; Database.Rollback; Database.Exit].
           rewrite <- !app_assoc. split; [done|]. repeat constructor.
        -- exists [Database.Commit; Database.Rollback; Database.Exit].
           rewrite <- !app_assoc. split; [done|]. repeat constructor.
        -- exists [Database.Commit; Database.Rollback].
           rewrite <- !app_assoc. split; [done|]. repeat constructor.
      * exists [Database.Commit]. split; [done|]. repeat constructor.
    + destruct (rollback d1) as [d3 o3]; simpl.
      destruct o3; simpl; try destruct (leave true d3) as [d4 e]; simpl.
      * exists [Database.Rollback; Database.Exit].
        rewrite <- !app_assoc. split; [done|]. repeat constructor.
      * exists [Database.Rollback; Database.Exit].
        rewrite <- !app_assoc. split; [done|]. repeat constructor.
      * exists [Database.Rollback]. split; [done|]. repeat constructor.
    + exists []. rewrite app_nil_r. split; [done|]. repeat constructor.
  - exists 0%nat, []. split; [done|]. repeat constructor.
  - exists 0%nat, []. split; [done|]. repeat constructor.
Qed.

(** The operations among the steps of a transaction are those of the
    loop. *)
Lemma safe_transaction_operations (operations : list (D → D * outcome)) (d : D) (i : nat) :
  Database.Operation i
    ∈ (Database.safe_transaction begin commit rollback leave operations d).1.2 ↔
  (begin d).2 = Returned ∧
  Database.Operation i ∈ (Database.run_operations 0 operations (begin d).1).1.2.
Proof.
  unfold Database.safe_transaction, Database.transaction_body.
  destruct (begin d) as [d0 ob]; simpl.
  destruct (Database.run_operations 0 operations d0) as [[d1 tr] o]; simpl in *.
  destruct ob; simpl.
  - destruct o; simpl.
    + destruct (commit d1) as [d2 oc]; simpl. destruct oc; simpl.
      * destruct (leave false d2) as [d3 e]; simpl.
        repeat setoid_rewrite elem_of_cons; repeat setoid_rewrite elem_of_app;
          repeat setoid_rewrite elem_of_cons; setoid_rewrite elem_of_nil.
        naive_solver.
      * destruct (rollback d2) as [d3 o3]; simpl.
        destruct o3; simpl; try destruct (leave true d3) as [d4 e]; simpl;
          repeat setoid_rewrite elem_of_cons; repeat setoid_rewrite elem_of_app;
          repeat setoid_rewrite elem_of_cons; setoid_rewrite elem_of_nil;
          naive_solver.
      * repeat setoid_rewrite elem_of_cons; repeat setoid_rewrite elem_of_app;
          repeat setoid_rewrite elem_of_cons; setoid_rewrite elem_of_nil;
          naive_solver.
    + destruct (rollback d1) as [d3 o3]; simpl.
      destruct o3; simpl; try destruct (leave true d3) as [d4 e]; simpl;
        repeat setoid_rewrite elem_of_cons; repeat setoid_rewrite elem_of_app;
        repeat setoid_rewrite elem_of_cons; setoid_rewrite elem_of_nil;
        naive_solver.
    + repeat setoid_rewrite elem_of_cons. naive_solver.
  - repeat setoid_rewrite elem_of_cons. setoid_rewrite elem_of_nil. naive_solver.
  - repeat setoid_rewrite elem_of_cons. setoid_rewrite elem_of_nil. naive_solver.
Qed.

(** What the steps of a transaction say of its operations, its commit
    and its rollback. *)
Lemma safe_transaction_commit_rollback
    (operations : list (D → D * outcome)) (d : D) :
  let r := Database.safe_transaction begin commit rollback leave operations d in
  let b := Database.run_operations 0 operations (begin d).1 in
  (∀ i, Database.Operation i ∈ r.1.2 →
        (i < length operations)%nat ∧ ∀ j, (j < i)%nat → Database.Operation j ∈ r.1.2) ∧
  (Database.Commit ∈ r.1.2 ↔ (begin d).2 = Returned ∧ b.2 = Returned) ∧
  (Database.Commit ∈ r.1.2 →
   ∀ i, (i < length operations)%nat → Database.Operation i ∈ r.1.2) ∧
  (Database.Rollback ∈ r.1.2 ↔
   (begin d).2 = Returned ∧
   (b.2 = Raised ∨ (b.2 = Returned ∧ (commit b.1.1).2 = Raised))) ∧
  (r.2 = Returned → Database.Commit ∈ r.1.2 ∨ Database.Rollback ∈ r.1.2).
Proof.
  cbv zeta. unfold Database.safe_transaction, Database.transaction_body.
  destruct (begin d) as [d0 ob]; simpl.
  destruct (run_operations_trace 0 operations d0) as (n & Hn & Htr & Hret).
  destruct (Database.run_operations 0 operations d0) as [[d1 tr] o]; simpl in *.
  subst tr.
  assert (∀ i, Database.Operation i ∈ Database.Operation <$> seq 0 n ↔ (i < n)%nat) as HO.
  { intros i. split.
    - intros (j & [= ->] & Hj)%operations_only. lia.
    - intros Hi. apply list_elem_of_fmap. exists i. split; [done|].
      apply elem_of_seq. lia. }
  assert (Database.Commit ∈ Database.Operation <$> seq 0 n ↔ False) as HC.
  { split; [|done]. by intros (i & ? & _)%operations_only. }
  assert (Database.Rollback ∈ Database.Operation <$> seq 0 n ↔ False) as HR.
  { split; [|done]. by intros (i & ? & _)%operations_only. }
  generalize dependent (Database.Operation <$> seq 0 n). intros ops HO HC HR.
  destruct ob; simpl.
  - destruct o; simpl.
    + specialize (Hret eq_refl). subst n.
      destruct (commit d1) as [d2 oc]; simpl. destruct oc; simpl.
      * destruct (leave false d2) as [d3 e]; simpl.
        setoid_rewrite elem_of_cons. setoid_rewrite elem_of_app.
        setoid_rewrite elem_of_app. setoid_rewrite elem_of_cons.
        setoid_rewrite elem_of_nil. setoid_rewrite HO. rewrite HC, HR.
        naive_solver lia.
      * destruct (rollback d2) as [d3 o3]; simpl.
        destruct o3; simpl; try destruct (leave true d3) as [d4 e]; simpl;
          repeat setoid_rewrite elem_of_cons; repeat setoid_rewrite elem_of_app;
          repeat setoid_rewrite elem_of_cons;
          setoid_rewrite elem_of_nil; setoid_rewrite HO; rewrite HC, HR;
          naive_solver lia.
      * repeat setoid_rewrite elem_of_cons; repeat setoid_rewrite elem_of_app;
          repeat setoid_rewrite elem_of_cons;
          setoid_rewrite elem_of_nil; setoid_rewrite HO; rewrite HC, HR;
          naive_solver lia.
    + destruct (rollback d1) as [d3 o3]; simpl.
      destruct o3; simpl; try destruct (leave true d3) as [d4 e]; simpl;
        repeat setoid_rewrite elem_of_cons; repeat setoid_rewrite elem_of_app;
        repeat setoid_rewrite elem_of_cons;
        setoid_rewrite elem_of_nil; setoid_rewrite HO; rewrite HC, HR;
        naive_solver lia.
    + repeat setoid_rewrite elem_of_cons;
        setoid_rewrite HO; rewrite HC, HR;
        naive_solver lia.
  - repeat setoid_rewrite elem_of_cons. setoid_rewrite elem_of_nil. naive_solver.
  - repeat setoid_rewrite elem_of_cons. setoid_rewrite elem_of_nil. naive_solver.
Qed.


End TransactionProofs.


(** ** handle_connection_error *)

Section RecoveryProofs.
Context {W : Type}.
Variable reconnect : W → W * outcome.
Variable is_connected : W → bool.
Variable egress_started : W → bool.
Variable has_room : W → bool.
Variable stop_recording : W → W * outcome.
Variable finalize_conversation : W → W * outcome.
Variable broadcast_shutdown_event : W → W * outcome.
Variable room_disconnect : W → W * outcome.

(** An exception of the [try] block of [graceful_shutdown] is never
    raised to the caller: the call raises only when [room.disconnect]
    does. *)
Lemma graceful_shutdown_raises (w : W) :
  (Agent.graceful_shutdown egress_started has_room stop_recording finalize_conversation
     broadcast_shutdown_event room_disconnect w).2 = Raised →
  ∃ w1, has_room w1 = true ∧ (room_disconnect w1).2 = Raised.
Proof.
  unfold Agent.graceful_shutdown.
  destruct (Agent.shutdown_steps _ _ _ _ w) as [w1 o].
  destruct o; try done;
    (destruct (has_room w1) eqn:E; [intros H; by exists w1|done]).
Qed.

Lemma reconnect_loop_steps (attempts : list nat) (w : W) :
  (Recovery.reconnect_loop reconnect attempts w).1.2.*1
    `prefix_of` (λ attempt, seconds (2 ^ Z.of_nat attempt)) <$> attempts ∧
  (Recovery.reconnect_loop reconnect attempts w).2 ≠ Raised ∧
  (attempts ≠ [] → (Recovery.reconnect_loop reconnect attempts w).1.2 ≠ []) ∧
  (∀ i step, (Recovery.reconnect_loop reconnect attempts w).1.2 !! i = Some step →
             (S i < length (Recovery.reconnect_loop reconnect attempts w).1.2)%nat →
             step.2 = Raised).
Proof.
  revert w. induction attempts as [|k l IH]; intros w; simpl.
  { split; [done|]. split; [done|]. split; [done|]. intros i step H. done. }
  destruct (reconnect w) as [w1 o]. destruct o; simpl.
  - split; [apply prefix_cons, prefix_nil|]. split; [done|]. split; [done|].
    intros i step Hi Hlt. simpl in Hlt. lia.
  - destruct (IH w1) as (Hp & Hr & _ & Hall).
    destruct (Recovery.reconnect_loop reconnect l w1) as [[w2 sl] o2]; simpl in *.
    split; [by apply prefix_cons|]. split; [done|]. split; [done|].
    intros [|i] step Hi Hlt; simpl in *.
    + by injection Hi as <-.
    + apply (Hall i step Hi). lia.
  - split; [apply prefix_cons, prefix_nil|]. split; [done|]. split; [done|].
    intros i step Hi Hlt. simpl in Hlt. lia.
Qed.

(** The steps of the loop, one by one: the step at place [i] is there
    exactly when the [i] reconnects before it all raised; it sleeps
    [2 ** attempt] seconds and then reconnects in the world those
    reconnects left. *)
Lemma reconnect_loop_step (k n : nat) (w : W) (i : nat) (step : Z * outcome) :
  (Recovery.reconnect_loop reconnect (seq k n) w).1.2 !! i = Some step ↔
  (i < n)%nat ∧
  step = (seconds (2 ^ Z.of_nat (k + i)),
          (reconnect (Nat.iter i (λ w, (reconnect w).1) w)).2) ∧
  ∀ j, (j < i)%nat → (reconnect (Nat.iter j (λ w, (reconnect w).1) w)).2 = Raised.
Proof.
  revert k w i. induction n as [|n IH]; intros k w i.
  { simpl. split; [done|]. intros [H _]. lia. }
  assert (∀ (P : nat → Prop) i,
            (∀ j, (j < S i)%nat → P j) ↔ P 0%nat ∧ ∀ j, (j < i)%nat → P (S j))
    as Hsplit.
  { intros P i'. split.
    - intros H. split; [apply H; lia|]. intros j Hj. apply H. lia.
    - intros [H0 HS] [|j] Hj; [done|]. apply HS. lia. }
  destruct i as [|i].
  - replace (k + 0)%nat with k by lia. cbn [seq Recovery.reconnect_loop].
    change (Nat.iter 0 (λ w, (reconnect w).1) w) with w.
    destruct (reconnect w) as [w1 o] eqn:E. simpl.
    destruct o; simpl.
    + split; [intros [= <-]; split; [lia|]; split; [done|]; intros j Hj; lia|].
      by intros (_ & -> & _).
    + destruct (Recovery.reconnect_loop reconnect (seq (S k) n) w1) as [[w2 sl] o2]; simpl.
      split; [intros [= <-]; split; [lia|]; split; [done|]; intros j Hj; lia|].
      by intros (_ & -> & _).
    + split; [intros [= <-]; split; [lia|]; split; [done|]; intros j Hj; lia|].
      by intros (_ & -> & _).
  - pose proof (Hsplit (λ j, (reconnect (Nat.iter j (λ w, (reconnect w).1) w)).2 = Raised) i)
      as Hs.
    cbv beta in Hs. rewrite Hs. clear Hs Hsplit.
    setoid_rewrite Nat.iter_succ_r. change (Nat.iter 0 (λ w, (reconnect w).1) w) with w.
    specialize (IH (S k) (reconnect w).1 i).
    replace (S k + i)%nat with (k + S i)%nat in IH by lia.
    cbn [seq Recovery.reconnect_loop Nat.iter].
    destruct (reconnect w) as [w1 o] eqn:E. simpl in *.
    destruct o; simpl.
    + split; [done|]. by intros (_ & _ & H & _).
    + destruct (Recovery.reconnect_loop reconnect (seq (S k) n) w1) as [[w2 sl] o2]; simpl in *.
      rewrite IH. split.
      * intros (H1 & H2 & H3). split; [lia|]. done.
      * intros (H1 & H2 & _ & H3). split; [lia|]. done.
    + split; [done|]. by intros (_ & _ & H & _).
Qed.

(** X13: [handle_connection_error] sleeps 1, 2 and 4 seconds before
    its first, second and third reconnect and makes no fourth: the
    reconnect at place [i] is made exactly when [i] is below three and
    the reconnects before it all raised, after a sleep of [2 ** i]
    seconds and in the world they left, so that a reconnect that raises
    is followed by the next one and none follows a reconnect that
    returns. A reconnect that raises is never raised to the caller: the
    call raises only when the [room.disconnect] of the shutdown does.
    Whether the agent shuts down is decided by [is_connected()] alone: a
    connection that is there after the loop is kept, whatever the
    reconnects did, and without one the call ends as the shutdown. *)
Theorem connection_error_backs_off_three_times (w : W) :
  let r := Recovery.handle_connection_error reconnect is_connected egress_started has_room
             stop_recording finalize_conversation broadcast_shutdown_event room_disconnect w in
  let l := Recovery.reconnect_loop reconnect (seq 0 3) w in
  let after i := Nat.iter i (λ w, (reconnect w).1) w in
  r.1.2.*1 `prefix_of` [seconds 1; seconds 2; seconds 4] ∧ r.1.2 ≠ [] ∧
  (∀ i step, r.1.2 !! i = Some step → (S i < length r.1.2)%nat → step.2 = Raised) ∧
  (r.2 = Raised → ∃ w1, has_room w1 = true ∧ (room_disconnect w1).2 = Raised) ∧
  (l.2 = Returned → is_connected l.1.1 = true → r.1.1 = l.1.1 ∧ r.2 = Returned) ∧
  (∀ i step, r.1.2 !! i = Some step ↔
             (i < 3)%nat ∧
             step = (seconds (2 ^ Z.of_nat i), (reconnect (after i)).2) ∧
             ∀ j, (j < i)%nat → (reconnect (after j)).2 = Raised) ∧
  (∀ i step, r.1.2 !! i = Some step → step.2 = Raised → (i < 2)%nat →
             r.1.2 !! S i
             = Some (seconds (2 ^ Z.of_nat (S i)), (reconnect (after (S i))).2)) ∧
  (l.2 ≠ Blocked → is_connected l.1.1 = false →
   (r.1.1, r.2) = Agent.graceful_shutdown egress_started has_room stop_recording
                    finalize_conversation broadcast_shutdown_event room_disconnect l.1.1).
Proof.
  cbv zeta.
  assert ((Recovery.handle_connection_error reconnect is_connected egress_started has_room
             stop_recording finalize_conversation broadcast_shutdown_event room_disconnect
             w).1.2
          = (Recovery.reconnect_loop reconnect (seq 0 3) w).1.2) as Hsteps.
  { unfold Recovery.handle_connection_error.
    destruct (Recovery.reconnect_loop reconnect (seq 0 3) w) as [[w1 sl] o]; simpl.
    destruct o; simpl; [| |done];
      (destruct (is_connected w1); simpl; [done|];
       by destruct (Agent.graceful_shutdown _ _ _ _ _ _ w1)). }
  assert (∀ i step,
            (Recovery.reconnect_loop reconnect (seq 0 3) w).1.2 !! i = Some step ↔
            (i < 3)%nat ∧
            step = (seconds (2 ^ Z.of_nat i),
                    (reconnect (Nat.iter i (λ w, (reconnect w).1) w)).2) ∧
            ∀ j, (j < i)%nat → (reconnect (Nat.iter j (λ w, (reconnect w).1) w)).2 = Raised)
    as Hstep.
  { intros i step. by rewrite (reconnect_loop_step 0 3 w i step). }
  rewrite Hsteps.
  destruct (reconnect_loop_steps (seq 0 3) w) as (Hp & Hr & Hne & Hall).
  specialize (Hne ltac:(done)).
  split; [done|]. split; [done|]. split; [done|].
  split.
  { unfold Recovery.handle_connection_error.
    destruct (Recovery.reconnect_loop reconnect (seq 0 3) w) as [[w1 sl] o]; simpl in *.
    destruct o; simpl; [|done|done].
    destruct (is_connected w1) eqn:Ec; simpl; [done|].
    pose proof (graceful_shutdown_raises w1) as Hg.
    by destruct (Agent.graceful_shutdown _ _ _ _ _ _ w1) as [w2 o2]. }
  split.
  { unfold Recovery.handle_connection_error.
    destruct (Recovery.reconnect_loop reconnect (seq 0 3) w) as [[w1 sl] o]; simpl in *.
    intros -> Hc. by rewrite Hc. }
  split; [exact Hstep|]. split.
  { intros i step Hi Hraised Hlt. apply Hstep.
    apply Hstep in Hi as (_ & -> & Hbefore). simpl in Hraised.
    split; [lia|]. split; [done|].
    intros j Hj. destruct (decide (j = i)) as [->|Hne']; [done|]. apply Hbefore. lia. }
  unfold Recovery.handle_connection_error.
  destruct (Recovery.reconnect_loop reconnect (seq 0 3) w) as [[w1 sl] o]; simpl in *.
  intros Hnb Hc. rewrite Hc.
  destruct o; simpl; [|done|done].
  by destruct (Agent.graceful_shutdown _ _ _ _ _ _ w1).
Qed.

End RecoveryProofs.

Lemma connection_error_backs_off_three_times_witness :
  (Recovery.handle_connection_error (reconnect_at 1) (λ _, true) (λ _, false) (λ _, false)
     call_ok call_ok call_ok call_ok 0%nat).1.2
  = [(seconds 1, Raised); (seconds 2, Returned)] ∧
  (∀ step, (Recovery.handle_connection_error (reconnect_at 1) (λ _, true) (λ _, false)
              (λ _, false) call_ok call_ok call_ok call_ok 0%nat).1.2 !! 0%nat = Some step →
           step.2 = Raised) ∧
  (Recovery.handle_connection_error (reconnect_at 1) (λ _, true) (λ _, false) (λ _, false)
     call_ok call_ok call_ok call_ok 0%nat).1.2 !! 1%nat
  = Some (seconds 2, Returned).
Proof.
  split; [vm_compute; reflexivity|].
  destruct (connection_error_backs_off_three_times (reconnect_at 1) (λ _, true) (λ _, false)
              (λ _, false) call_ok call_ok call_ok call_ok 0%nat)
    as (_ & _ & H & _ & _ & _ & Hnext & _).
  split.
  - intros step Hs. apply (H 0%nat step Hs). vm_compute. lia.
  - apply (Hnext 0%nat (seconds 1, Raised)); [reflexivity|reflexivity|lia].
Defined.

(** ** Reconnection of the frontend *)

Lemma connect_unopened (n : nat) (sockets : list Reconnect.socket) :
  (∀ ws, ws ∈ sockets → Reconnect.opened ws = false) →
  Reconnect.connect n sockets
    `prefix_of` (λ k, Reconnect.reconnectDelay * 2 ^ Z.of_nat k)
                  <$> seq n (Reconnect.maxReconnectAttempts - n).
Proof.
  revert n. induction sockets as [|ws l IH]; intros n Hall; simpl; [apply prefix_nil|].
  rewrite (Hall ws) by (by left).
  destruct (Reconnect.wasClean ws); simpl; [apply prefix_nil|].
  case_bool_decide as Hlt; [|apply prefix_nil].
  replace (Reconnect.maxReconnectAttempts - n)%nat
    with (S (Reconnect.maxReconnectAttempts - S n)) by lia.
  simpl. apply prefix_cons, IH. intros ws' Hin. apply Hall. by right.
Qed.

(** Sockets that never open and never close cleanly are each followed by
    a reconnect, until the counter reaches the maximum. *)
Lemma connect_unopened_unclean (n : nat) (sockets : list Reconnect.socket) :
  (∀ ws, ws ∈ sockets → Reconnect.opened ws = false ∧ Reconnect.wasClean ws = false) →
  Reconnect.connect n sockets
  = take (length sockets)
      ((λ k, Reconnect.reconnectDelay * 2 ^ Z.of_nat k)
         <$> seq n (Reconnect.maxReconnectAttempts - n)).
Proof.
  revert n. induction sockets as [|ws l IH]; intros n Hall; simpl; [done|].
  destruct (Hall ws) as [-> ->]; [by left|]. simpl.
  case_bool_decide as Hlt.
  - replace (Reconnect.maxReconnectAttempts - n)%nat
      with (S (Reconnect.maxReconnectAttempts - S n)) by lia.
    simpl. f_equal. apply IH. intros ws' Hin. apply Hall. by right.
  - replace (Reconnect.maxReconnectAttempts - n)%nat with 0%nat by lia. done.
Qed.

(** X14: the frontend waits 1 s before its first reconnect and twice as
    long before each further one, never more than 16 s. A close that is
    not clean is followed by a reconnect: after 1 s when the connection
    had opened, which starts the count again, and after [2 ** n] seconds
    when it had not and [n] reconnects, fewer than five, were made since
    the last one that opened. So connections that never open and never
    close cleanly give reconnects after 1, 2, 4, 8 and 16 s, one for
    each, and after the fifth the frontend gives up; a clean close is
    never followed by a reconnect. *)
Theorem frontend_reconnects_at_most_five_times
    (reconnectAttempts : nat) (sockets : list Reconnect.socket) :
  (∀ d, d ∈ Reconnect.connect reconnectAttempts sockets →
        ∃ k, (k < 5)%nat ∧ d = 1000 * 2 ^ Z.of_nat k ∧ d ≤ 16000) ∧
  ((∀ ws, ws ∈ sockets → Reconnect.opened ws = false) →
   Reconnect.connect 0 sockets `prefix_of` [1000; 2000; 4000; 8000; 16000]) ∧
  (∀ i ws, sockets !! i = Some ws → Reconnect.wasClean ws = true →
           (length (Reconnect.connect reconnectAttempts sockets) ≤ i)%nat) ∧
  ((∀ ws, ws ∈ sockets → Reconnect.opened ws = false ∧ Reconnect.wasClean ws = false) →
   Reconnect.connect 0 sockets = take (length sockets) [1000; 2000; 4000; 8000; 16000]) ∧
  (∀ ws, Reconnect.wasClean ws = false → Reconnect.opened ws = true →
         Reconnect.connect reconnectAttempts (ws :: sockets)
         = 1000 :: Reconnect.connect 1 sockets) ∧
  (∀ ws, Reconnect.wasClean ws = false → Reconnect.opened ws = false →
         (reconnectAttempts < 5)%nat →
         Reconnect.connect reconnectAttempts (ws :: sockets)
         = 1000 * 2 ^ Z.of_nat reconnectAttempts
           :: Reconnect.connect (S reconnectAttempts) sockets) ∧
  (∀ ws, Reconnect.wasClean ws = true ∨
         (Reconnect.opened ws = false ∧ (5 ≤ reconnectAttempts)%nat) →
         Reconnect.connect reconnectAttempts (ws :: sockets) = []).
Proof.
  split; [|split; [|split; [|split; [|split; [|split]]]]].
  - revert reconnectAttempts.
    induction sockets as [|ws l IH]; intros n d; simpl.
    { intros H. by apply elem_of_nil in H. }
    destruct (negb (Reconnect.wasClean ws)); simpl;
      [|intros H; by apply elem_of_nil in H].
    case_bool_decide as Hlt; [|intros H; by apply elem_of_nil in H].
    intros [->|Hin]%elem_of_cons; [|by eapply IH].
    eexists. split; [exact Hlt|]. split; [done|].
    unfold Reconnect.maxReconnectAttempts in Hlt. unfold Reconnect.reconnectDelay.
    assert (2 ^ Z.of_nat (if Reconnect.opened ws then 0%nat else n) ≤ 2 ^ 4) as Hle
      by (apply Z.pow_le_mono_r; lia).
    lia.
  - intros Hall. apply (connect_unopened 0 sockets Hall).
  - revert reconnectAttempts.
    induction sockets as [|ws' l IH]; intros n i ws Hi Hc; [done|].
    destruct i as [|i]; simpl in *.
    + injection Hi as ->. rewrite Hc. simpl. lia.
    + pose proof (IH (S (if Reconnect.opened ws' then 0%nat else n)) i ws Hi Hc) as H.
      destruct (negb (Reconnect.wasClean ws') && _); simpl; lia.
  - intros Hall. by rewrite (connect_unopened_unclean 0 sockets Hall).
  - intros ws Hc Ho. simpl. rewrite Hc, Ho. simpl. done.
  - intros ws Hc Ho Hlt. simpl. rewrite Hc, Ho. simpl.
    by rewrite bool_decide_eq_true_2.
  - intros ws [Hc|[Ho Hge]]; simpl.
    + by rewrite Hc.
    + rewrite Ho. rewrite (bool_decide_eq_false_2 (reconnectAttempts < _)%nat).
      * by rewrite andb_false_r.
      * unfold Reconnect.maxReconnectAttempts. lia.
Qed.

Lemma frontend_reconnects_at_most_five_times_witness :
  Reconnect.connect 0 (replicate 7 {| Reconnect.opened := false; Reconnect.wasClean := false |})
  = [1000; 2000; 4000; 8000; 16000] ∧
  Reconnect.connect 3 [ {| Reconnect.opened := true; Reconnect.wasClean := false |};
                        {| Reconnect.opened := false; Reconnect.wasClean := false |} ]
  = [1000; 2000].
Proof.
  destruct (frontend_reconnects_at_most_five_times 0
              (replicate 7 {| Reconnect.opened := false; Reconnect.wasClean := false |}))
    as (_ & _ & _ & H & _).
  destruct (frontend_reconnects_at_most_five_times 3
              [ {| Reconnect.opened := false; Reconnect.wasClean := false |} ])
    as (_ & _ & _ & _ & H' & _).
  split.
  - rewrite H; [reflexivity|]. intros ws [-> _]%elem_of_replicate. done.
  - rewrite H'; reflexivity.
Defined.

(** ** The end of graceful_shutdown *)

(** X15: [graceful_shutdown] leaves the room whatever went wrong before:
    when the agent has a room and no step hangs, the call ends the way
    [room.disconnect] ends, also when stopping the recording, finalizing
    the conversation or notifying the admins raised; an exception of
    these three is never raised to the caller. When the disconnect
    returns, the agent is out of the room. *)
Theorem shutdown_leaves_the_room_after_any_failure (a : Agent.EnhancedAgent)
    (stop fin disc : outcome) (connected : bool) :
  Agent.room_connected a = Some connected →
  (Agent._egress_started a = true → stop ≠ Blocked) →
  fin ≠ Blocked →
  (broadcast_to_admins (Agent.manager a)
     (Agent.conversation_ended (Agent.conversation_id a))).2 ≠ Blocked →
  (Agent.agent_shutdown stop fin disc a).2 = disc ∧
  (disc = Returned →
   Agent.room_connected (Agent.agent_shutdown stop fin disc a).1 = Some false).
Proof.
  unfold Agent.agent_shutdown, Agent.graceful_shutdown, Agent.shutdown_steps,
    Agent.stop_recording, Agent.finalize_conversation, Agent.room_disconnect,
    Agent.broadcast_shutdown_event.
  destruct a as [cid eg rc ms mgr w]; simpl. intros -> Hstop Hfin Hb.
  destruct eg, stop, fin; simpl in *;
    try done; try (by destruct (Hstop eq_refl)); try (by destruct disc);
    destruct (broadcast_to_admins mgr (Agent.conversation_ended cid)) as [[mgr1 tr] o];
    simpl in *; destruct o, disc; simpl in *; done.
Qed.

Lemma shutdown_leaves_the_room_after_any_failure_witness :
  Agent.room_connected (Agent.agent_shutdown Raised Raised Returned watched_agent).1
  = Some false.
Proof.
  apply (shutdown_leaves_the_room_after_any_failure watched_agent Raised Raised Returned true);
    [reflexivity|discriminate|discriminate|vm_compute; discriminate|reflexivity].
Defined.

(** ** broadcast_conversation_update *)

Lemma update_loop_trace (m : Message) (items : list (string * Updates.Socket)) :
  (Updates.update_loop m items).2 = Returned →
  (Updates.update_loop m items).1.1 = (λ p, (p.1, Updates.send p.2 m)) <$> items ∧
  (∀ a, a ∈ (Updates.update_loop m items).1.2 ↔
        ∃ ws, (a, ws) ∈ items ∧ Updates.send ws m = Updates.Closed).
Proof.
  induction items as [|[a ws] l IH]; simpl.
  - intros _. split; [done|]. intros b. split; [intros H; by apply elem_of_nil in H|].
    intros (ws & H & _). by apply elem_of_nil in H.
  - destruct (Updates.send ws m) eqn:Es; try done;
      destruct (Updates.update_loop m l) as [[tr disc] o]; simpl in *;
      intros Ho; destruct (IH Ho) as [IH1 IH2]; (split; [by rewrite IH1|]);
      intros b.
    + rewrite IH2. split.
      * intros (ws' & Hin & Hs). exists ws'. split; [by right|done].
      * intros (ws' & [[= -> ->]|Hin]%elem_of_cons & Hs); [congruence|by exists ws'].
    + rewrite elem_of_cons, IH2. split.
      * intros [->|(ws' & Hin & Hs)]; [exists ws; split; [by left|done]|].
        exists ws'. split; [by right|done].
      * intros (ws' & [[= -> ->]|Hin]%elem_of_cons & Hs); [by left|right; by exists ws'].
Qed.

Lemma update_loop_prefix (m : Message) (items : list (string * Updates.Socket)) :
  (Updates.update_loop m items).1.1 `prefix_of` (λ p, (p.1, Updates.send p.2 m)) <$> items.
Proof.
  induction items as [|[a ws] l IH]; simpl; [done|].
  destruct (Updates.send ws m) eqn:Es;
    try destruct (Updates.update_loop m l) as [[tr disc] o]; simpl in *;
    try (by apply prefix_cons); apply prefix_cons, prefix_nil.
Qed.

Lemma delete_all_lookup (l : list string) (conns : gmap string Updates.Socket) (a : string) :
  foldl (λ c b, delete b c) conns l !! a = if decide (a ∈ l) then None else conns !! a.
Proof.
  revert conns. induction l as [|b l IH]; intros conns; simpl.
  - destruct (decide (a ∈ [])) as [H|H]; [by apply elem_of_nil in H|done].
  - rewrite IH. destruct (decide (a = b)) as [->|Hne].
    + rewrite lookup_delete_eq. rewrite (decide_True (P := b ∈ b :: l)) by (by left).
      by case_decide.
    + rewrite lookup_delete_ne by done.
      destruct (decide (a ∈ l)) as [Hl|Hl].
      * rewrite decide_True; [done|by right].
      * rewrite decide_False; [done|]. intros [?|?]%elem_of_cons; done.
Qed.

(** How the loop ends, by the sends of the connections. *)
Lemma update_loop_end (m : Message) (items : list (string * Updates.Socket)) :
  match (Updates.update_loop m items).2 with
  | Returned =>
      ∀ p, p ∈ items → Updates.send p.2 m = Updates.Sent ∨ Updates.send p.2 m = Updates.Closed
  | Raised => ∃ p, p ∈ items ∧ Updates.send p.2 m = Updates.OtherError
  | Blocked => ∃ p, p ∈ items ∧ Updates.send p.2 m = Updates.Stalled
  end.
Proof.
  induction items as [|[a ws] l IH]; simpl.
  - intros p H. by apply elem_of_nil in H.
  - destruct (Updates.send ws m) eqn:Es; simpl.
    + destruct (Updates.update_loop m l) as [[tr disc] o]; simpl in *.
      destruct o.
      * intros p [->|Hp]%elem_of_cons; [by left|by apply IH].
      * destruct IH as (p & Hp & Hs). exists p. split; [by right|done].
      * destruct IH as (p & Hp & Hs). exists p. split; [by right|done].
    + destruct (Updates.update_loop m l) as [[tr disc] o]; simpl in *.
      destruct o.
      * intros p [->|Hp]%elem_of_cons; [by right|by apply IH].
      * destruct IH as (p & Hp & Hs). exists p. split; [by right|done].
      * destruct IH as (p & Hp & Hs). exists p. split; [by right|done].
    + exists (a, ws). split; [by left|done].
    + exists (a, ws). split; [by left|done].
Qed.

(** The call ends as its loop. *)
Lemma update_call_end (connections : gmap string Updates.Socket) (conversation_id : string)
    (update : value) (timestamp : string) :
  (Updates.broadcast_conversation_update connections conversation_id update timestamp).2
  = (Updates.update_loop (Updates.conversation_update conversation_id update timestamp)
       (map_to_list connections)).2.
Proof.
  unfold Updates.broadcast_conversation_update.
  destruct (Updates.update_loop _ _) as [[tr disc] o]. by destruct o.
Qed.

(** What a call sends, and to which connections. *)
Lemma update_call_sends
    (connections : gmap string Updates.Socket) (conversation_id : string)
    (update : value) (timestamp : string) :
  let r := Updates.broadcast_conversation_update connections conversation_id update timestamp in
  let message := Updates.conversation_update conversation_id update timestamp in
  NoDup r.1.2.*1 ∧
  (∀ a e, (a, e) ∈ r.1.2 → ∃ ws, connections !! a = Some ws ∧ e = Updates.send ws message) ∧
  (r.2 = Returned →
   ∀ a ws, connections !! a = Some ws →
           (a, Updates.send ws message) ∈ r.1.2 ∧
           r.1.1 !! a = match Updates.send ws message with
                        | Updates.Closed => None
                        | _ => Some ws
                        end) ∧
  (r.2 ≠ Returned → r.1.1 = connections).
Proof.
  cbv zeta. unfold Updates.broadcast_conversation_update.
  set (message := Updates.conversation_update conversation_id update timestamp).
  pose proof (update_loop_prefix message (map_to_list connections)) as Hp.
  pose proof (update_loop_trace message (map_to_list connections)) as Ht.
  destruct (Updates.update_loop message (map_to_list connections)) as [[tr disc] o];
    simpl in *.
  assert (NoDup tr.*1 ∧
          ∀ a e, (a, e) ∈ tr → ∃ ws, connections !! a = Some ws ∧ e = Updates.send ws message)
    as [Hnd Hall].
  { destruct Hp as [k Hk]. split.
    - pose proof (NoDup_fst_map_to_list connections) as Hn.
      assert ((map_to_list connections).*1 = tr.*1 ++ k.*1) as Heq.
      { rewrite <- fmap_app, <- Hk, <- list_fmap_compose. done. }
      rewrite Heq in Hn. by apply NoDup_app in Hn as [? _].
    - intros a e Hin.
      assert ((a, e) ∈ (λ p : string * Updates.Socket, (p.1, Updates.send p.2 message))
                         <$> map_to_list connections) as Hin'.
      { rewrite Hk. apply elem_of_app. by left. }
      apply list_elem_of_fmap in Hin' as ([b ws] & [= -> ->] & Hb).
      exists ws. by apply elem_of_map_to_list in Hb. }
  destruct o; simpl; (split; [done|]); (split; [done|]); (split; [|done]); [|done|done].
  intros _ a ws Ha. destruct (Ht eq_refl) as [Htr Hd]. split.
  - rewrite Htr. apply list_elem_of_fmap. exists (a, ws). split; [done|].
    by apply elem_of_map_to_list.
  - rewrite delete_all_lookup. destruct (decide (a ∈ disc)) as [Hin|Hin].
    + apply Hd in Hin as (ws' & Hws' & Hs). apply elem_of_map_to_list in Hws'.
      rewrite Ha in Hws'. injection Hws' as <-. by rewrite Hs.
    + rewrite Ha. destruct (Updates.send ws message) eqn:Hs; try done.
      exfalso. apply Hin, Hd. exists ws. split; [|done]. by apply elem_of_map_to_list.
Qed.

(** X16: [broadcast_conversation_update] pays no attention to
    subscriptions: when it returns, every connected admin was sent the
    update of whatever conversation, once, and exactly the connections
    whose send raised [ConnectionClosed] are gone. When a send raises
    anything else, the call raises and removes nothing, not even the
    connections it found closed before: a call that returns has met no
    such send, and a call with such a send and none that stalls
    raises. *)
Theorem conversation_update_goes_to_every_connection
    (connections : gmap string Updates.Socket) (conversation_id : string)
    (update : value) (timestamp : string) :
  let r := Updates.broadcast_conversation_update connections conversation_id update timestamp in
  let message := Updates.conversation_update conversation_id update timestamp in
  NoDup r.1.2.*1 ∧
  (∀ a e, (a, e) ∈ r.1.2 → ∃ ws, connections !! a = Some ws ∧ e = Updates.send ws message) ∧
  (r.2 = Returned →
   ∀ a ws, connections !! a = Some ws →
           (a, Updates.send ws message) ∈ r.1.2 ∧
           r.1.1 !! a = match Updates.send ws message with
                        | Updates.Closed => None
                        | _ => Some ws
                        end) ∧
  (r.2 ≠ Returned → r.1.1 = connections) ∧
  (r.2 = Returned →
   ∀ a ws, connections !! a = Some ws →
           Updates.send ws message = Updates.Sent ∨
           Updates.send ws message = Updates.Closed) ∧
  (∀ a ws, connections !! a = Some ws → Updates.send ws message = Updates.OtherError →
           (∀ b wb, connections !! b = Some wb →
                    Updates.send wb message ≠ Updates.Stalled) →
           r.2 = Raised ∧ r.1.1 = connections).
Proof.
  cbv zeta.
  destruct (update_call_sends connections conversation_id update timestamp)
    as (H1 & H2 & H3 & H4).
  split; [exact H1|]. split; [exact H2|]. split; [exact H3|]. split; [exact H4|].
  pose proof (update_loop_end (Updates.conversation_update conversation_id update timestamp)
                (map_to_list connections)) as Hend.
  rewrite <- update_call_end in Hend.
  destruct (Updates.broadcast_conversation_update connections conversation_id update timestamp)
    as [[conns tr] o]; simpl in *.
  split.
  - intros -> a ws Ha. apply (Hend (a, ws)). by apply elem_of_map_to_list.
  - intros a ws Ha Hs Hno. destruct o.
    + destruct (Hend (a, ws)) as [H|H]; [by apply elem_of_map_to_list|simpl in H; congruence..].
    + split; [done|]. by apply H4.
    + destruct Hend as ([b wb] & Hb & Hst). apply elem_of_map_to_list in Hb.
      by destruct (Hno b wb Hb).
Qed.

Lemma conversation_update_goes_to_every_connection_witness :
  (Updates.broadcast_conversation_update update_listeners "room-42" VNone "12:00").1.1
    !! "admin-1" = None ∧
  ("admin-2", Updates.Sent)
    ∈ (Updates.broadcast_conversation_update update_listeners "room-42" VNone "12:00").1.2 ∧
  (Updates.broadcast_conversation_update update_listeners_failing "room-42" VNone "12:00").2
  = Raised ∧
  (Updates.broadcast_conversation_update update_listeners_failing "room-42" VNone "12:00").1.1
  = update_listeners_failing.
Proof.
  destruct (conversation_update_goes_to_every_connection update_listeners "room-42" VNone "12:00")
    as (_ & _ & H & _).
  destruct (conversation_update_goes_to_every_connection update_listeners_failing
              "room-42" VNone "12:00") as (_ & _ & _ & _ & _ & H').
  assert ((Updates.broadcast_conversation_update update_listeners "room-42" VNone "12:00").2
          = Returned) as Hret by (vm_compute; reflexivity).
  split; [|split].
  - destruct (H Hret "admin-1" {| Updates.send := λ _, Updates.Closed |}) as [_ Hl];
      [vm_compute; reflexivity|exact Hl].
  - destruct (H Hret "admin-2" {| Updates.send := λ _, Updates.Sent |}) as [Hl _];
      [vm_compute; reflexivity|exact Hl].
  - apply (H' "admin-2" {| Updates.send := λ _, Updates.OtherError |});
      [vm_compute; reflexivity|reflexivity|].
    intros b wb Hb.
    destruct (decide (b = "admin-1")) as [->|H1].
    { vm_compute in Hb. injection Hb as <-. discriminate. }
    destruct (decide (b = "admin-2")) as [->|H2].
    { vm_compute in Hb. injection Hb as <-. discriminate. }
    unfold update_listeners_failing in Hb.
    rewrite lookup_insert_ne in Hb by done. rewrite lookup_singleton_ne in Hb by done.
    discriminate Hb.
Defined.

(** ** The track handler of the agent *)

Lemma track_after_start (env : Egress.track_env) (a : Egress.AgentRecording)
    (publication : Egress.RemoteTrackPublication) (identity : string) :
  Egress._egress_started a = true →
  Egress.on_track_published env a publication identity = (a, [], Returned).
Proof.
  intros H. unfold Egress.on_track_published. rewrite H.
  by destruct (Egress.kind publication).
Qed.

Lemma tracks_after_start (a : Egress.AgentRecording)
    (tracks : list (Egress.track_env * Egress.RemoteTrackPublication * string)) :
  Egress._egress_started a = true → Egress.publish_tracks a tracks = (a, []).
Proof.
  intros H. induction tracks as [|[[env p] i] l IH]; simpl; [done|].
  rewrite track_after_start by done. by rewrite IH.
Qed.

(** One run of the handler from a state in which no egress was started:
    either it starts none, or it starts one and remembers it. *)
Lemma track_before_start (env : Egress.track_env) (a : Egress.AgentRecording)
    (publication : Egress.RemoteTrackPublication) (identity : string) :
  Egress._egress_started a = false →
  let r := Egress.on_track_published env a publication identity in
  (Egress._egress_started r.1.1 = false ∧ Egress.egress_ids r.1.2 = []) ∨
  (∃ id, Egress._egress_started r.1.1 = true ∧ Egress._egress_id r.1.1 = Some id ∧
         Egress.egress_ids r.1.2 = [id]).
Proof.
  intros H. cbv zeta. unfold Egress.on_track_published, Egress._start_egress_recording.
  rewrite H. simpl.
  destruct (Egress.kind publication); simpl; [|by left].
  destruct (Egress.room a) as [room_name|]; simpl.
  - destruct (Egress.start_ends env) as [id| |]; simpl.
    + right. exists id.
      destruct (Egress.update_ends env); simpl; try done;
        destruct (Egress.monitoring_ends env); simpl; done.
    + left. destruct (Egress.monitoring_ends env); simpl; done.
    + by left.
  - left. destruct (Egress.monitoring_ends env); simpl; done.
Qed.

Lemma egress_ids_app (tr1 tr2 : list Egress.agent_call) :
  Egress.egress_ids (tr1 ++ tr2) = Egress.egress_ids tr1 ++ Egress.egress_ids tr2.
Proof. unfold Egress.egress_ids. apply omap_app. Qed.

(** X17: if the handler runs for one publication after the other, at
    most one egress is ever started, and its identifier is the one the
    agent keeps. Once an egress is started, the handler does nothing at
    all for any further track: no monitoring of it and no notification. *)
Theorem recording_is_started_at_most_once (a : Egress.AgentRecording)
    (tracks : list (Egress.track_env * Egress.RemoteTrackPublication * string)) :
  let r := Egress.publish_tracks a tracks in
  (Egress._egress_started a = true → r = (a, [])) ∧
  (Egress._egress_started a = false →
   (Egress._egress_started r.1 = false ∧ Egress.egress_ids r.2 = []) ∨
   (∃ id, Egress._egress_started r.1 = true ∧ Egress._egress_id r.1 = Some id ∧
          Egress.egress_ids r.2 = [id])).
Proof.
  cbv zeta. split; [apply tracks_after_start|].
  revert a. induction tracks as [|[[env p] i] l IH]; intros a H; simpl; [by left|].
  pose proof (track_before_start env a p i H) as H1. cbv zeta in H1.
  destruct (Egress.on_track_published env a p i) as [[a1 tr] o]; simpl in *.
  assert (Egress.publish_tracks a1 l = ((Egress.publish_tracks a1 l).1,
                                        (Egress.publish_tracks a1 l).2)) as Hpair
    by (by destruct (Egress.publish_tracks a1 l)).
  destruct H1 as [[Hs Hids]|(id & Hs & Hid & Hids)].
  - specialize (IH a1 Hs).
    destruct o; simpl; [| |by left];
      rewrite Hpair; simpl; rewrite egress_ids_app, Hids; simpl; exact IH.
  - destruct o; simpl; [| |right; by exists id];
      rewrite (tracks_after_start a1 l Hs); simpl; rewrite app_nil_r;
      right; by exists id.
Qed.

Lemma recording_is_started_at_most_once_witness :
  Egress.egress_ids
    (Egress.publish_tracks idle_agent
       [(egress_fails, audio_track "TR_1", "customer_1");
        (egress_starts "EG_1", audio_track "TR_2", "customer_1");
        (egress_starts "EG_2", audio_track "TR_3", "customer_2")]).2 = ["EG_1"].
Proof.
  destruct (recording_is_started_at_most_once idle_agent
              [(egress_fails, audio_track "TR_1", "customer_1");
               (egress_starts "EG_1", audio_track "TR_2", "customer_1");
               (egress_starts "EG_2", audio_track "TR_3", "customer_2")]) as [_ H].
  destruct (H eq_refl) as [[Hs _]|(id & _ & Hid & Hids)].
  - vm_compute in Hs. discriminate Hs.
  - rewrite Hids. vm_compute in Hid. injection Hid as <-. reflexivity.
Defined.

(** X18: an egress that cannot be started does not fail the call: the
    handler raises only when starting the monitoring or notifying the
    dashboard raises. When the start raises, or the agent has no room,
    the agent stays without recording, so that the next audio track
    tries again, and the monitoring of the track is still started. *)
Theorem failed_egress_start_is_swallowed (env : Egress.track_env)
    (a : Egress.AgentRecording) (publication : Egress.RemoteTrackPublication)
    (identity : string) :
  Egress.kind publication = Egress.AUDIO →
  Egress._egress_started a = false →
  let r := Egress.on_track_published env a publication identity in
  (r.2 = Raised →
   Egress.monitoring_ends env = Raised ∨
   (Egress.monitoring_ends env = Returned ∧ Egress.notify_ends env = Raised)) ∧
  (Egress.start_ends env = Egress.StartRaised ∨ Egress.room a = None →
   Egress._egress_started r.1.1 = false ∧ Egress.egress_ids r.1.2 = [] ∧
   Egress.StartAudioMonitoring (Egress.sid publication) ∈ r.1.2 ∧
   (Egress.monitoring_ends env = Returned →
    Egress.NotifyAdminCallStarted identity ∈ r.1.2)).
Proof.
  intros Hk Hs. cbv zeta.
  unfold Egress.on_track_published, Egress._start_egress_recording.
  rewrite Hk, Hs. simpl.
  destruct (Egress.room a) as [room_name|]; simpl.
  - destruct (Egress.start_ends env) as [id| |] eqn:Es; simpl.
    + split; [|by intros [?|?]].
      destruct (Egress.update_ends env); simpl; try done;
        destruct (Egress.monitoring_ends env); simpl; try done;
        intros H; (by left) || (right; by split).
    + destruct (Egress.monitoring_ends env); simpl;
        (split; [intros H; (by left) || (right; by split) || done|]);
        intros _; (repeat split; try done); set_solver.
    + split; [done|]. by intros [?|?].
  - destruct (Egress.monitoring_ends env); simpl;
      (split; [intros H; (by left) || (right; by split) || done|]);
      intros _; (repeat split; try done); set_solver.
Qed.

Lemma failed_egress_start_is_swallowed_witness :
  Egress.NotifyAdminCallStarted "customer_1"
    ∈ (Egress.on_track_published egress_fails idle_agent (audio_track "TR_1") "customer_1").1.2.
Proof.
  destruct (failed_egress_start_is_swallowed egress_fails idle_agent (audio_track "TR_1")
              "customer_1" eq_refl eq_refl) as [_ H].
  destruct H as (_ & _ & _ & H); [left; reflexivity|]. apply H. reflexivity.
Defined.

(** ** EgressRecordingManager *)

(** X19: in every state an [EgressRecordingManager] gets into, the
    status tells about the egress: [pending] means that none was ever
    started, and stopping then contacts nobody and returns [None];
    [recording] means that an identifier is kept; [stopped] and [error]
    are only reached with a non-empty identifier, that of the egress the
    client was asked to stop. *)
Theorem recording_status_tells_about_the_egress (m : Egress.EgressRecordingManager) :
  Egress.reachable_recording m →
  (Egress.recording_status m = "pending" →
   Egress.egress_id m = None ∧
   ∀ response, Egress.stop_recording response m = (m, [], Gave None)) ∧
  (Egress.recording_status m = "recording" → is_Some (Egress.egress_id m)) ∧
  (Egress.recording_status m = "stopped" ∨ Egress.recording_status m = "error" →
   ∃ id, Egress.egress_id m = Some id ∧ id ≠ "").
Proof.
  assert (∀ m, (Egress.recording_status m = "pending" → Egress.egress_id m = None) →
               (Egress.recording_status m = "pending" →
                Egress.egress_id m = None ∧
                ∀ response, Egress.stop_recording response m = (m, [], Gave None))) as Hstop.
  { intros m' H Hp. split; [by apply H|]. intros response.
    unfold Egress.stop_recording. by rewrite (H Hp). }
  intros Hr.
  assert ((Egress.recording_status m = "pending" → Egress.egress_id m = None) ∧
          (Egress.recording_status m = "recording" → is_Some (Egress.egress_id m)) ∧
          (Egress.recording_status m = "stopped" ∨ Egress.recording_status m = "error" →
           ∃ id, Egress.egress_id m = Some id ∧ id ≠ "")) as (H1 & H2 & H3).
  { induction Hr as [cid|response m room_name Hr IH|response m Hr IH].
    - simpl. split; [done|]. split; [discriminate|]. intros [?|?]; discriminate.
    - destruct response as [id| |]; simpl; [| |exact IH].
      + split; [discriminate|]. split; [by eexists|]. intros [?|?]; discriminate.
      + split; [discriminate|]. split; [discriminate|]. intros [?|?]; discriminate.
    - unfold Egress.stop_recording.
      destruct (Egress.egress_id m) as [id|] eqn:Eid; simpl; [|by rewrite Eid].
      destruct (String.eqb id "") eqn:Ee; simpl; [by rewrite Eid|].
      assert (id ≠ "") as Hne by (intros ->; discriminate Ee).
      destruct response as [url| |]; simpl; [| |by rewrite Eid].
      + split; [discriminate|]. split; [discriminate|]. intros _. by exists id.
      + split; [discriminate|]. split; [discriminate|]. intros _. by exists id. }
  split; [by apply Hstop|]. by split.
Qed.

Lemma recording_status_tells_about_the_egress_witness :
  Egress.stop_recording (Egress.Stopped (Some "https://files/rec.mp4"))
    (Egress.new_recording "room-42")
  = (Egress.new_recording "room-42", [], Gave None).
Proof.
  destruct (recording_status_tells_about_the_egress (Egress.new_recording "room-42")
              (Egress.reach_new_recording "room-42")) as [H _].
  destruct (H eq_refl) as [_ Hs]. apply Hs.
Defined.

(** ** Tokens and the routing of participants *)

Lemma prefix_admin (id : string) : String.prefix "admin_" ("admin_" +:+ id) = true.
Proof. destruct id; reflexivity. Qed.

(** X20: the identity of every admin token, of [generate_admin_token]
    and of [setup_admin_monitoring], is handed to the admin monitoring by
    [on_participant_connected], and the identity [get_token] returns is
    the one in its token and is always handed to the conversation
    tracking. The two other customer tokens carry the identity they are
    given: such a participant is treated as an admin exactly when that
    identity begins with [admin_], although the token lets it publish. *)
Theorem participants_are_routed_by_their_token
    (API_KEY API_SECRET room_name id uuid_room uuid_identity : string)
    (hidden_default : bool) (request : Participants.TokenRequest) :
  (∀ j, Auth.generate_admin_token API_KEY API_SECRET room_name id = Auth.Ok j →
        Participants.on_participant_connected (Auth.identity (Auth.jwt_claims j))
        = Participants.SetupAdminMonitoring) ∧
  (∀ j, Auth.setup_admin_monitoring API_KEY API_SECRET id room_name = Auth.Ok j →
        Participants.on_participant_connected (Auth.identity (Auth.jwt_claims j))
        = Participants.SetupAdminMonitoring) ∧
  (∀ r, Participants.get_token API_KEY API_SECRET hidden_default request
          uuid_room uuid_identity Returned = Participants.Response r →
        Auth.identity (Auth.jwt_claims (Participants.token r))
        = Participants.participant_identity r ∧
        Participants.on_participant_connected (Participants.participant_identity r)
        = Participants.StartConversationTracking) ∧
  (∀ j, j = Participants.generate_customer_token API_KEY API_SECRET hidden_default room_name id ∨
        j = Participants.generate_room_token API_KEY API_SECRET hidden_default room_name id →
        (Participants.on_participant_connected (Auth.identity (Auth.jwt_claims j))
         = Participants.SetupAdminMonitoring ↔ String.prefix "admin_" id = true) ∧
        ∃ g, Auth.grants (Auth.jwt_claims j) = Some g ∧ Auth.can_publish g = true).
Proof.
  split; [|split; [|split]].
  - intros j [= <-].
    change (Participants.on_participant_connected ("admin_" +:+ id)
            = Participants.SetupAdminMonitoring).
    unfold Participants.on_participant_connected. by rewrite prefix_admin.
  - intros j [= <-].
    change (Participants.on_participant_connected ("admin_" +:+ id)
            = Participants.SetupAdminMonitoring).
    unfold Participants.on_participant_connected. by rewrite prefix_admin.
  - intros r [= <-]. split; [reflexivity|]. reflexivity.
  - intros j [-> | ->]; simpl; unfold Participants.on_participant_connected;
      (split; [|by eexists]);
      destruct (String.prefix "admin_" id); split; done.
Qed.

Lemma participants_are_routed_by_their_token_witness :
  Participants.on_participant_connected
    (Auth.identity (Auth.jwt_claims
       (Participants.generate_customer_token "key" "secret" false "room-42" "admin_7")))
  = Participants.SetupAdminMonitoring.
Proof.
  destruct (participants_are_routed_by_their_token "key" "secret" "room-42" "admin_7" "u1" "u2"
              false {| Participants.room_name := None; Participants.participant_name := None |})
    as (_ & _ & _ & H).
  destruct (H _ (or_introl eq_refl)) as [Hr _]. apply Hr. reflexivity.
Defined.

(** ** The audio stream *)

Lemma stream_step_ends (conversation_id : string) (t : Streaming.tick)
    (step : list attempt * sweep_end) :
  Streaming.stream_step conversation_id t = Some step →
  step.2 ≠ Logged ∧
  (step.2 = Slept 100000 ∨ step.2 = Slept (seconds 1) ∨ step.2 = Hung) ∧
  (Streaming.chunk t = Streaming.ChunkRaised → step = ([], Slept (seconds 1))) ∧
  (Streaming.chunk t = Streaming.NoChunk → step = ([], Slept 100000)) ∧
  (∀ e ts r, Streaming.chunk t = Streaming.Chunk e ts →
     broadcast_audio_chunk_live (Streaming.manager t) conversation_id e ts
       (Streaming.others t) = Some r →
     step.1 = r.1.2 ∧ (r.2 = Raised → step.2 = Slept (seconds 1)) ∧
     (r.2 = Returned → step.2 = Slept 100000)) ∧
  (step.2 = Slept (seconds 1) →
   Streaming.chunk t = Streaming.ChunkRaised ∨
   ((∃ e ts, Streaming.chunk t = Streaming.Chunk e ts) ∧ ¬ quiet (Streaming.others t))) ∧
  (∀ x, x ∈ step.1 →
        att_admin x ∈ default ∅ (conversation_subscriptions (Streaming.manager t)
                                   !! conversation_id)).
Proof.
  unfold Streaming.stream_step.
  destruct (Streaming.chunk t) as [e ts| | |] eqn:Ec; simpl.
  - destruct (broadcast_audio_chunk_live (Streaming.manager t) conversation_id e ts
                (Streaming.others t)) as [[[s1 tr] o]|] eqn:E; [|done].
    simpl. intros [= <-]. simpl.
    destruct (audio_live_sends (Streaming.manager t) conversation_id e ts
                (Streaming.others t) _ E) as [Hsub Hr]. simpl in *.
    split; [by destruct o|]. split; [destruct o; auto|].
    split; [done|]. split; [done|]. split.
    { intros e' ts' r [= <- <-] Hlive. rewrite E in Hlive. injection Hlive as <-. simpl.
      split; [done|]. split; by intros ->. }
    split.
    + intros Ho. right. split; [by eexists _, _|].
      destruct o; try done. by apply Hr.
    + intros x Hx. by apply Hsub.
  - intros [= <-]. simpl. split; [done|]. split; [auto|]. split; [done|]. split; [done|].
    split; [done|]. split; [done|]. intros x Hx. by apply elem_of_nil in Hx.
  - intros [= <-]. simpl. split; [done|]. split; [auto|]. split; [done|]. split; [done|].
    split; [done|]. split; [by left|]. intros x Hx. by apply elem_of_nil in Hx.
  - intros [= <-]. simpl. split; [done|]. split; [auto|]. split; [done|]. split; [done|].
    split; [done|]. split; [done|]. intros x Hx. by apply elem_of_nil in Hx.
Qed.

(** What the loop does in each of its iterations. *)
Lemma stream_steps (conversation_id : string)
    (ticks : list Streaming.tick) (steps : list (list attempt * sweep_end)) :
  Streaming._stream_audio_to_admins conversation_id ticks = Some steps →
  (∀ i step, steps !! i = Some step →
     ∃ t, ticks !! i = Some t ∧ Streaming.stream_step conversation_id t = Some step ∧
          step.2 ≠ Logged ∧
          (step.2 = Slept 100000 ∨ step.2 = Slept (seconds 1) ∨ step.2 = Hung) ∧
          (Streaming.chunk t = Streaming.ChunkRaised → step = ([], Slept (seconds 1))) ∧
          (Streaming.chunk t = Streaming.NoChunk → step = ([], Slept 100000)) ∧
          (∀ e ts r, Streaming.chunk t = Streaming.Chunk e ts →
             broadcast_audio_chunk_live (Streaming.manager t) conversation_id e ts
               (Streaming.others t) = Some r →
             step.1 = r.1.2 ∧ (r.2 = Raised → step.2 = Slept (seconds 1)) ∧
             (r.2 = Returned → step.2 = Slept 100000)) ∧
          (step.2 = Slept (seconds 1) →
           Streaming.chunk t = Streaming.ChunkRaised ∨
           ((∃ e ts, Streaming.chunk t = Streaming.Chunk e ts) ∧
            ¬ quiet (Streaming.others t))) ∧
          (∀ x, x ∈ step.1 →
                att_admin x ∈ default ∅ (conversation_subscriptions (Streaming.manager t)
                                           !! conversation_id))) ∧
  ((∀ step, step ∈ steps → step.2 ≠ Hung) → length steps = length ticks).
Proof.
  revert steps. induction ticks as [|t l IH]; intros steps; simpl.
  { intros [= <-]. split; [intros i step H; done|done]. }
  destruct (Streaming.stream_step conversation_id t) as [step0|] eqn:E0; [|done]. simpl.
  pose proof (stream_step_ends conversation_id t step0 E0) as H0.
  assert (∀ rest, steps = step0 :: rest →
            Streaming._stream_audio_to_admins conversation_id l = Some rest →
            (∀ i step, steps !! i = Some step →
               ∃ t0, (t :: l) !! i = Some t0 ∧
                     Streaming.stream_step conversation_id t0 = Some step ∧
                     step.2 ≠ Logged ∧
                     (step.2 = Slept 100000 ∨ step.2 = Slept (seconds 1) ∨ step.2 = Hung) ∧
                     (Streaming.chunk t0 = Streaming.ChunkRaised → step = ([], Slept (seconds 1))) ∧
                     (Streaming.chunk t0 = Streaming.NoChunk → step = ([], Slept 100000)) ∧
                     (∀ e ts r, Streaming.chunk t0 = Streaming.Chunk e ts →
                        broadcast_audio_chunk_live (Streaming.manager t0) conversation_id e ts
                          (Streaming.others t0) = Some r →
                        step.1 = r.1.2 ∧ (r.2 = Raised → step.2 = Slept (seconds 1)) ∧
                        (r.2 = Returned → step.2 = Slept 100000)) ∧
                     (step.2 = Slept (seconds 1) →
                      Streaming.chunk t0 = Streaming.ChunkRaised ∨
                      ((∃ e ts, Streaming.chunk t0 = Streaming.Chunk e ts) ∧
                       ¬ quiet (Streaming.others t0))) ∧
                     (∀ x, x ∈ step.1 →
                        att_admin x ∈ default ∅ (conversation_subscriptions
                                                   (Streaming.manager t0) !! conversation_id))) ∧
            ((∀ step, step ∈ steps → step.2 ≠ Hung) → length steps = length (t :: l)))
    as Hcons.
  { intros rest -> Hrest. destruct (IH rest Hrest) as [IH1 IH2]. split.
    - intros [|i] step Hi.
      + injection Hi as <-. exists t. split; [done|]. split; [done|]. exact H0.
      + by apply IH1.
    - intros Hall. simpl. f_equal. apply IH2. intros step Hin. apply Hall. by right. }
  destruct step0.2 eqn:Ee.
  - destruct (Streaming._stream_audio_to_admins conversation_id l) as [rest|] eqn:El; [|done].
    simpl. intros [= <-]. by apply (Hcons rest).
  - destruct (Streaming._stream_audio_to_admins conversation_id l) as [rest|] eqn:El; [|done].
    simpl. intros [= <-]. by apply (Hcons rest).
  - intros [= <-]. split.
    + intros [|i] step Hi; [|done].
      injection Hi as <-. exists t. split; [done|]. split; [done|].
      exact (stream_step_ends conversation_id t step0 E0).
    + intros Hall. exfalso. by apply (Hall step0); [left|].
Qed.


(** While no other task makes a step during the sends, the code
    determines every iteration of the loop. *)
Lemma stream_quiet (conversation_id : string) (ticks : list Streaming.tick) :
  (∀ t, t ∈ ticks → quiet (Streaming.others t)) →
  is_Some (Streaming._stream_audio_to_admins conversation_id ticks).
Proof.
  induction ticks as [|t l IH]; intros Hq; simpl; [by eexists|].
  assert (is_Some (Streaming.stream_step conversation_id t)) as [step0 E0].
  { unfold Streaming.stream_step. destruct (Streaming.chunk t) as [e ts| | |]; try by eexists.
    rewrite (audio_live_quiet (Streaming.manager t) conversation_id e ts (Streaming.others t))
      by (apply Hq; by left).
    simpl. by eexists. }
  rewrite E0. simpl.
  destruct IH as [rest Hrest]; [intros t' Ht'; apply Hq; by right|].
  rewrite Hrest. simpl. destruct step0.2; by eexists.
Qed.



(** ** formatDuration *)

Lemma padStart2_small (n : Z) :
  0 ≤ n < 60 → String.length (Duration.padStart2 (pretty n)) = 2%nat.
Proof.
  intros Hn.
  assert (∃ k : nat, (k < 60)%nat ∧ n = Z.of_nat k) as (k & Hk & ->).
  { exists (Z.to_nat n). lia. }
  clear Hn.
  do 60 (destruct k as [|k]; [vm_compute; reflexivity|]).
  lia.
Qed.

(** X22: for times of at most [Number.MAX_SAFE_INTEGER] milliseconds
    and a start time in the past, [formatDuration] shows the whole
    seconds elapsed, split into minutes and seconds: the seconds are
    between 0 and 59 and always fill two characters, and sixty times the
    minutes plus the seconds is the time elapsed; the minutes are not
    bounded by 59. A start time of 0 is shown as no time at all, and a
    start time in the future gives a negative number of minutes. *)
Theorem duration_is_split_into_minutes_and_seconds (now startTime : Z) :
  0 < startTime ≤ Duration.MAX_SAFE_INTEGER →
  0 ≤ now ≤ Duration.MAX_SAFE_INTEGER →
  ∃ minutes seconds,
    Duration.minutes now startTime = Some minutes ∧
    Duration.seconds now startTime = Some seconds ∧
    Duration.formatDuration now (Some startTime)
    = Some (Duration.padStart2 (pretty minutes) +:+ "m " +:+
            Duration.padStart2 (pretty seconds) +:+ "s") ∧
    (startTime ≤ now →
     0 ≤ minutes ∧ 0 ≤ seconds < 60 ∧
     60 * minutes + seconds = (now - startTime) `div` 1000 ∧
     String.length (Duration.padStart2 (pretty seconds)) = 2%nat) ∧
    (now < startTime → minutes < 0) ∧
    Duration.formatDuration now (Some 0) = Some "00m 00s".
Proof.
  intros Hs Hn.
  assert (Duration.duration now startTime = Some ((now - startTime) `div` 1000)) as Hd.
  { unfold Duration.duration, Duration.safe.
    replace (0 <=? now) with true by lia. replace (now <=? _) with true by lia.
    replace (0 <=? startTime) with true by lia.
    replace (startTime <=? _) with true by lia. done. }
  exists (((now - startTime) `div` 1000) `div` 60), (((now - startTime) `div` 1000) `rem` 60).
  unfold Duration.formatDuration, Duration.minutes, Duration.seconds. rewrite Hd. simpl.
  split; [done|]. split; [done|]. split.
  { destruct (startTime =? 0) eqn:E; [lia|done]. }
  split; [|split; [|done]].
  - intros Hle.
    assert (0 ≤ (now - startTime) `div` 1000) as Hp by (apply Z.div_pos; lia).
    set (d := (now - startTime) `div` 1000) in *.
    assert (d `rem` 60 = d `mod` 60) as Hrem by (apply Z.rem_mod_nonneg; lia).
    pose proof (Z.mod_pos_bound d 60 ltac:(lia)) as Hm.
    pose proof (Z.div_mod d 60 ltac:(lia)) as Hdm.
    assert (0 ≤ d `div` 60) by (apply Z.div_pos; lia).
    split; [done|]. split; [lia|]. split; [lia|].
    apply padStart2_small. lia.
  - intros Hlt.
    assert ((now - startTime) `div` 1000 < 0) by (apply Z.div_lt_upper_bound; lia).
    apply Z.div_lt_upper_bound; lia.
Qed.

Lemma duration_is_split_into_minutes_and_seconds_witness :
  Duration.formatDuration 1700000125000 (Some 1700000000000) = Some "02m 05s" ∧
  Duration.minutes 1700000000000 1700000001000 = Some (-1).
Proof.
  destruct (duration_is_split_into_minutes_and_seconds 1700000125000 1700000000000)
    as (m & s & Hm & Hs & H1 & _); [unfold Duration.MAX_SAFE_INTEGER; lia..|].
  destruct (duration_is_split_into_minutes_and_seconds 1700000000000 1700000001000)
    as (m' & s' & Hm' & _); [unfold Duration.MAX_SAFE_INTEGER; lia..|].
  split.
  - rewrite H1. vm_compute in Hm, Hs. injection Hm as <-. injection Hs as <-.
    vm_compute. reflexivity.
  - rewrite Hm'. vm_compute in Hm'. injection Hm' as <-. reflexivity.
Defined.

(** ** Stored recordings *)

Lemma list_ascii_of_string_app (a b : string) :
  String.list_ascii_of_string (a +:+ b)
  = String.list_ascii_of_string a ++ String.list_ascii_of_string b.
Proof. induction a as [|c a IH]; simpl; [done|]. by rewrite IH. Qed.

Lemma string_app_inv_tail (a b s : string) : a +:+ s = b +:+ s → a = b.
Proof.
  intros H. apply (f_equal String.list_ascii_of_string) in H.
  rewrite !list_ascii_of_string_app in H. apply app_inv_tail in H.
  apply (f_equal String.string_of_list_ascii) in H.
  by rewrite !String.string_of_list_ascii_of_string in H.
Qed.

(** The name of the object says which conversation it is of. *)
Lemma object_name_inj (c1 c2 : string) :
  Storage.object_name c1 = Storage.object_name c2 → c1 = c2.
Proof.
  unfold Storage.object_name. intros H.
  apply (inj (String.append "conversations/")) in H.
  by apply string_app_inv_tail in H.
Qed.

(** X23: [store_recording] writes the recording of a conversation as
    one object whose name tells the conversation apart from every other
    one, and touches no other object; the metadata of the caller win
    over the three the method sets. The URL it returns is the one
    [get_recording_url] gives for that conversation with its default
    lifetime; when [put_object] does not return, the bucket is as
    before. *)
Theorem stored_recording_is_found_by_its_conversation
    (presigned_get_object : string → string → Z → string) (bucket : Storage.Bucket)
    (file_data : list Byte.byte) (conversation_id timestamp : string)
    (metadata : option (gmap string value)) (put_ends : outcome) :
  let r := Storage.store_recording presigned_get_object bucket file_data conversation_id
             metadata timestamp put_ends in
  (put_ends = Returned →
   (∃ obj, r.1 !! Storage.object_name conversation_id = Some obj ∧
           Storage.data obj = file_data ∧
           (∀ m k v, metadata = Some m → m !! k = Some v →
                     Storage.object_metadata obj !! k = Some v) ∧
           (metadata = None →
            Storage.object_metadata obj !! "conversation-id" = Some (VStr conversation_id))) ∧
   r.2 = Gave (Storage.get_recording_url presigned_get_object conversation_id None) ∧
   (∀ c, c ≠ conversation_id → r.1 !! Storage.object_name c = bucket !! Storage.object_name c)) ∧
  (put_ends ≠ Returned → r.1 = bucket ∧ ∀ url, r.2 ≠ Gave url).
Proof.
  cbv zeta. unfold Storage.store_recording, Storage.get_recording_url.
  split.
  - intros ->. simpl. split; [|split; [done|]].
    + eexists. split; [apply lookup_insert_eq|]. simpl. split; [done|]. split.
      * intros m k v -> Hk. case_decide as He; [by rewrite He in Hk|].
        apply lookup_union_Some_l, Hk.
      * intros ->. reflexivity.
    + intros c Hne. apply lookup_insert_ne. intros H. by apply object_name_inj in H.
  - intros Hne. destruct put_ends; done.
Qed.

Lemma stored_recording_is_found_by_its_conversation_witness :
  (Storage.store_recording (λ b o h, b +:+ "/" +:+ o) ∅ [] "room-42" None "12:00" Returned).2
  = Gave (Storage.get_recording_url (λ b o h, b +:+ "/" +:+ o) "room-42" None).
Proof.
  destruct (stored_recording_is_found_by_its_conversation (λ b o h, b +:+ "/" +:+ o) ∅ []
              "room-42" "12:00" None Returned) as [H _].
  destruct (H eq_refl) as (_ & Hu & _). exact Hu.
Defined.

(** ** The egress webhook *)

Section WebhookProofs.
Variable download : string → Storage.download_end.
Variable put_ends : string → outcome.
Variable update_ends : string → outcome.
Variable upload_timestamp : string → string.

Lemma store_files_object (bucket : Storage.Bucket) (egress_id room_name : option string)
    (files : list Storage.FileResult) :
  let name := "conversations/" +:+ Storage.text_of egress_id +:+ ".mp4" in
  (Storage.store_files download put_ends update_ends upload_timestamp bucket egress_id room_name files).2 ≠ Raised ∧
  (∀ k, k ≠ name →
        (Storage.store_files download put_ends update_ends upload_timestamp bucket egress_id room_name files).1.1 !! k = bucket !! k) ∧
  (is_Some (bucket !! name) →
   is_Some ((Storage.store_files download put_ends update_ends upload_timestamp bucket egress_id room_name files).1.1 !! name)) ∧
  (∀ e o, (e, o) ∈ (Storage.store_files download put_ends update_ends upload_timestamp bucket egress_id room_name files).1.2 →
          e = egress_id ∧ o = name ∧
          is_Some ((Storage.store_files download put_ends update_ends upload_timestamp bucket egress_id room_name files).1.1 !! name)) ∧
  ((∀ f url, f ∈ files → Storage.download_url f = Some url → url ≠ "" →
             ∀ content, download url ≠ Storage.Downloaded 200 content) →
   (Storage.store_files download put_ends update_ends upload_timestamp bucket egress_id room_name files).1.1 = bucket).
Proof.
  cbv zeta. revert bucket. induction files as [|f l IH]; intros bucket; simpl.
  - split; [done|]. split; [done|]. split; [done|]. split; [|done].
    intros e o H. by apply elem_of_nil in H.
  - assert (∀ P : Storage.FileResult → Prop, (∀ g, g ∈ f :: l → P g) → ∀ g, g ∈ l → P g)
      as Htl by (intros P H g Hg; apply H; by right).
    destruct (Storage.download_url f) as [url|] eqn:Eu.
    2:{ destruct (IH bucket) as (H1 & H2 & H3 & H4 & H5).
        split; [done|]. split; [done|]. split; [done|]. split; [done|].
        intros Hall. apply H5. intros g u Hg. apply Hall. by right. }
    destruct (String.eqb url "") eqn:Ee.
    { destruct (IH bucket) as (H1 & H2 & H3 & H4 & H5).
      split; [done|]. split; [done|]. split; [done|]. split; [done|].
      intros Hall. apply H5. intros g u Hg. apply Hall. by right. }
    assert (url ≠ "") as Hurl by (intros ->; discriminate Ee).
    unfold Storage.download_and_store_recording.
    set (name := "conversations/" +:+ Storage.text_of egress_id +:+ ".mp4") in *.
    destruct (download url) as [status content| |] eqn:Ed; simpl.
    + destruct (status =? 200) eqn:Es; simpl.
      * apply Z.eqb_eq in Es. subst status.
        destruct (put_ends name) eqn:Ep; simpl.
        -- set (bucket1 := <[name := _]> bucket).
           destruct (IH bucket1) as (H1 & H2 & H3 & H4 & H5).
           assert (is_Some (bucket1 !! name)) as Hin
             by (unfold bucket1; rewrite lookup_insert_eq; by eexists).
           destruct (update_ends name) eqn:Eup; simpl.
           ++ destruct (Storage.store_files download put_ends update_ends upload_timestamp bucket1 egress_id room_name l) as [[b2 ups2] o2];
                simpl in *.
              split; [done|]. split.
              { intros k Hk. rewrite H2 by done. unfold bucket1. by rewrite lookup_insert_ne. }
              split; [intros _; by apply H3|]. split.
              { intros e o [[= -> ->]|Hin']%elem_of_cons; [by auto|].
                by apply H4. }
              intros Hall. exfalso. by apply (Hall f url ltac:(by left) Eu Hurl content).
           ++ destruct (Storage.store_files download put_ends update_ends upload_timestamp bucket1 egress_id room_name l) as [[b2 ups2] o2];
                simpl in *.
              split; [done|]. split.
              { intros k Hk. rewrite H2 by done. unfold bucket1. by rewrite lookup_insert_ne. }
              split; [intros _; by apply H3|]. split.
              { intros e o [[= -> ->]|Hin']%elem_of_cons; [by auto|].
                by apply H4. }
              intros Hall. exfalso. by apply (Hall f url ltac:(by left) Eu Hurl content).
           ++ split; [done|]. split.
              { intros k Hk. unfold bucket1. by rewrite lookup_insert_ne. }
              split; [done|]. split.
              { intros e o [[= -> ->]|Hin']%elem_of_cons; [by auto|].
                by apply elem_of_nil in Hin'. }
              intros Hall. exfalso. by apply (Hall f url ltac:(by left) Eu Hurl content).
        -- destruct (IH bucket) as (H1 & H2 & H3 & H4 & H5).
           destruct (Storage.store_files download put_ends update_ends upload_timestamp bucket egress_id room_name l) as [[b2 ups2] o2]; simpl in *.
           split; [done|]. split; [done|]. split; [done|]. split; [done|].
           intros Hall. apply H5. intros g u Hg. apply Hall. by right.
        -- split; [done|]. split; [done|]. split; [done|]. split; [|done].
           intros e o H. by apply elem_of_nil in H.
      * destruct (IH bucket) as (H1 & H2 & H3 & H4 & H5).
        destruct (Storage.store_files download put_ends update_ends upload_timestamp bucket egress_id room_name l) as [[b2 ups2] o2]; simpl in *.
        split; [done|]. split; [done|]. split; [done|]. split; [done|].
        intros Hall. apply H5. intros g u Hg. apply Hall. by right.
    + destruct (IH bucket) as (H1 & H2 & H3 & H4 & H5).
      destruct (Storage.store_files download put_ends update_ends upload_timestamp bucket egress_id room_name l) as [[b2 ups2] o2]; simpl in *.
      split; [done|]. split; [done|]. split; [done|]. split; [done|].
      intros Hall. apply H5. intros g u Hg. apply Hall. by right.
    + split; [done|]. split; [done|]. split; [done|]. split; [|done].
      intros e o H. by apply elem_of_nil in H.
Qed.

(** X24: [process_recording_completion] never raises: a download, an
    upload or a database update that fails is logged and the next file
    is tried. Whatever the number of file results, it writes at most
    one object, the one named after the egress, and
    [update_conversation_recording] is only told about that object,
    once it is in the bucket. File results without a URL, and downloads
    that fail or do not answer 200, leave the bucket as it is. The
    object is the one [get_recording_url] looks for exactly when the
    egress identifier is the conversation identifier. *)
Theorem webhook_stores_one_object_per_egress (bucket : Storage.Bucket)
    (egress_info : Storage.EgressInfo) :
  let r := Storage.process_recording_completion download put_ends update_ends
             upload_timestamp bucket egress_info in
  let name := "conversations/" +:+ Storage.text_of (Storage.egress_id egress_info) +:+ ".mp4" in
  r.2 ≠ Raised ∧
  (∀ k, k ≠ name → r.1.1 !! k = bucket !! k) ∧
  (∀ e o, (e, o) ∈ r.1.2 →
          e = Storage.egress_id egress_info ∧ o = name ∧ is_Some (r.1.1 !! name)) ∧
  ((∀ f url, f ∈ Storage.file_results egress_info →
             Storage.download_url f = Some url → url ≠ "" →
             ∀ content, download url ≠ Storage.Downloaded 200 content) →
   r.1.1 = bucket) ∧
  (∀ c, name = Storage.object_name c ↔ Storage.text_of (Storage.egress_id egress_info) = c).
Proof.
  cbv zeta. unfold Storage.process_recording_completion.
  destruct (store_files_object bucket (Storage.egress_id egress_info)
              (Storage.room_name egress_info) (Storage.file_results egress_info))
    as (H1 & H2 & _ & H4 & H5).
  split; [done|]. split; [done|]. split; [done|]. split; [done|].
  intros c. split.
  - intros H. by apply object_name_inj in H.
  - by intros <-.
Qed.

End WebhookProofs.

Lemma webhook_stores_one_object_per_egress_witness :
  (Storage.process_recording_completion answers_200 (λ _, Returned) (λ _, Raised) (λ _, "12:00")
     ∅ two_files).1.1 !! Storage.object_name "room-42" = None.
Proof.
  destruct (webhook_stores_one_object_per_egress answers_200 (λ _, Returned) (λ _, Raised)
              (λ _, "12:00") ∅ two_files) as (_ & H & _).
  rewrite H; [reflexivity|]. vm_compute; discriminate.
Defined.

(** ** The bucket of the recordings *)

Lemma ensure_bucket_step (env : Buckets.bucket_env) (st : Buckets.BucketState) :
  let r := Buckets._ensure_bucket env st in
  r.2 ≠ Raised ∧
  (Buckets.bucket_exists st = true →
   r.1.1 = st ∧ (Buckets.MakeBucket ∉ r.1.2) ∧ (Buckets.SetBucketLifecycle ∉ r.1.2)) ∧
  (Buckets.bucket_exists st = true → Buckets.bucket_exists r.1.1 = true) ∧
  (Buckets.bucket_lifecycle r.1.1 = Buckets.bucket_lifecycle st ∨
   (Buckets.bucket_exists st = false ∧
    Buckets.bucket_lifecycle r.1.1 = Some Buckets.lifecycle_config)).
Proof.
  cbv zeta. unfold Buckets._ensure_bucket.
  destruct (Buckets.exists_ends env); simpl.
  - destruct (Buckets.bucket_exists st) eqn:Ex; simpl.
    + split; [done|]. split; [|split; [done|by left]].
      intros _. split; [done|]. split; intros [?|?%elem_of_nil]%elem_of_cons; done.
    + destruct (Buckets.make_ends env); simpl;
        [destruct (Buckets.lifecycle_ends env); simpl|..];
        (split; [done|]); (split; [done|]); (split; [done|]);
        try (by left); right; done.
  - split; [done|]. split; [|split; [done|by left]].
    intros _. split; [done|]. split; intros [?|?%elem_of_nil]%elem_of_cons; done.
  - split; [done|]. split; [|split; [done|by left]].
    intros _. split; [done|]. split; intros [?|?%elem_of_nil]%elem_of_cons; done.
Qed.

(** X25: [_ensure_bucket] never raises, and it sets the lifecycle rule
    only in the run that creates the bucket: however often the manager
    is created against a bucket that exists, the bucket is neither made
    again nor given the rule, so a bucket that exists without the rule
    (made elsewhere, or made in a run whose [set_bucket_lifecycle]
    raised) never gets it. The rule, where it is set, covers every
    object [store_recording] writes. *)
Theorem existing_bucket_never_gets_the_lifecycle_rule
    (envs : list Buckets.bucket_env) (st : Buckets.BucketState) (conversation_id : string) :
  (∀ env, (Buckets._ensure_bucket env st).2 ≠ Raised) ∧
  (Buckets.bucket_exists st = true →
   (Buckets.ensure_all envs st).1 = st ∧
   (Buckets.MakeBucket ∉ (Buckets.ensure_all envs st).2) ∧
   (Buckets.SetBucketLifecycle ∉ (Buckets.ensure_all envs st).2)) ∧
  (∀ env, Buckets.bucket_exists st = false →
     Buckets.make_ends env = Returned → Buckets.lifecycle_ends env = Raised →
     Buckets.exists_ends env = Returned →
     Buckets.bucket_lifecycle (Buckets.ensure_all (env :: envs) st).1
     = Buckets.bucket_lifecycle st) ∧
  (∀ rule, rule ∈ Buckets.lifecycle_config →
     String.prefix (Buckets.filter_prefix rule) (Storage.object_name conversation_id) = true ∧
     Buckets.expiration_days rule = 365).
Proof.
  assert (∀ envs st, Buckets.bucket_exists st = true →
            (Buckets.ensure_all envs st).1 = st ∧
            (Buckets.MakeBucket ∉ (Buckets.ensure_all envs st).2) ∧
            (Buckets.SetBucketLifecycle ∉ (Buckets.ensure_all envs st).2)) as Hex.
  { clear. intros envs st Ex. induction envs as [|env l IH]; simpl.
    - split; [done|]. split; intros ?%elem_of_nil; done.
    - destruct (ensure_bucket_step env st) as (Hr & Hs & _). cbv zeta in Hs.
      destruct (Hs Ex) as (Hst & Hm & Hl).
      destruct (Buckets._ensure_bucket env st) as [[st1 tr] o]; simpl in *. subst st1.
      destruct IH as (IH1 & IH2 & IH3).
      destruct (Buckets.ensure_all l st) as [st2 tr2]; simpl in *.
      destruct o; simpl; try done;
        (split; [done|]); split; intros [?|?]%elem_of_app; done. }
  split; [intros env; apply ensure_bucket_step|].
  split; [apply Hex|]. split.
  - intros env Hn Hm Hl He. simpl. unfold Buckets._ensure_bucket.
    rewrite He, Hn, Hm, Hl. simpl.
    destruct (Hex envs {| Buckets.bucket_exists := true;
                          Buckets.bucket_lifecycle := Buckets.bucket_lifecycle st |} eq_refl)
      as (H1 & _).
    destruct (Buckets.ensure_all envs _) as [st2 tr2]; simpl in *. by subst st2.
  - intros rule [->|?%elem_of_nil]%elem_of_cons; [|done].
    split; [|done]. simpl. unfold Storage.object_name. by destruct conversation_id.
Qed.

Lemma existing_bucket_never_gets_the_lifecycle_rule_witness :
  Buckets.bucket_lifecycle
    (Buckets.ensure_all [rule_fails; bucket_ok; bucket_ok]
       {| Buckets.bucket_exists := false; Buckets.bucket_lifecycle := None |}).1 = None.
Proof.
  destruct (existing_bucket_never_gets_the_lifecycle_rule [bucket_ok; bucket_ok]
              {| Buckets.bucket_exists := false; Buckets.bucket_lifecycle := None |} "room-42")
    as (_ & _ & H & _).
  apply (H rule_fails); reflexivity.
Defined.
